(** * Connect: the state store, the event bus and the realtime binding

    A shallow embedding of the browser library [connect]:
    - [src/state.ts]: the three-tier key/value store ([state.get], [state.set],
      [state.has], [state.remove], [state.list], [state.clear]), on a host
      that provides both storages or none, and again on hosts that switch a
      storage off or deny it;
    - the bundled event bus ([events.emit], [events.on], [events.off],
      [events.once], [events.clear]) and the bundled lookup loop of
      [state.get], for comparison with the one of [src/state.ts];
    - [src/db.ts]: the realtime binding ([enableRealtime], [disableRealtime])
      and the authentication kept in the store ([saveAuthState],
      [restoreAuthState]);
    - the reference-counted lifecycle of resource-backed subscriptions, whose
      module is not among the sources: it is modelled from the specification,
      and every definition of that part says so.

    JavaScript effects are written in a small monad over a [World] holding the
    module-scope maps, the host storages, the clock and the console. *)

From Stdlib Require Import ZArith Lia Ascii String.
From stdpp Require Import base option list gmap strings fin_maps.

Local Open Scope Z_scope.
Local Open Scope string_scope.
Local Open Scope list_scope.

(** ** JavaScript values *)

(** The values the store holds and the bus carries.  Numbers are modelled as
    integers (time stamps are integral milliseconds). *)
#[local] Unset Elimination Schemes.
Inductive JsValue : Type :=
| JUndefined
| JNull
| JBool (b : bool)
| JNum (n : Z)
| JStr (s : string)
| JArr (xs : list JsValue)
| JObj (fields : list (string * JsValue)).
#[local] Set Elimination Schemes.

(** [v === undefined] *)
Definition is_undefined (v : JsValue) : bool :=
  match v with JUndefined => true | _ => false end.

(** What [JSON.parse(JSON.stringify(v))] gives back for a tree-shaped value:
    an [undefined] array element becomes [null], an [undefined] property is
    omitted, and a top-level [undefined] property value reads back as
    [undefined]. *)
Fixpoint jsonify (v : JsValue) : JsValue :=
  match v with
  | JArr xs =>
      JArr (List.map (fun x => match jsonify x with
                               | JUndefined => JNull
                               | y => y
                               end) xs)
  | JObj fields =>
      JObj ((fix props (fs : list (string * JsValue)) : list (string * JsValue) :=
               match fs with
               | [] => []
               | (k, x) :: rest =>
                   match jsonify x with
                   | JUndefined => props rest
                   | y => (k, y) :: props rest
                   end
               end) fields)
  | _ => v
  end.

(** [interface StoredValue { value: unknown; expiry?: number }] *)
Record StoredValue : Type := mkStored {
  value : JsValue;
  expiry : option Z
}.

(** [interface StateOptions { persist?: 'session' | 'local'; ttl?: number }] *)
Inductive Persist : Type := session | local.

Global Instance Persist_eq_dec : EqDecision Persist.
Proof. solve_decision. Defined.

Record StateOptions : Type := mkOptions {
  persist : option Persist;
  ttl : option Z
}.

Definition no_options : StateOptions := mkOptions None None.

(** ** The host: Web Storage, the clock, the console *)

(** A record kept by a [Storage] is a string.  The store only ever looks at it
    through [!raw] and [JSON.parse(raw) as StoredValue], so a string is
    represented by what decoding makes of it: [Malformed text] is a text that
    [JSON.parse] rejects (the empty string is one), [Encoded sv] is the JSON
    text of a stored value, an object with a [value] and, when it has one, a
    numeric [expiry]: what [JSON.stringify] writes.  A text that is valid JSON
    of another shape ([0], [null], an array) is neither: the cast to
    [StoredValue] does not check the shape, and the model has no record of
    that kind, so that no statement covers a storage that holds one under a
    key of the store. *)
Inductive Raw : Type :=
| Malformed (text : string)
| Encoded (sv : StoredValue).

(** [!raw] for [raw : string | null] *)
Definition falsy_raw (raw : option Raw) : bool :=
  match raw with
  | None => true
  | Some (Malformed "") => true
  | Some _ => false
  end.

(** [JSON.stringify(stored)] *)
Definition JSON_stringify (stored : StoredValue) : Raw :=
  Encoded (mkStored (jsonify (value stored)) (expiry stored)).

(** A [Storage] object.  [quota] abstracts the host's size limit as a bound on
    the number of records: [setItem] of a new key on a full storage throws.
    The limit of a host is on the size of the texts; a replacement that a
    host refuses because the new text is longer is not modelled. *)
Record Storage : Type := mkStorage {
  items : gmap string Raw;
  quota : nat
}.

(** [window], with the two storages it provides. *)
Record Window : Type := mkWindow {
  sessionStorage : Storage;
  localStorage : Storage
}.

Definition storage_of (p : Persist) (win : Window) : Storage :=
  match p with session => sessionStorage win | local => localStorage win end.

Definition with_storage (p : Persist) (st : Storage) (win : Window) : Window :=
  match p with
  | session => mkWindow st (localStorage win)
  | local => mkWindow (sessionStorage win) st
  end.

Inductive JsError : Type :=
| SyntaxError
| QuotaExceededError
| ReferenceError
| RangeError            (* Maximum call stack size exceeded *)
| Thrown (v : JsValue).

(** ** Listeners *)

(** Functions are compared by reference.  A listener passed in by the
    application is [User id]; [OnceWrapper uid eventName id] is the closure
    that the [uid]-th call of [events.once] allocates around [User id]. *)
Inductive Handler : Type :=
| User (id : nat)
| OnceWrapper (uid : nat) (eventName : string) (id : nat).

Global Instance Handler_eq_dec : EqDecision Handler.
Proof. solve_decision. Defined.

(** A JavaScript [Set]: its entries in insertion order; a deleted entry leaves
    an empty slot behind, so that an iteration in progress keeps its place. *)
Abbreviation JsSet := (list (option Handler)).

Definition Set_add (h : Handler) (s : JsSet) : JsSet :=
  if decide (Some h ∈ s) then s else s ++ [Some h].

Definition Set_delete (h : Handler) (s : JsSet) : JsSet :=
  (fun e => if decide (e = Some h) then None else e) <$> s.

(** The entries that are still in the set, in insertion order. *)
Definition Set_values (s : JsSet) : list Handler := omap id s.

(** What an execution lets one observe (ghost state, for the statements). *)
Inductive Obs : Type :=
| Emitted (eventName : string) (payload : JsValue)
| Called (id : nat) (payload : JsValue).

Inductive ConsoleEntry : Type :=
| ConsoleError (message : string) (e : JsError).

(** ** The world *)

Record World : Type := mkWorld {
  now : Z;                              (* Date.now() *)
  window : option Window;               (* None: typeof window === 'undefined' *)
  memoryStore : gmap string StoredValue;(* const memoryStore = new Map() *)
  handlers : gmap string nat;           (* const handlers = new Map(): name to Set object *)
  heap : list JsSet;                    (* the Set objects, by address *)
  next_closure : nat;                   (* closures allocated by once so far *)
  console : list ConsoleEntry;
  trace : list Obs
}.

(** ** The effect monad *)

(** A computation returns, throws, or does not end.  The functions that loop
    or call each other take a [fuel]: the number of turns a loop is given
    before it counts as endless ([Diverge]), and the depth of the call stack,
    beyond which a call throws [RangeError]. *)
Inductive Outcome (A : Type) : Type :=
| Ret (a : A) (w : World)
| Exn (e : JsError) (w : World)
| Diverge.
Arguments Ret {A} a w.
Arguments Exn {A} e w.
Arguments Diverge {A}.

Definition M (A : Type) : Type := World -> Outcome A.

Definition ret {A} (a : A) : M A := fun w => Ret a w.
Definition throw {A} (e : JsError) : M A := fun w => Exn e w.
Definition diverge {A} : M A := fun _ => Diverge.

Definition bind {A B} (m : M A) (k : A -> M B) : M B :=
  fun w => match m w with
           | Ret a w' => k a w'
           | Exn e w' => Exn e w'
           | Diverge => Diverge
           end.

(** [try { m } catch (e) { h(e) }] *)
Definition try_catch {A} (m : M A) (h : JsError -> M A) : M A :=
  fun w => match m w with
           | Ret a w' => Ret a w'
           | Exn e w' => h e w'
           | Diverge => Diverge
           end.

Notation "'let*' x ':=' m 'in' k" := (bind m (fun x => k))
  (at level 10, x pattern, m at level 100, k at level 200).
Notation "m ';;' k" := (bind m (fun _ => k))
  (at level 100, k at level 200, right associativity).

Definition gets {A} (f : World -> A) : M A := fun w => Ret (f w) w.
Definition modify (f : World -> World) : M unit := fun w => Ret tt (f w).

Definition set_window (x : option Window) (w : World) : World :=
  mkWorld (now w) x (memoryStore w) (handlers w) (heap w) (next_closure w)
          (console w) (trace w).
Definition set_memoryStore (x : gmap string StoredValue) (w : World) : World :=
  mkWorld (now w) (window w) x (handlers w) (heap w) (next_closure w)
          (console w) (trace w).
Definition set_handlers (x : gmap string nat) (w : World) : World :=
  mkWorld (now w) (window w) (memoryStore w) x (heap w) (next_closure w)
          (console w) (trace w).
Definition set_heap (x : list JsSet) (w : World) : World :=
  mkWorld (now w) (window w) (memoryStore w) (handlers w) x (next_closure w)
          (console w) (trace w).
Definition set_console (x : list ConsoleEntry) (w : World) : World :=
  mkWorld (now w) (window w) (memoryStore w) (handlers w) (heap w) (next_closure w)
          x (trace w).
Definition set_trace (x : list Obs) (w : World) : World :=
  mkWorld (now w) (window w) (memoryStore w) (handlers w) (heap w) (next_closure w)
          (console w) x.
Definition set_now (x : Z) (w : World) : World :=
  mkWorld x (window w) (memoryStore w) (handlers w) (heap w) (next_closure w)
          (console w) (trace w).

Definition Date_now : M Z := gets now.

Definition console_error (message : string) (e : JsError) : M unit :=
  modify (fun w => set_console (console w ++ [ConsoleError message e]) w).

(** Appends to the ghost trace.  The code has no such call: [emit] and [call]
    record here what they do, and nothing reads the trace back. *)
Definition observe (o : Obs) : M unit :=
  modify (fun w => set_trace (trace w ++ [o]) w).

(** *** Web Storage methods *)

Definition the_storage (st : Persist) : M Storage :=
  fun w => match window w with
           | Some win => Ret (storage_of st win) w
           | None => Exn ReferenceError w
           end.

Definition put_storage (st : Persist) (s : Storage) : M unit :=
  fun w => match window w with
           | Some win => Ret tt (set_window (Some (with_storage st s win)) w)
           | None => Exn ReferenceError w
           end.

(** [storage.getItem(k)] *)
Definition Storage_getItem (st : Persist) (k : string) : M (option Raw) :=
  let* s := the_storage st in ret (items s !! k).

(** Whether the storage takes a record under [k]: it replaces one, or there
    is room for a new one.  A refusal is therefore that of a new key; what is
    stated of a refused write is stated for a key the storage has no record
    of. *)
Definition accepts (s : Storage) (k : string) : bool :=
  bool_decide (is_Some (items s !! k)) || bool_decide (size (items s) < quota s)%nat.

(** [storage.setItem(k, v)]: throws when the quota is exceeded *)
Definition Storage_setItem (st : Persist) (k : string) (v : Raw) : M unit :=
  let* s := the_storage st in
  if accepts s k
  then put_storage st (mkStorage (<[k := v]> (items s)) (quota s))
  else throw QuotaExceededError.

(** [storage.removeItem(k)] *)
Definition Storage_removeItem (st : Persist) (k : string) : M unit :=
  let* s := the_storage st in
  put_storage st (mkStorage (delete k (items s)) (quota s)).

(** [storage.length] *)
Definition Storage_length (st : Persist) : M nat :=
  let* s := the_storage st in ret (length (map_to_list (items s))).

(** [storage.key(i)]: the [i]-th key in the host's enumeration order *)
Definition Storage_key (st : Persist) (i : nat) : M (option string) :=
  let* s := the_storage st in ret (fst <$> map_to_list (items s) !! i).

(** [JSON.parse(raw) as StoredValue] *)
Definition JSON_parse (raw : Raw) : M StoredValue :=
  match raw with
  | Malformed _ => throw SyntaxError
  | Encoded sv => ret sv
  end.

(** ** The event bus (the bundled [events] object) *)

Section Program.

(** The code of the application's callbacks: [body id payload] runs the
    listener [User id]. It may do anything to the world, throw, or not
    return. *)
Variable body : nat -> JsValue -> M unit.

(** [handlers.get(eventName)?.delete(handler)] *)
Definition off (eventName : string) (handler : Handler) : M unit :=
  let* hs := gets handlers in
  match hs !! eventName with
  | None => ret tt
  | Some addr =>
      modify (fun w => set_heap (alter (Set_delete handler) addr (heap w)) w)
  end.

(** [handler(payload)] *)
Definition call (handler : Handler) (payload : JsValue) : M unit :=
  match handler with
  | User id =>
      observe (Called id payload) ;;
      body id payload
  | OnceWrapper _ eventName id =>
      (* const wrapper = (payload) => { this.off(eventName, wrapper); handler(payload); } *)
      off eventName handler ;;
      observe (Called id payload) ;;
      body id payload
  end.

(** [set.forEach(callback)]: visits the entries by index, skipping the empty
    slots and reaching the entries added while it runs. *)
Fixpoint Set_forEach (fuel : nat) (addr index : nat) (callback : Handler -> M unit)
  : M unit :=
  match fuel with
  | O => diverge
  | S fuel' =>
      let* entries := gets (fun w => default [] (heap w !! addr)) in
      match entries !! index with
      | None => ret tt
      | Some None => Set_forEach fuel' addr (S index) callback
      | Some (Some h) =>
          callback h ;;
          Set_forEach fuel' addr (S index) callback
      end
  end.

(** [events.emit(eventName, payload)]; the text of the console message is
    abridged. *)
Definition emit (fuel : nat) (eventName : string) (payload : JsValue) : M unit :=
  observe (Emitted eventName payload) ;;
  let* eventHandlers := gets (fun w => handlers w !! eventName) in
  match eventHandlers with
  | None => ret tt
  | Some addr =>
      Set_forEach fuel addr 0 (fun handler =>
        try_catch (call handler payload)
                  (fun e => console_error ("Error in event handler for " +:+ eventName) e))
  end.

(** [events.on(eventName, handler)] *)
Definition on (eventName : string) (handler : Handler) : M unit :=
  let* has := gets (fun w => bool_decide (is_Some (handlers w !! eventName))) in
  (if has then ret tt
   else modify (fun w => set_handlers (<[eventName := length (heap w)]> (handlers w))
                            (set_heap (heap w ++ [[]]) w))) ;;
  let* hs := gets handlers in
  match hs !! eventName with
  | None => ret tt
  | Some addr => modify (fun w => set_heap (alter (Set_add handler) addr (heap w)) w)
  end.


(** [events.clear(eventName)]; the empty name is falsy, like no name. *)
Definition events_clear (eventName : option string) : M unit :=
  match eventName with
  | Some "" | None => modify (set_handlers ∅)
  | Some name => modify (fun w => set_handlers (delete name (handlers w)) w)
  end.

(** ** The state store ([src/state.ts]) *)

Definition STORAGE_PREFIX : string := "cc:".

(** [getStorage(persist)] returns the storage object, named here by its tier.
    This is the function on a host that, when it defines [window], gives both
    storage objects; [getStorage_on] below is the function on a host that
    gives [null] for a storage, or throws from its getter. *)
Definition getStorage (persist : option Persist) : M (option Persist) :=
  let* win := gets window in
  match win with
  | None => ret None
  | Some _ =>
      match persist with
      | Some session => ret (Some session)
      | Some local => ret (Some local)
      | None => ret None
      end
  end.

(** [isExpired(stored)] *)
Definition isExpired (stored : StoredValue) : M bool :=
  match expiry stored with
  | None => ret false
  | Some e => let* t := Date_now in ret (bool_decide (t > e))
  end.

(** [getFromStorage(key, storage)]; [None] is [null]. *)
Definition getFromStorage (key : string) (storage : Persist) : M (option StoredValue) :=
  try_catch
    (let* raw := Storage_getItem storage (STORAGE_PREFIX +:+ key) in
     if falsy_raw raw then ret None
     else match raw with
          | Some r => let* sv := JSON_parse r in ret (Some sv)
          | None => ret None
          end)
    (fun _ => ret None).

(** [saveToStorage(key, stored, storage)] *)
Definition saveToStorage (key : string) (stored : StoredValue) (storage : Persist) : M unit :=
  try_catch
    (Storage_setItem storage (STORAGE_PREFIX +:+ key) (JSON_stringify stored))
    (fun e => console_error ("Failed to save to storage: " +:+ key) e).

(** [removeFromStorage(key, storage)] *)
Definition removeFromStorage (key : string) (storage : Persist) : M unit :=
  Storage_removeItem storage (STORAGE_PREFIX +:+ key).

Definition memoryStore_get (key : string) : M (option StoredValue) :=
  gets (fun w => memoryStore w !! key).
Definition memoryStore_set (key : string) (stored : StoredValue) : M unit :=
  modify (fun w => set_memoryStore (<[key := stored]> (memoryStore w)) w).
Definition memoryStore_delete (key : string) : M unit :=
  modify (fun w => set_memoryStore (delete key (memoryStore w)) w).

(** The loop of [state.get] over the persistent stores. *)
Fixpoint get_persistent (key : string) (tiers : list Persist) : M JsValue :=
  match tiers with
  | [] => ret JUndefined
  | persist :: rest =>
      let* storage := getStorage (Some persist) in
      match storage with
      | None => get_persistent key rest
      | Some storage =>
          let* stored := getFromStorage key storage in
          match stored with
          | Some stored =>
              let* expired := isExpired stored in
              if expired then
                removeFromStorage key storage ;;
                get_persistent key rest
              else ret (value stored)
          | None => get_persistent key rest
          end
      end
  end.

(** The loop of [state.remove] over the persistent stores. *)
Fixpoint remove_persistent (key : string) (tiers : list Persist) : M unit :=
  match tiers with
  | [] => ret tt
  | persist :: rest =>
      let* storage := getStorage (Some persist) in
      match storage with
      | Some storage => removeFromStorage key storage ;; remove_persistent key rest
      | None => remove_persistent key rest
      end
  end.

(** The body of [state.remove], with the [this.get] it calls as a parameter:
    [get] and [remove] call each other. *)
Definition remove_with (get : string -> M JsValue) (emit : string -> JsValue -> M unit)
    (key : string) : M unit :=
  let* oldValue := get key in
  if is_undefined oldValue then ret tt
  else
    memoryStore_delete key ;;
    remove_persistent key [session; local] ;;
    emit ("state:" +:+ key) (JObj [("value", JUndefined); ("oldValue", oldValue)]).

(** [state.get(key)] *)
Fixpoint get (fuel : nat) (key : string) : M JsValue :=
  match fuel with
  | O => throw RangeError
  | S fuel' =>
      let* mem := memoryStore_get key in
      match mem with
      | Some mem =>
          let* expired := isExpired mem in
          if expired then
            remove_with (get fuel') (emit fuel') key ;;
            ret JUndefined
          else ret (value mem)
      | None => get_persistent key [session; local]
      end
  end.

(** [state.remove(key)] *)
Definition remove (fuel : nat) (key : string) : M unit :=
  remove_with (get fuel) (emit fuel) key.

(** [state.set(key, value, options)] *)
Definition set (fuel : nat) (key : string) (v : JsValue) (options : StateOptions) : M unit :=
  let* oldValue := get fuel key in
  let* exp :=
    match ttl options with
    | Some t => if bool_decide (t = 0) then ret None
                else let* n := Date_now in ret (Some (n + t))
    | None => ret None
    end in
  let stored := mkStored v exp in
  let* storage := getStorage (persist options) in
  match storage with
  | Some storage =>
      saveToStorage key stored storage ;;
      memoryStore_delete key
  | None => memoryStore_set key stored
  end ;;
  emit fuel ("state:" +:+ key) (JObj [("value", v); ("oldValue", oldValue)]).

(** [state.has(key)] *)
Definition has (fuel : nat) (key : string) : M bool :=
  let* v := get fuel key in ret (negb (is_undefined v)).

(** The scan of [state.clear] over [storage.key(i)] for [i < storage.length]. *)
Fixpoint clear_scan (storage : Persist) (n i : nat) (keysToRemove : list string)
  : M (list string) :=
  match n with
  | O => ret keysToRemove
  | S n' =>
      let* key := Storage_key storage i in
      clear_scan storage n' (S i)
        (match key with
         | Some k => if String.prefix STORAGE_PREFIX k
                     then keysToRemove ++ [k] else keysToRemove
         | None => keysToRemove
         end)
  end.

(** [keysToRemove.forEach(k => storage.removeItem(k))] *)
Fixpoint remove_keys (storage : Persist) (keys : list string) : M unit :=
  match keys with
  | [] => ret tt
  | k :: rest => Storage_removeItem storage k ;; remove_keys storage rest
  end.

Fixpoint clear_persistent (tiers : list Persist) : M unit :=
  match tiers with
  | [] => ret tt
  | persist :: rest =>
      let* storage := getStorage (Some persist) in
      match storage with
      | None => clear_persistent rest
      | Some storage =>
          let* len := Storage_length storage in
          let* keysToRemove := clear_scan storage len 0 [] in
          remove_keys storage keysToRemove ;;
          clear_persistent rest
      end
  end.

(** [state.clear()] *)
Definition clear : M unit :=
  modify (set_memoryStore ∅) ;;
  clear_persistent [session; local].

End Program.

(** ** The bundled build of [state.get]

    The bundle shipped with the repository carries an earlier build of the
    store.  Its [get] decodes inline; this is its loop over the persistent
    stores. *)

Inductive LoopStep : Type :=
| Continue
| Return (v : JsValue).

(** [getStorage(persistence)] of the bundle *)
Definition bundled_getStorage (persistence : Persist) : M (option Persist) :=
  let* win := gets window in
  match win with
  | None => ret None
  | Some _ => ret (Some persistence)
  end.

Fixpoint bundled_get_persistent (key : string) (tiers : list Persist) : M JsValue :=
  match tiers with
  | [] => ret JUndefined
  | storageType :: rest =>
      let* storage := bundled_getStorage storageType in
      match storage with
      | None => bundled_get_persistent key rest
      | Some storage =>
          let* raw := Storage_getItem storage (STORAGE_PREFIX +:+ key) in
          match raw with
          | Some r =>
              if falsy_raw raw then bundled_get_persistent key rest
              else
                let* step :=
                  try_catch
                    (let* parsed := JSON_parse r in
                     let* expired := isExpired parsed in
                     if expired then
                       Storage_removeItem storage (STORAGE_PREFIX +:+ key) ;;
                       ret Continue
                     else ret (Return (value parsed)))
                    (fun _ =>
                       (* Invalid JSON, remove it *)
                       Storage_removeItem storage (STORAGE_PREFIX +:+ key) ;;
                       ret Continue) in
                match step with
                | Continue => bundled_get_persistent key rest
                | Return v => ret v
                end
          | None => bundled_get_persistent key rest
          end
      end
  end.

(** ** Vocabulary of the statements *)

Definition handler_id (h : Handler) : nat :=
  match h with User id => id | OnceWrapper _ _ id => id end.

(** What a fan-out leaves of an entry: a once-wrapper has removed itself. *)
Definition fired (e : option Handler) : option Handler :=
  match e with
  | Some (OnceWrapper _ _ _) => None
  | _ => e
  end.

(** A listener that returns or throws as [verdict] says, and does not call
    into the library. *)
Definition listener (verdict : nat -> JsValue -> option JsError) : nat -> JsValue -> M unit :=
  fun id payload =>
    match verdict id payload with
    | None => ret tt
    | Some e => throw e
    end.

(** The calls a fan-out over [hs] makes, and the errors it reports. *)
Definition calls_of (payload : JsValue) (hs : list Handler) : list Obs :=
  (fun h => Called (handler_id h) payload) <$> hs.

Definition reports_of (verdict : nat -> JsValue -> option JsError) (eventName : string)
    (payload : JsValue) (hs : list Handler) : list ConsoleEntry :=
  omap (fun h => ConsoleError ("Error in event handler for " +:+ eventName)
                   <$> verdict (handler_id h) payload) hs.

(** The heap holds sets: no entry twice, and a once-wrapper sits in the set
    registered under the name it was made for. *)
Definition set_ok (w : World) (addr : nat) (es : JsSet) : Prop :=
  heap w !! addr = Some es /\
  NoDup (Set_values es) /\
  (forall uid n id, Some (OnceWrapper uid n id) ∈ es -> handlers w !! n = Some addr).

(** The world a fan-out over the entries [post], which follow [pre] in the
    set at [addr], leaves behind. *)
Definition after_fanout (verdict : nat -> JsValue -> option JsError) (eventName : string)
    (payload : JsValue) (addr : nat) (pre post : JsSet) (w : World) : World :=
  set_heap (<[addr := pre ++ (fired <$> post)]> (heap w))
    (set_trace (trace w ++ calls_of payload (Set_values post))
       (set_console (console w ++ reports_of verdict eventName payload (Set_values post)) w)).

(** The set registered under a name (empty when there is none). *)
Definition listeners_at (w : World) (eventName : string) : JsSet :=
  match handlers w !! eventName with
  | Some addr => default [] (heap w !! addr)
  | None => []
  end.

(** The listeners currently registered under a name, in subscription order. *)
Definition registered (w : World) (eventName : string) : list Handler :=
  Set_values (listeners_at w eventName).

Definition bus_ok (w : World) (eventName : string) : Prop :=
  forall addr, handlers w !! eventName = Some addr ->
               set_ok w addr (listeners_at w eventName).

(** The world [emit] leaves behind when the listeners are [listener verdict]. *)
Definition emitted_world (verdict : nat -> JsValue -> option JsError) (eventName : string)
    (payload : JsValue) (w : World) : World :=
  let w1 := set_trace (trace w ++ [Emitted eventName payload]) w in
  match handlers w !! eventName with
  | Some addr => after_fanout verdict eventName payload addr [] (listeners_at w eventName) w1
  | None => w1
  end.

(** A once-wrapper is only ever registered under the name it was made for. *)
Definition made_for (eventName : string) (h : Handler) : Prop :=
  match h with
  | User _ => True
  | OnceWrapper _ n _ => n = eventName
  end.

(** ** Worlds and listeners used as examples *)

Definition empty_world : World :=
  mkWorld 1000 (Some (mkWindow (mkStorage ∅ 8) (mkStorage ∅ 8))) ∅ ∅ [] 0 [] [].

(** Listener 7 throws, the others return. *)
Definition demo_verdict : nat -> JsValue -> option JsError :=
  fun id _ => if (id =? 7)%nat then Some (Thrown (JStr "boom")) else None.

(** Three listeners subscribed to [evt], in the order 1, 7, 2; one to [other]. *)
Definition three_listeners : World :=
  mkWorld 1000 (Some (mkWindow (mkStorage ∅ 8) (mkStorage ∅ 8))) ∅
    (<["evt" := 0%nat]> (<["other" := 1%nat]> ∅))
    [[Some (User 1); Some (User 7); Some (User 2)]; [Some (User 9)]] 0 [] [].

Definition is_user (h : Handler) : bool :=
  match h with User _ => true | OnceWrapper _ _ _ => false end.

(** The listeners a fan-out leaves registered: those subscribed with [on]. *)
Definition remaining (hs : list Handler) : list Handler := List.filter is_user hs.

(** The listeners [off(eventName, h)] leaves registered. *)
Definition without (h : Handler) (hs : list Handler) : list Handler :=
  List.filter (fun h' => negb (bool_decide (h' = h))) hs.

(** ** The lookup of [state.get] in the words of the specification *)

(** The tiers, in the order of the lookup: the memory store is the ephemeral
    tier, [sessionStorage] tier A, [localStorage] tier B. *)
Inductive Tier : Type :=
| Ephemeral
| Persistent (p : Persist).

Definition lookup_order : list Tier := [Ephemeral; Persistent session; Persistent local].

(** A record that decodes. *)
Definition decode (raw : option Raw) : option StoredValue :=
  match raw with
  | Some (Encoded sv) => Some sv
  | _ => None
  end.

(** The raw record of a key in a persistent tier; none when the host has no
    storage. *)
Definition record_in (p : Persist) (key : string) (w : World) : option Raw :=
  match window w with
  | Some win => items (storage_of p win) !! (STORAGE_PREFIX +:+ key)
  | None => None
  end.

(** The entry a tier holds for a key. *)
Definition entry_in (t : Tier) (key : string) (w : World) : option StoredValue :=
  match t with
  | Ephemeral => memoryStore w !! key
  | Persistent p => decode (record_in p key w)
  end.

(** [now > expiry], for an entry that has an expiry. *)
Definition expired_at (t : Z) (sv : StoredValue) : bool :=
  match expiry sv with
  | Some e => bool_decide (t > e)
  | None => false
  end.

Definition delete_record (p : Persist) (rawKey : string) (w : World) : World :=
  match window w with
  | Some win =>
      let st := storage_of p win in
      set_window (Some (with_storage p (mkStorage (delete rawKey (items st)) (quota st)) win)) w
  | None => w
  end.

(** Purging a key from one tier only. *)
Definition purge_from (t : Tier) (key : string) (w : World) : World :=
  match t with
  | Ephemeral => set_memoryStore (delete key (memoryStore w)) w
  | Persistent p => delete_record p (STORAGE_PREFIX +:+ key) w
  end.

(** "First tier containing a non-expired entry wins; an expired entry found in
    any tier is purged from that tier as a side effect and the search
    continues": the value returned and the world left behind. *)
Fixpoint lookup_spec (key : string) (tiers : list Tier) (w : World) : JsValue * World :=
  match tiers with
  | [] => (JUndefined, w)
  | t :: rest =>
      match entry_in t key w with
      | Some sv =>
          if expired_at (now w) sv then lookup_spec key rest (purge_from t key w)
          else (value sv, w)
      | None => lookup_spec key rest w
      end
  end.

(** ** What the mutations leave behind *)

(** [ttl ? Date.now() + ttl : undefined], for a [ttl] that is an integer
    number of milliseconds; the sum is the one of the code as long as it is
    an integer that a double holds exactly. *)
Definition expiry_for (ttl : option Z) (t : Z) : option Z :=
  match ttl with
  | Some d => if bool_decide (d = 0) then None else Some (t + d)
  | None => None
  end.

(** [{ value, oldValue }] *)
Definition change_event (v oldValue : JsValue) : JsValue :=
  JObj [("value", v); ("oldValue", oldValue)].

Definition state_event (key : string) : string := "state:" +:+ key.

(** The world after the writes of [state.set], before its change event. *)
Definition written (key : string) (v : JsValue) (options : StateOptions) (w : World) : World :=
  let stored := mkStored v (expiry_for (ttl options) (now w)) in
  match window w, persist options with
  | Some win, Some p =>
      let st := storage_of p win in
      let rawKey := STORAGE_PREFIX +:+ key in
      let w1 :=
        if accepts st rawKey
        then set_window
               (Some (with_storage p
                        (mkStorage (<[rawKey := JSON_stringify stored]> (items st)) (quota st))
                        win)) w
        else set_console
               (console w ++ [ConsoleError ("Failed to save to storage: " +:+ key)
                                QuotaExceededError]) w in
      set_memoryStore (delete key (memoryStore w1)) w1
  | _, _ => set_memoryStore (<[key := stored]> (memoryStore w)) w
  end.

(** The world after the deletions of [state.remove], before its change event. *)
Definition removed (key : string) (w : World) : World :=
  delete_record local (STORAGE_PREFIX +:+ key)
    (delete_record session (STORAGE_PREFIX +:+ key)
       (set_memoryStore (delete key (memoryStore w)) w)).

(** A storage without the records of the store. *)
Definition swept (st : Storage) : Storage :=
  mkStorage (filter (fun kv => String.prefix STORAGE_PREFIX kv.1 = false) (items st))
            (quota st).

(** The world after [state.clear]. *)
Definition cleared (w : World) : World :=
  set_window
    (match window w with
     | Some win => Some (mkWindow (swept (sessionStorage win)) (swept (localStorage win)))
     | None => None
     end)
    (set_memoryStore ∅ w).

(** The memory store holds no expired entry for the key. *)
Definition memory_fresh (key : string) (w : World) : Prop :=
  forall mem, memoryStore w !! key = Some mem -> expired_at (now w) mem = false.

(** The memory entry of [k] expired at 500; the session storage holds a live
    copy. *)
Definition stale_memory : World :=
  mkWorld 1000
    (Some (mkWindow (mkStorage {[ "cc:k" := Encoded (mkStored (JNum 2) None) ]} 8)
                    (mkStorage ∅ 8)))
    {[ "k" := mkStored (JNum 1) (Some 500) ]} ∅ [] 0 [] [].

(** The session copy of [k] expired at 500; the local storage holds a live
    copy. *)
Definition stale_session : World :=
  mkWorld 1000
    (Some (mkWindow (mkStorage {[ "cc:k" := Encoded (mkStored (JNum 1) (Some 500)) ]} 8)
                    (mkStorage {[ "cc:k" := Encoded (mkStored (JNum 2) None) ]} 8)))
    ∅ ∅ [] 0 [] [].

(** The session record of [k] is not JSON. *)
Definition garbled_session : World :=
  mkWorld 1000
    (Some (mkWindow (mkStorage {[ "cc:k" := Malformed "{oops" ]} 8)
                    (mkStorage ∅ 8)))
    ∅ ∅ [] 0 [] [].

(** Two worlds that differ in the stores only. *)
Definition same_bus (w w' : World) : Prop :=
  now w' = now w /\ handlers w' = handlers w /\ heap w' = heap w /\
  next_closure w' = next_closure w /\ console w' = console w /\ trace w' = trace w.

(** [a] is in the memory store and in the session storage; listener 1 is
    subscribed to its change event. *)
Definition watched_store : World :=
  mkWorld 1000
    (Some (mkWindow (mkStorage {[ "cc:a" := Encoded (mkStored (JNum 0) None) ]} 8)
                    (mkStorage ∅ 8)))
    {[ "a" := mkStored (JNum 1) None ]}
    {[ "state:a" := 0%nat ]} [[Some (User 1)]] 0 [] [].


(** The session storage holds a live copy of [k]. *)
Definition live_session : World :=
  mkWorld 1000
    (Some (mkWindow (mkStorage {[ "cc:k" := Encoded (mkStored (JNum 2) None) ]} 8)
                    (mkStorage ∅ 8)))
    ∅ ∅ [] 0 [] [].

(** The tier a [set] with these options writes to. *)
Definition target_tier (options : StateOptions) (w : World) : Tier :=
  match window w, persist options with
  | Some _, Some p => Persistent p
  | _, _ => Ephemeral
  end.

(** The storage of a tier is not full. *)
Definition has_room (p : Persist) (w : World) : Prop :=
  forall win, window w = Some win ->
              (size (items (storage_of p win)) < quota (storage_of p win))%nat.

(** No tier consulted before [t] holds a live copy of the key. *)
Definition nothing_live_ahead (t : Tier) (key : string) (w : World) : Prop :=
  match t with
  | Persistent local =>
      forall sv, entry_in (Persistent session) key w = Some sv ->
                 expired_at (now w) sv = true
  | _ => True
  end.

(** ** Resource-backed subscriptions *)

(** A resource key: a collection, or one item of a collection. *)
Abbreviation ResKey := (string * option string)%type.

Fixpoint split_colon_from (cur : string) (s : string) : list string :=
  match s with
  | EmptyString => [cur]
  | String c rest =>
      if Ascii.eqb c ":"%char then cur :: split_colon_from "" rest
      else split_colon_from (cur +:+ String c "") rest
  end.

Definition split_colon (s : string) : list string := split_colon_from "" s.

(** Modelled from the spec: the grammar of resource-backed event names of
    section 4.4, [resource:{id}:{action}] (collection level) and
    [resource:{id}:{action}:{subId}] (item level); the events module that
    parses it is not part of the sources. *)
Definition parse_resource (eventName : string) : option ResKey :=
  match split_colon eventName with
  | [tag; id; _] => if String.eqb tag "resource" then Some (id, None) else None
  | [tag; id; _; subId] =>
      if String.eqb tag "resource" then Some (id, Some subId) else None
  | _ => None
  end.

Definition resource_name (id action : string) : string :=
  "resource:" +:+ id +:+ ":" +:+ action.

(** The states of section 4.4. *)
Inductive Phase : Type := Idle | Enabling | Live | Disabling.

Global Instance Phase_eq_dec : EqDecision Phase.
Proof. solve_decision. Defined.

(** Modelled from the spec: the [ResourceRefcount] record of section 3, with
    [pendingEnable] and [liveHandle] read off the phase. *)
Record ResourceRefcount : Type := mkRefcount {
  count : nat;
  phase : Phase
}.

Definition pendingEnable (r : ResourceRefcount) : bool :=
  bool_decide (phase r = Enabling).

Definition liveHandle (r : ResourceRefcount) : bool :=
  bool_decide (phase r = Live \/ phase r = Disabling).

(** What passes between the bus and the [ResourceBinding]. *)
Inductive BindingEvent : Type :=
| Call_enable (k : ResKey)
| Call_disable (k : ResKey)
| Enable_ok (k : ResKey)
| Enable_failed (k : ResKey)
| Disable_ok (k : ResKey).

Global Instance BindingEvent_eq_dec : EqDecision BindingEvent.
Proof. solve_decision. Defined.

(** Modelled from the spec: the bookkeeping of the event bus for
    resource-backed names (sections 3, 4.2 and 4.4): the listener handles of
    each event name in subscription order, one refcount per resource key, and
    the calls made to the binding.  The events module that [src/db.ts]
    registers with ([setDbModule]) is not part of the sources. *)
Record Bus : Type := mkBus {
  subscriptions : gmap string (list nat);
  refcounts : gmap ResKey ResourceRefcount;
  next_handle : nat;
  binding_log : list BindingEvent
}.

Definition init_bus : Bus := mkBus ∅ ∅ 0 [].

Definition refcount_of (k : ResKey) (b : Bus) : ResourceRefcount :=
  default (mkRefcount 0 Idle) (refcounts b !! k).

Definition handles_at (eventName : string) (b : Bus) : list nat :=
  default [] (subscriptions b !! eventName).

Definition put_refcount (k : ResKey) (r : ResourceRefcount) (b : Bus) : Bus :=
  mkBus (subscriptions b) (<[k := r]> (refcounts b)) (next_handle b) (binding_log b).

Definition tell (e : BindingEvent) (b : Bus) : Bus :=
  mkBus (subscriptions b) (refcounts b) (next_handle b) (binding_log b ++ [e]).

(** Modelled from the spec: a listener was added for the resource [k].  The
    count goes up; on the transition from 0 to 1 the resource enters Enabling
    and [enable] is called once, unless an [enable] is still pending. *)
Definition acquire (k : ResKey) (b : Bus) : Bus :=
  let r := refcount_of k b in
  if bool_decide (count r = 0%nat) then
    match phase r with
    | Enabling => put_refcount k (mkRefcount 1 Enabling) b
    | Live => put_refcount k (mkRefcount 1 Live) b
    | Idle | Disabling =>
        tell (Call_enable k) (put_refcount k (mkRefcount 1 Enabling) b)
    end
  else put_refcount k (mkRefcount (S (count r)) (phase r)) b.

(** Modelled from the spec: a listener was removed for the resource [k].
    When the count reaches 0 while Live, the resource enters Disabling and
    [disable] is called; while Enabling nothing is called: the pending enable
    is to be discarded when it resolves. *)
Definition release (k : ResKey) (b : Bus) : Bus :=
  let r := refcount_of k b in
  match count r with
  | O => b
  | S O =>
      match phase r with
      | Live => tell (Call_disable k) (put_refcount k (mkRefcount 0 Disabling) b)
      | ph => put_refcount k (mkRefcount 0 ph) b
      end
  | S n => put_refcount k (mkRefcount n (phase r)) b
  end.

(** Modelled from the spec: [on(eventName, listener) -> handle]. *)
Definition bus_on (eventName : string) (b : Bus) : nat * Bus :=
  let h := next_handle b in
  let b1 := mkBus (<[eventName := handles_at eventName b ++ [h]]> (subscriptions b))
                  (refcounts b) (S h) (binding_log b) in
  (h, match parse_resource eventName with
      | Some k => acquire k b1
      | None => b1
      end).

(** Modelled from the spec: [off(eventName, handle)]. *)
Definition bus_off (eventName : string) (h : nat) (b : Bus) : Bus :=
  if bool_decide (h ∈ handles_at eventName b) then
    let b1 := mkBus (<[eventName := List.filter (fun h' => negb (h' =? h)%nat)
                                      (handles_at eventName b)]> (subscriptions b))
                    (refcounts b) (next_handle b) (binding_log b) in
    match parse_resource eventName with
    | Some k => release k b1
    | None => b1
    end
  else b.

(** Modelled from the spec: the pending [enable] of [k] resolves.  With the
    count still at least 1 the resource is Live; with the count back at 0 the
    bus issues the matching [disable] at once instead. *)
Definition enable_resolved (k : ResKey) (b : Bus) : Bus :=
  let r := refcount_of k b in
  match phase r with
  | Enabling =>
      if bool_decide (count r = 0%nat)
      then tell (Call_disable k)
             (tell (Enable_ok k) (put_refcount k (mkRefcount 0 Disabling) b))
      else tell (Enable_ok k) (put_refcount k (mkRefcount (count r) Live) b)
  | _ => b
  end.

(** Modelled from the spec: the pending [enable] of [k] rejects; the resource
    is Idle again and the count is not rolled back. *)
Definition enable_rejected (k : ResKey) (b : Bus) : Bus :=
  let r := refcount_of k b in
  match phase r with
  | Enabling => tell (Enable_failed k) (put_refcount k (mkRefcount (count r) Idle) b)
  | _ => b
  end.

(** Modelled from the spec: the [disable] of [k] in flight resolves. *)
Definition disable_resolved (k : ResKey) (b : Bus) : Bus :=
  let r := refcount_of k b in
  match phase r with
  | Disabling => tell (Disable_ok k) (put_refcount k (mkRefcount (count r) Idle) b)
  | _ => b
  end.

(** What can happen, one after the other, on the single thread. *)
Inductive Step : Type :=
| Subscribe (eventName : string)
| Unsubscribe (eventName : string) (handle : nat)
| EnableResolves (k : ResKey)
| EnableRejects (k : ResKey)
| DisableResolves (k : ResKey).

Definition step (b : Bus) (s : Step) : Bus :=
  match s with
  | Subscribe eventName => (bus_on eventName b).2
  | Unsubscribe eventName h => bus_off eventName h b
  | EnableResolves k => enable_resolved k b
  | EnableRejects k => enable_rejected k b
  | DisableResolves k => disable_resolved k b
  end.

Definition run (steps : list Step) : Bus := foldl step init_bus steps.

(** The number of listeners registered for a resource, over all its event
    names. *)
Definition listeners_for (k : ResKey) (b : Bus) : nat :=
  map_fold (fun eventName hs n =>
              if decide (parse_resource eventName = Some k) then (length hs + n)%nat
              else n) 0%nat (subscriptions b).

(** Whether, at the end of a log, the last [enable] of [k] was confirmed and
    no [disable] was called since. *)
Fixpoint confirmed (k : ResKey) (seen : bool) (log : list BindingEvent) : bool :=
  match log with
  | [] => seen
  | e :: rest =>
      confirmed k
        (if decide (e = Enable_ok k) then true
         else if decide (e = Call_disable k) then false
         else seen) rest
  end.

(** Every [disable] of [k] in the log is called on a confirmed [enable]. *)
Fixpoint disable_guarded (k : ResKey) (seen : bool) (log : list BindingEvent) : bool :=
  match log with
  | [] => true
  | e :: rest =>
      if decide (e = Call_disable k) then seen && disable_guarded k false rest
      else disable_guarded k (if decide (e = Enable_ok k) then true else seen) rest
  end.

(** No [enable] of [k] is called while another is pending. *)
Fixpoint enable_exclusive (k : ResKey) (pending : bool) (log : list BindingEvent) : bool :=
  match log with
  | [] => true
  | e :: rest =>
      if decide (e = Call_enable k) then negb pending && enable_exclusive k true rest
      else enable_exclusive k
             (if decide (e = Enable_ok k) then false
              else if decide (e = Enable_failed k) then false
              else pending) rest
  end.

(** Whether, at the end of a log, an [enable] of [k] is pending. *)
Fixpoint awaiting (k : ResKey) (pending : bool) (log : list BindingEvent) : bool :=
  match log with
  | [] => pending
  | e :: rest =>
      awaiting k
        (if decide (e = Call_enable k) then true
         else if decide (e = Enable_ok k) then false
         else if decide (e = Enable_failed k) then false
         else pending) rest
  end.

(** What holds of every state the bus can reach: of the listener handles, of
    the counts, and of the phases against the log. *)
Definition subs_ok (b : Bus) : Prop :=
  forall eventName,
    NoDup (handles_at eventName b) /\
    forall h, h ∈ handles_at eventName b -> (h < next_handle b)%nat.

Definition counts_ok (b : Bus) : Prop :=
  forall k, count (refcount_of k b) = listeners_for k b.

Definition phases_ok (b : Bus) : Prop :=
  forall k,
    (phase (refcount_of k b) = Live ->
     (1 <= count (refcount_of k b))%nat /\ confirmed k false (binding_log b) = true) /\
    (phase (refcount_of k b) = Disabling -> count (refcount_of k b) = 0%nat) /\
    disable_guarded k false (binding_log b) = true /\
    enable_exclusive k false (binding_log b) = true /\
    awaiting k false (binding_log b) = bool_decide (phase (refcount_of k b) = Enabling).

Definition bus_inv (b : Bus) : Prop := subs_ok b /\ counts_ok b /\ phases_ok b.

Fixpoint no_colon (s : string) : bool :=
  match s with
  | EmptyString => true
  | String c rest => negb (Ascii.eqb c ":"%char) && no_colon rest
  end.


(** The scenarios of section 8. *)
Definition posts : ResKey := ("posts", None).

Definition three_subscribers : list Step :=
  [Subscribe "resource:posts:create"; Subscribe "resource:posts:create";
   Subscribe "resource:posts:update"; EnableResolves posts].

Definition subscribe_then_unsubscribe : list Step :=
  [Subscribe "resource:posts:create"; Unsubscribe "resource:posts:create" 0].

(** ** The realtime binding ([src/db.ts]) *)

(** The module state of [db.ts] that realtime uses, with PocketBase's side of
    it.  A subscription is named by a number, and its unsubscribe function by
    the same number. *)
Record Db : Type := mkDb {
  realtimeUnsubscribers : gmap string nat; (* collection to unsubscribe function *)
  suspended : list (string * nat);         (* calls of enableRealtime at their await *)
  served : gmap nat string;                (* PocketBase: the subscriptions it serves *)
  next_subscription : nat
}.

Definition init_db : Db := mkDb ∅ [] ∅ 0.

(** [enableRealtime(collection)], up to its [await]: it returns at once when
    the collection has an unsubscribe function, and otherwise asks PocketBase
    for a subscription and waits. *)
Definition enableRealtime (collection : string) (db : Db) : Db :=
  if bool_decide (is_Some (realtimeUnsubscribers db !! collection)) then db
  else mkDb (realtimeUnsubscribers db)
            (suspended db ++ [(collection, next_subscription db)])
            (served db) (S (next_subscription db)).

(** [enableRealtime(collection)], after its [await]:
    [realtimeUnsubscribers.set(collection, unsubscribe)]. *)
Definition enableRealtime_resume (collection : string) (unsubscribe : nat) (db : Db) : Db :=
  mkDb (<[collection := unsubscribe]> (realtimeUnsubscribers db))
       (suspended db) (served db) (next_subscription db).

(** The oldest call suspended on a collection, and the others. *)
Fixpoint take_suspended (collection : string) (l : list (string * nat))
  : option (nat * list (string * nat)) :=
  match l with
  | [] => None
  | (c, s) :: rest =>
      if decide (c = collection) then Some (s, rest)
      else match take_suspended collection rest with
           | Some (s', rest') => Some (s', (c, s) :: rest')
           | None => None
           end
  end.

(** PocketBase resolves the [subscribe] a call is waiting for: it serves the
    subscription from now on, and the call goes on. *)
Definition subscribe_resolves (collection : string) (db : Db) : Db :=
  match take_suspended collection (suspended db) with
  | Some (s, rest) =>
      enableRealtime_resume collection s
        (mkDb (realtimeUnsubscribers db) rest (<[s := collection]> (served db))
              (next_subscription db))
  | None => db
  end.

(** PocketBase rejects it: the call throws at its [await]. *)
Definition subscribe_rejects (collection : string) (db : Db) : Db :=
  match take_suspended collection (suspended db) with
  | Some (_, rest) =>
      mkDb (realtimeUnsubscribers db) rest (served db) (next_subscription db)
  | None => db
  end.

(** [disableRealtime(collection)] *)
Definition disableRealtime (collection : string) (db : Db) : Db :=
  match realtimeUnsubscribers db !! collection with
  | Some unsubscribe =>
      (* unsubscribe(); realtimeUnsubscribers.delete(collection); *)
      mkDb (delete collection (realtimeUnsubscribers db)) (suspended db)
           (delete unsubscribe (served db)) (next_subscription db)
  | None => db
  end.

(** The bus at work on [db.ts]: what each call and each resolution in the log
    does to the binding, for the collection-level keys ([enableRealtimeRecord]
    and [disableRealtimeRecord], the same code over another map, are left
    out). *)
Definition deliver (db : Db) (e : BindingEvent) : Db :=
  match e with
  | Call_enable (c, None) => enableRealtime c db
  | Enable_ok (c, None) => subscribe_resolves c db
  | Enable_failed (c, None) => subscribe_rejects c db
  | Call_disable (c, None) => disableRealtime c db
  | _ => db
  end.

Definition replay (log : list BindingEvent) : Db := foldl deliver init_db log.





(** ** [state.list] *)

(** [rawKey.slice(n)] *)
Fixpoint slice (n : nat) (s : string) : string :=
  match n, s with
  | S n', String _ rest => slice n' rest
  | _, _ => s
  end.

(** The first loop of [state.list], over the entries of the memory store.  The
    store is kept as a finite map, which forgets the order of insertion that
    a [Map] iterates in: the order of the memory entries in the result is not
    the code's, and no statement speaks of it.  An entry [{ key, storage }] of
    the result is a pair, with ['memory'] written [Ephemeral]. *)
Fixpoint list_memory (entries : list (string * StoredValue)) (result : list (string * Tier))
  : M (list (string * Tier)) :=
  match entries with
  | [] => ret result
  | (key, stored) :: rest =>
      let* expired := isExpired stored in
      list_memory rest (if expired then result else result ++ [(key, Ephemeral)])
  end.

(** The inner loop of [state.list], over [storage.key(i)] for
    [i < storage.length]; nothing in the loop writes to the storage. *)
Fixpoint list_scan (persist : Persist) (n i : nat) (result : list (string * Tier))
  : M (list (string * Tier)) :=
  match n with
  | O => ret result
  | S n' =>
      let* rawKey := Storage_key persist i in
      let* result' :=
        match rawKey with
        | Some rawKey =>
            if String.prefix STORAGE_PREFIX rawKey then
              let key := slice (String.length STORAGE_PREFIX) rawKey in
              let* stored := getFromStorage key persist in
              match stored with
              | Some stored =>
                  let* expired := isExpired stored in
                  ret (if expired then result else result ++ [(key, Persistent persist)])
              | None => ret result
              end
            else ret result
        | None => ret result
        end in
      list_scan persist n' (S i) result'
  end.

Fixpoint list_persistent (tiers : list Persist) (result : list (string * Tier))
  : M (list (string * Tier)) :=
  match tiers with
  | [] => ret result
  | persist :: rest =>
      let* storage := getStorage (Some persist) in
      match storage with
      | None => list_persistent rest result
      | Some storage =>
          let* len := Storage_length storage in
          let* result' := list_scan storage len 0 result in
          list_persistent rest result'
      end
  end.

(** [state.list()] *)
Definition state_list : M (list (string * Tier)) :=
  let* entries := gets (fun w => map_to_list (memoryStore w)) in
  let* result := list_memory entries [] in
  list_persistent [session; local] result.

(** A tier holds an entry for the key that has not expired. *)
Definition live_in (t : Tier) (key : string) (w : World) : Prop :=
  exists sv, entry_in t key w = Some sv /\ expired_at (now w) sv = false.

(** What [state.list] makes of one entry of the memory store, and of one
    record of a storage. *)
Definition listed_entry (t : Z) (kv : string * StoredValue) : option (string * Tier) :=
  if expired_at t kv.2 then None else Some (kv.1, Ephemeral).

Definition listed_record (p : Persist) (t : Z) (kv : string * Raw) : option (string * Tier) :=
  if String.prefix STORAGE_PREFIX kv.1 then
    match decode (Some kv.2) with
    | Some sv =>
        if expired_at t sv then None
        else Some (slice (String.length STORAGE_PREFIX) kv.1, Persistent p)
    | None => None
    end
  else None.

Definition listed_in (p : Persist) (w : World) : list (string * Tier) :=
  match window w with
  | Some win => omap (listed_record p (now w)) (map_to_list (items (storage_of p win)))
  | None => []
  end.

Definition listed (w : World) : list (string * Tier) :=
  omap (listed_entry (now w)) (map_to_list (memoryStore w))
  ++ listed_in session w ++ listed_in local w.

(** ** Reading back *)

Global Instance Tier_eq_dec : EqDecision Tier.
Proof. solve_decision. Defined.

(** What a tier keeps of a value: the memory store keeps the value itself, a
    storage keeps what [JSON.stringify] and [JSON.parse] make of it. *)
Definition stored_as (t : Tier) (v : JsValue) : JsValue :=
  match t with
  | Ephemeral => v
  | Persistent _ => jsonify v
  end.

(** An integer that a double holds exactly: [Date.now() + ttl] on such
    numbers, with such a sum, is the sum of the integers. *)
Definition safe_integer (z : Z) : Prop := - 2 ^ 53 < z < 2 ^ 53.

(** The other storage. *)
Definition other (p : Persist) : Persist :=
  match p with session => local | local => session end.

(** The session storage is full, with records that are not the store's. *)
Definition full_session : World :=
  mkWorld 1000
    (Some (mkWindow (mkStorage {[ "theme" := Malformed "dark" ]} 1) (mkStorage ∅ 8)))
    {[ "k" := mkStored (JNum 1) None ]} ∅ [] 0 [] [].

(** The memory entry of [k] expired at 500; no storage holds a copy. *)
Definition expired_only : World :=
  mkWorld 1000 (Some (mkWindow (mkStorage ∅ 8) (mkStorage ∅ 8)))
    {[ "k" := mkStored (JNum 1) (Some 500) ]} ∅ [] 0 [] [].

(** ** Listeners that subscribe and unsubscribe while [emit] runs *)

(** The callback that [emit] hands to [forEach]. *)
Definition guarded_call (body : nat -> JsValue -> M unit) (eventName : string)
    (payload : JsValue) : Handler -> M unit :=
  fun handler =>
    try_catch (call body handler payload)
              (fun e => console_error ("Error in event handler for " +:+ eventName) e).

(** The world once the fan-out has gone over the entries [seg], which follow
    [pre] and come before [rest] in the set at [addr]. *)
Definition after_segment (verdict : nat -> JsValue -> option JsError) (eventName : string)
    (payload : JsValue) (addr : nat) (pre seg rest : JsSet) (w : World) : World :=
  set_heap (<[addr := pre ++ (fired <$> seg) ++ rest]> (heap w))
    (set_trace (trace w ++ calls_of payload (Set_values seg))
       (set_console (console w ++ reports_of verdict eventName payload (Set_values seg)) w)).

(** A listener is passive on a payload: it returns or throws as [verdict]
    says, and does nothing else. *)
Definition passive (body : nat -> JsValue -> M unit)
    (verdict : nat -> JsValue -> option JsError) (payload : JsValue) (h : Handler) : Prop :=
  body (handler_id h) payload = listener verdict (handler_id h) payload.

(** Listener 1 unsubscribes listener 2 from [evt]; listener 3 subscribes
    listener 4 to it; the others return. *)
Definition meddling : nat -> JsValue -> M unit :=
  fun id _ =>
    match id with
    | 1%nat => off "evt" (User 2)
    | 3%nat => on "evt" (User 4)
    | _ => ret tt
    end.

Definition quiet_verdict : nat -> JsValue -> option JsError := fun _ _ => None.

(** Listeners 9, 1, 2 and 5 are subscribed to [evt], in that order. *)
Definition four_listeners : World :=
  mkWorld 1000 None ∅ {[ "evt" := 0%nat ]}
    [[Some (User 9); Some (User 1); Some (User 2); Some (User 5)]] 0 [] [].

(** Listeners 9, 3 and 5 are subscribed to [evt], in that order. *)
Definition growing_listeners : World :=
  mkWorld 1000 None ∅ {[ "evt" := 0%nat ]}
    [[Some (User 9); Some (User 3); Some (User 5)]] 0 [] [].

(** The record a storage keeps under a raw key, the store's or not; none when
    the host has no storage. *)
Definition raw_in (p : Persist) (rawKey : string) (w : World) : option Raw :=
  match window w with
  | Some win => items (storage_of p win) !! rawKey
  | None => None
  end.

(** ** Keeping the authentication in the store ([src/db.ts]) *)

(** What [db.ts] reads of [pb.authStore]. *)
Record AuthStore : Type := mkAuthStore {
  isValid : bool;
  token : string;
  record : JsValue          (* the user record, or null *)
}.

(** Whether a value is truthy. *)
Definition truthy (v : JsValue) : bool :=
  match v with
  | JUndefined | JNull => false
  | JBool b => b
  | JNum n => negb (Z.eqb n 0)
  | JStr s => negb (String.eqb s "")
  | JArr _ | JObj _ => true
  end.

Definition AUTH_TOKEN : string := "_auth:token".
Definition AUTH_USER : string := "_auth:user".

Definition persist_local : StateOptions := mkOptions (Some local) None.

Section Auth.

Variable body : nat -> JsValue -> M unit.

(** [saveAuthState()]; [pb] is [None] when it is [null]. *)
Definition saveAuthState (fuel : nat) (pb : option AuthStore) : M unit :=
  match pb with
  | None => ret tt
  | Some pb =>
      if isValid pb then
        let user := record pb in
        set body fuel AUTH_TOKEN (JStr (token pb)) persist_local ;;
        set body fuel AUTH_USER user persist_local
      else
        remove body fuel AUTH_TOKEN ;;
        remove body fuel AUTH_USER
  end.

(** [restoreAuthState()]; what it returns here is what it passes to
    [pb.authStore.save], when it calls it. *)
Definition restoreAuthState (fuel : nat) (pb : option AuthStore)
  : M (option (JsValue * JsValue)) :=
  match pb with
  | None => ret None
  | Some _ =>
      let* token := get body fuel AUTH_TOKEN in
      let* user := get body fuel AUTH_USER in
      if truthy token && truthy user then ret (Some (token, user)) else ret None
  end.

End Auth.

(** The storage of a tier has room for two more records. *)
Definition has_room_for_two (p : Persist) (w : World) : Prop :=
  forall win, window w = Some win ->
              (S (size (items (storage_of p win))) < quota (storage_of p win))%nat.

(** A user signed in. *)
Definition signed_in : AuthStore :=
  mkAuthStore true "t0k3n" (JObj [("id", JStr "u1"); ("avatar", JUndefined)]).

(** ** More runs of the lifecycle bus *)

(** Of three listeners on two actions of [posts], the first two are removed
    once the resource is Live. *)
Definition last_subscriber : list Step :=
  three_subscribers
  ++ [Unsubscribe "resource:posts:create" 0; Unsubscribe "resource:posts:create" 1].

(** The [enable] that the one listener of [posts] triggered fails. *)
Definition failed_enable : list Step :=
  [Subscribe "resource:posts:create"; EnableRejects posts].

(** ** Hosts that withhold a storage

    [getStorage] above is the function on a host where, once [window] is
    defined, both storage objects are there.  A host may also switch a
    storage off or deny it to the page; this section has the store on such
    hosts. *)

(** What the host gives when the code evaluates [sessionStorage] or
    [localStorage] with [window] defined: the storage object; [null], where
    the storage is switched off; or an exception out of the getter, such as
    the [SecurityError] of a page that is denied the storage. *)
Inductive Access : Type :=
| Granted
| Withheld
| Denied (e : JsError).


Section Hosted.

Variable host : Persist -> Access.
Variable body : nat -> JsValue -> M unit.

(** [getStorage(persist)]: nothing in it catches what the getter throws. *)
Definition getStorage_on (persist : option Persist) : M (option Persist) :=
  let* win := gets window in
  match win with
  | None => ret None
  | Some _ =>
      match persist with
      | Some p =>
          match host p with
          | Granted => ret (Some p)
          | Withheld => ret None
          | Denied e => throw e
          end
      | None => ret None
      end
  end.

(** The loop of [state.get] over the persistent stores. *)
Fixpoint get_persistent_on (key : string) (tiers : list Persist) : M JsValue :=
  match tiers with
  | [] => ret JUndefined
  | persist :: rest =>
      let* storage := getStorage_on (Some persist) in
      match storage with
      | None => get_persistent_on key rest
      | Some storage =>
          let* stored := getFromStorage key storage in
          match stored with
          | Some stored =>
              let* expired := isExpired stored in
              if expired then
                removeFromStorage key storage ;;
                get_persistent_on key rest
              else ret (value stored)
          | None => get_persistent_on key rest
          end
      end
  end.

(** The loop of [state.remove] over the persistent stores. *)
Fixpoint remove_persistent_on (key : string) (tiers : list Persist) : M unit :=
  match tiers with
  | [] => ret tt
  | persist :: rest =>
      let* storage := getStorage_on (Some persist) in
      match storage with
      | Some storage => removeFromStorage key storage ;; remove_persistent_on key rest
      | None => remove_persistent_on key rest
      end
  end.

Definition remove_with_on (get : string -> M JsValue) (emit : string -> JsValue -> M unit)
    (key : string) : M unit :=
  let* oldValue := get key in
  if is_undefined oldValue then ret tt
  else
    memoryStore_delete key ;;
    remove_persistent_on key [session; local] ;;
    emit ("state:" +:+ key) (JObj [("value", JUndefined); ("oldValue", oldValue)]).

(** [state.get(key)] *)
Fixpoint get_on (fuel : nat) (key : string) : M JsValue :=
  match fuel with
  | O => throw RangeError
  | S fuel' =>
      let* mem := memoryStore_get key in
      match mem with
      | Some mem =>
          let* expired := isExpired mem in
          if expired then
            remove_with_on (get_on fuel') (emit body fuel') key ;;
            ret JUndefined
          else ret (value mem)
      | None => get_persistent_on key [session; local]
      end
  end.

(** [state.remove(key)] *)
Definition remove_on (fuel : nat) (key : string) : M unit :=
  remove_with_on (get_on fuel) (emit body fuel) key.

(** [state.set(key, value, options)] *)
Definition set_on (fuel : nat) (key : string) (v : JsValue) (options : StateOptions)
  : M unit :=
  let* oldValue := get_on fuel key in
  let* exp :=
    match ttl options with
    | Some t => if bool_decide (t = 0) then ret None
                else let* n := Date_now in ret (Some (n + t))
    | None => ret None
    end in
  let stored := mkStored v exp in
  let* storage := getStorage_on (persist options) in
  match storage with
  | Some storage =>
      saveToStorage key stored storage ;;
      memoryStore_delete key
  | None => memoryStore_set key stored
  end ;;
  emit body fuel ("state:" +:+ key) (JObj [("value", v); ("oldValue", oldValue)]).

(** [state.has(key)] *)
Definition has_on (fuel : nat) (key : string) : M bool :=
  let* v := get_on fuel key in ret (negb (is_undefined v)).

Fixpoint list_persistent_on (tiers : list Persist) (result : list (string * Tier))
  : M (list (string * Tier)) :=
  match tiers with
  | [] => ret result
  | persist :: rest =>
      let* storage := getStorage_on (Some persist) in
      match storage with
      | None => list_persistent_on rest result
      | Some storage =>
          let* len := Storage_length storage in
          let* result' := list_scan storage len 0 result in
          list_persistent_on rest result'
      end
  end.

(** [state.list()] *)
Definition state_list_on : M (list (string * Tier)) :=
  let* entries := gets (fun w => map_to_list (memoryStore w)) in
  let* result := list_memory entries [] in
  list_persistent_on [session; local] result.

Fixpoint clear_persistent_on (tiers : list Persist) : M unit :=
  match tiers with
  | [] => ret tt
  | persist :: rest =>
      let* storage := getStorage_on (Some persist) in
      match storage with
      | None => clear_persistent_on rest
      | Some storage =>
          let* len := Storage_length storage in
          let* keysToRemove := clear_scan storage len 0 [] in
          remove_keys storage keysToRemove ;;
          clear_persistent_on rest
      end
  end.

(** [state.clear()] *)
Definition clear_on : M unit :=
  modify (set_memoryStore ∅) ;;
  clear_persistent_on [session; local].

End Hosted.

(** The host of the store as defined first: both storages are there. *)
Definition granted : Persist -> Access := fun _ => Granted.






(** * Proofs *)

(** ** Worlds and the monad *)

Lemma World_eq (w w' : World) :
  now w = now w' -> window w = window w' -> memoryStore w = memoryStore w' ->
  handlers w = handlers w' -> heap w = heap w' -> next_closure w = next_closure w' ->
  console w = console w' -> trace w = trace w' -> w = w'.
Proof. destruct w, w'; simpl; intros; subst; reflexivity. Qed.

Ltac world_eq := apply World_eq; simpl; try reflexivity.

(** ** JavaScript sets *)

Lemma Set_values_app (s t : JsSet) : Set_values (s ++ t) = Set_values s ++ Set_values t.
Proof. apply omap_app. Qed.

Lemma elem_of_Set_values (h : Handler) (s : JsSet) : h ∈ Set_values s <-> Some h ∈ s.
Proof.
  unfold Set_values. rewrite list_elem_of_omap. split.
  - intros (e & He & Hid). unfold id in Hid. by subst.
  - intros He. by exists (Some h).
Qed.

Lemma Set_delete_absent (h : Handler) (s : JsSet) : Some h ∉ s -> Set_delete h s = s.
Proof.
  unfold Set_delete. induction s as [|e s IH]; intros Hn; [done|].
  rewrite not_elem_of_cons in Hn. destruct Hn as [Hne Hn].
  rewrite fmap_cons, IH by done. destruct (decide (e = Some h)); congruence.
Qed.

Lemma Set_delete_middle (h : Handler) (pre post : JsSet) :
  NoDup (Set_values (pre ++ Some h :: post)) ->
  Set_delete h (pre ++ Some h :: post) = pre ++ None :: post.
Proof.
  rewrite Set_values_app. simpl. intros Hnd.
  apply NoDup_app in Hnd as (_ & Hpre & Hpost).
  apply NoDup_cons in Hpost as [Hpost _].
  assert (Some h ∉ pre) as Hp.
  { intros Hin. apply (Hpre h); [by apply elem_of_Set_values | left]. }
  assert (Some h ∉ post) as Hq by (by rewrite <- elem_of_Set_values).
  unfold Set_delete. rewrite fmap_app, fmap_cons.
  fold (Set_delete h pre). fold (Set_delete h post).
  rewrite !Set_delete_absent by done.
  by destruct (decide (Some h = Some h)).
Qed.

Lemma list_insert_alter {A} (f : A -> A) (l : list A) (i : nat) (x : A) :
  <[i := x]> (alter f i l) = <[i := x]> l.
Proof.
  apply list_eq. intros j. destruct (decide (i = j)) as [->|Hne].
  - destruct (decide (j < length l)%nat) as [Hlt|Hge].
    + rewrite !list_lookup_insert_eq; [done..| by rewrite length_alter].
    + rewrite !list_insert_ge; [|lia| rewrite length_alter; lia].
      rewrite list_lookup_alter_eq. rewrite lookup_ge_None_2 by lia. done.
  - rewrite !list_lookup_insert_ne by done. by rewrite list_lookup_alter_ne.
Qed.

(** ** The fan-out of [emit] *)

Section Fanout.

Variable verdict : nat -> JsValue -> option JsError.
Variable eventName : string.
Variable payload : JsValue.

Local Abbreviation guarded :=
  (fun handler : Handler =>
     try_catch (call (listener verdict) handler payload)
       (fun e => console_error ("Error in event handler for " +:+ eventName) e)).

Lemma set_ok_frame (w w' : World) (addr : nat) (es : JsSet) :
  heap w' = heap w -> handlers w' = handlers w -> set_ok w addr es -> set_ok w' addr es.
Proof. unfold set_ok. intros -> ->. done. Qed.

Lemma forEach_fanout (addr : nat) (post : JsSet) :
  forall (fuel : nat) (pre : JsSet) (w : World),
    set_ok w addr (pre ++ post) ->
    (length post < fuel)%nat ->
    Set_forEach fuel addr (length pre) guarded w
    = Ret tt (after_fanout verdict eventName payload addr pre post w).
Proof.
  induction post as [|e post IH]; intros fuel pre w Hok Hfuel.
  - destruct fuel as [|fuel]; [simpl in Hfuel; lia|].
    destruct Hok as (Hheap & _ & _). rewrite app_nil_r in Hheap.
    simpl. unfold bind, gets. rewrite Hheap. simpl.
    rewrite lookup_ge_None_2 by lia. unfold ret. f_equal.
    unfold after_fanout. world_eq; rewrite ?app_nil_r; try done.
    symmetry. by apply list_insert_id.
  - destruct fuel as [|fuel]; [simpl in Hfuel; lia|]. simpl in Hfuel.
    pose proof Hok as (Hheap & Hnd & Hwrap).
    simpl. unfold bind at 1, gets at 1. rewrite Hheap. simpl.
    rewrite list_lookup_middle by done.
    assert (Hpre : forall x : option Handler,
               length (pre ++ [x]) = S (length pre)).
    { intros x. rewrite length_app. simpl. lia. }
    destruct e as [[id|uid n id]|].
    + (* an application listener *)
      unfold bind at 1. unfold try_catch, call, bind, observe, modify, listener.
      destruct (verdict id payload) as [err|] eqn:Hv; simpl.
      * rewrite <- (Hpre (Some (User id))).
        rewrite IH; [| |lia].
        -- f_equal. unfold after_fanout, calls_of, reports_of. simpl. rewrite Hv. simpl.
           world_eq; rewrite <- ?app_assoc; done.
        -- rewrite <- app_assoc. simpl. eapply set_ok_frame; [..|exact Hok]; done.
      * unfold ret. rewrite <- (Hpre (Some (User id))).
        rewrite IH; [| |lia].
        -- f_equal. unfold after_fanout, calls_of, reports_of. simpl. rewrite Hv. simpl.
           world_eq; rewrite <- ?app_assoc; done.
        -- rewrite <- app_assoc. simpl. eapply set_ok_frame; [..|exact Hok]; done.
    + (* a once-wrapper: it removes itself, then calls the listener *)
      assert (handlers w !! n = Some addr) as Hn.
      { apply (Hwrap uid n id). apply elem_of_app. right. left. }
      unfold bind at 1. unfold try_catch, call, off.
      unfold bind at 1. unfold bind at 1. unfold gets at 1. rewrite Hn.
      unfold modify at 1. unfold bind, observe, modify, listener.
      set (w1 := set_heap (alter (Set_delete (OnceWrapper uid n id)) addr (heap w)) w).
      assert (set_ok w1 addr ((pre ++ [None]) ++ post)) as Hok1.
      { split; [|split].
        - simpl. rewrite list_lookup_alter_eq, Hheap. simpl.
          rewrite Set_delete_middle by done. by rewrite <- app_assoc.
        - rewrite <- app_assoc. simpl.
          rewrite Set_values_app in Hnd |- *. simpl in Hnd |- *.
          apply NoDup_app in Hnd as (H1 & H2 & H3). apply NoDup_app.
          apply NoDup_cons in H3 as [H3 H4].
          split; [done|]. split; [|done].
          intros x Hx Hx'. apply (H2 x Hx). by right.
        - intros uid' n' id' Hin. simpl. apply (Hwrap uid' n' id').
          rewrite <- app_assoc in Hin. simpl in Hin.
          apply elem_of_app in Hin as [Hin|Hin]; [apply elem_of_app; by left|].
          apply elem_of_cons in Hin as [Hin|Hin]; [done|].
          apply elem_of_app. right. by right. }
      destruct (verdict id payload) as [err|] eqn:Hv; simpl.
      * rewrite <- (Hpre None).
        rewrite IH; [| |lia].
        -- f_equal. unfold after_fanout, calls_of, reports_of. simpl. rewrite Hv. simpl.
           world_eq; rewrite <- ?app_assoc; try done.
           simpl. apply list_insert_alter.
        -- eapply set_ok_frame; [..|exact Hok1]; done.
      * unfold ret. rewrite <- (Hpre None).
        rewrite IH; [| |lia].
        -- f_equal. unfold after_fanout, calls_of, reports_of. simpl. rewrite Hv. simpl.
           world_eq; rewrite <- ?app_assoc; try done.
           simpl. apply list_insert_alter.
        -- eapply set_ok_frame; [..|exact Hok1]; done.
    + (* an empty slot *)
      rewrite <- (Hpre None).
      rewrite IH; [| |lia].
      * f_equal. unfold after_fanout. simpl. by rewrite <- app_assoc.
      * by rewrite <- app_assoc.
Qed.

End Fanout.

(** ** [events.emit] *)

Lemma forEach_no_throw (fuel addr : nat) (callback : Handler -> M unit) :
  (forall h w e w', callback h w <> Exn e w') ->
  forall index w e w', Set_forEach fuel addr index callback w <> Exn e w'.
Proof.
  intros Hcb. induction fuel as [|fuel IH]; intros index w e w'; [done|].
  simpl. unfold bind at 1, gets at 1.
  destruct (default [] (heap w !! addr) !! index) as [[h|]|]; [| apply IH | done].
  unfold bind. destruct (callback h w) as [[] w1|e1 w1|] eqn:Hc; [apply IH| |done].
  by apply Hcb in Hc.
Qed.

Lemma emit_no_throw (body : nat -> JsValue -> M unit) (fuel : nat) (eventName : string)
    (payload : JsValue) (w : World) (e : JsError) (w' : World) :
  emit body fuel eventName payload w <> Exn e w'.
Proof.
  unfold emit, bind, observe, modify, gets.
  destruct (handlers _ !! eventName) as [addr|]; [|done].
  apply forEach_no_throw. clear. intros h w e w'.
  unfold try_catch. destruct (call body h payload w); done.
Qed.

Lemma emit_spec (verdict : nat -> JsValue -> option JsError) (fuel : nat)
    (eventName : string) (payload : JsValue) (w : World) :
  bus_ok w eventName ->
  (length (listeners_at w eventName) < fuel)%nat ->
  emit (listener verdict) fuel eventName payload w
  = Ret tt (emitted_world verdict eventName payload w).
Proof.
  intros Hok Hfuel. unfold emit, emitted_world, bind, observe, modify, gets. simpl.
  destruct (handlers w !! eventName) as [addr|] eqn:Hh; [|done].
  apply (forEach_fanout verdict eventName payload addr _ fuel []); [|done].
  simpl. eapply set_ok_frame; [..|by apply Hok]; done.
Qed.

Lemma emitted_world_trace verdict eventName payload w :
  bus_ok w eventName ->
  trace (emitted_world verdict eventName payload w)
  = trace w ++ Emitted eventName payload :: calls_of payload (registered w eventName).
Proof.
  intros Hok. unfold emitted_world, registered, listeners_at.
  destruct (handlers w !! eventName) as [addr|] eqn:Hh; simpl; [|done].
  by rewrite <- app_assoc.
Qed.

Lemma emitted_world_console verdict eventName payload w :
  console (emitted_world verdict eventName payload w)
  = console w ++ reports_of verdict eventName payload (registered w eventName).
Proof.
  unfold emitted_world, registered, listeners_at.
  destruct (handlers w !! eventName) as [addr|] eqn:Hh; simpl; [done|].
  by rewrite app_nil_r.
Qed.

Lemma emitted_world_store verdict eventName payload w :
  now (emitted_world verdict eventName payload w) = now w /\
  window (emitted_world verdict eventName payload w) = window w /\
  memoryStore (emitted_world verdict eventName payload w) = memoryStore w /\
  handlers (emitted_world verdict eventName payload w) = handlers w.
Proof.
  unfold emitted_world. by destruct (handlers w !! eventName).
Qed.

(** ** [events.on] *)

Lemma Set_values_add (h : Handler) (s : JsSet) :
  Set_values (Set_add h s)
  = if decide (h ∈ Set_values s) then Set_values s else Set_values s ++ [h].
Proof.
  unfold Set_add. destruct (decide (Some h ∈ s)) as [Hin|Hin].
  - rewrite decide_True; [done | by apply elem_of_Set_values].
  - rewrite decide_False; [|by rewrite elem_of_Set_values].
    by rewrite Set_values_app.
Qed.

Lemma NoDup_Set_add (h : Handler) (s : JsSet) :
  NoDup (Set_values s) -> NoDup (Set_values (Set_add h s)).
Proof.
  intros Hnd. rewrite Set_values_add. destruct (decide (h ∈ Set_values s)); [done|].
  apply NoDup_app. split; [done|]. split; [|apply NoDup_singleton].
  intros x Hx Hx'. apply list_elem_of_singleton in Hx'. by subst.
Qed.

Lemma elem_of_Set_add (e : option Handler) (h : Handler) (s : JsSet) :
  e ∈ Set_add h s -> e ∈ s \/ e = Some h.
Proof.
  unfold Set_add. destruct (decide (Some h ∈ s)); [by left|].
  rewrite elem_of_app, list_elem_of_singleton. tauto.
Qed.

Lemma on_spec (eventName : string) (h : Handler) (w : World) :
  bus_ok w eventName -> made_for eventName h ->
  exists w1,
    on eventName h w = Ret tt w1 /\
    bus_ok w1 eventName /\
    listeners_at w1 eventName = Set_add h (listeners_at w eventName) /\
    now w1 = now w /\ window w1 = window w /\ memoryStore w1 = memoryStore w /\
    next_closure w1 = next_closure w /\ console w1 = console w /\ trace w1 = trace w.
Proof.
  intros Hok Hmade. unfold on, bind, gets, modify. unfold listeners_at at 2.
  destruct (handlers w !! eventName) as [addr|] eqn:Hh.
  - rewrite bool_decide_eq_true_2 by done. unfold ret. rewrite Hh.
    destruct (Hok addr Hh) as (Hheap & Hnd & Hwrap).
    unfold listeners_at in Hheap, Hnd, Hwrap. rewrite Hh in Hheap, Hnd, Hwrap.
    eexists. split; [reflexivity|].
    assert (listeners_at (set_heap (alter (Set_add h) addr (heap w)) w) eventName
            = Set_add h (default [] (heap w !! addr))) as Hl.
    { unfold listeners_at. simpl. rewrite Hh, list_lookup_alter_eq.
      by destruct (heap w !! addr). }
    split; [|by rewrite Hl].
    intros addr' Hh'. simpl in Hh'. rewrite Hh in Hh'. injection Hh' as <-.
    rewrite Hl. split; [|split].
    + simpl. rewrite list_lookup_alter_eq, Hheap. simpl. by rewrite Hheap.
    + by apply NoDup_Set_add.
    + intros uid n id Hin. simpl. apply elem_of_Set_add in Hin as [Hin|Hin].
      * by apply (Hwrap uid n id).
      * injection Hin as <-. simpl in Hmade. by subst.
  - rewrite bool_decide_eq_false_2 by (intros [? ?]; done). simpl.
    rewrite lookup_insert_eq.
    assert (alter (Set_add h) (length (heap w)) (heap w ++ [[]]) = heap w ++ [[Some h]])
      as Halter.
    { apply list_eq. intros j. destruct (decide (j = length (heap w))) as [->|Hne].
      - rewrite list_lookup_alter_eq. by rewrite !list_lookup_middle.
      - rewrite list_lookup_alter_ne by done.
        destruct (decide (j < length (heap w))%nat).
        + by rewrite !lookup_app_l.
        + rewrite !lookup_ge_None_2; [done|rewrite length_app; simpl; lia..]. }
    cbn [heap set_handlers set_heap]. rewrite Halter. eexists. split; [reflexivity|].
    assert (listeners_at
              (set_heap (heap w ++ [[Some h]])
                 (set_handlers (<[eventName:=length (heap w)]> (handlers w))
                    (set_heap (heap w ++ [[]]) w))) eventName = [Some h]) as Hl.
    { unfold listeners_at. simpl. rewrite lookup_insert_eq.
      by rewrite list_lookup_middle. }
    split; [|by rewrite Hl].
    intros addr' Hh'. simpl in Hh'. rewrite lookup_insert_eq in Hh'. injection Hh' as <-.
    rewrite Hl. split; [|split].
    + simpl. by rewrite list_lookup_middle.
    + simpl. apply NoDup_singleton.
    + intros uid n id Hin. apply list_elem_of_singleton in Hin. injection Hin as <-.
      simpl in Hmade. subst. simpl. apply lookup_insert_eq.
Qed.

Lemma on_registered (eventName : string) (h : Handler) (w w1 : World) :
  bus_ok w eventName -> made_for eventName h ->
  on eventName h w = Ret tt w1 ->
  registered w1 eventName
  = if decide (h ∈ registered w eventName) then registered w eventName
    else registered w eventName ++ [h].
Proof.
  intros Hok Hmade Hon.
  destruct (on_spec eventName h w Hok Hmade) as (w1' & Hon' & _ & Hl & _).
  rewrite Hon in Hon'. injection Hon' as <-.
  unfold registered. rewrite Hl. apply Set_values_add.
Qed.

Ltac elem_of_concrete H :=
  repeat (apply elem_of_cons in H as [H|H]; [try discriminate H|]);
  try (by apply elem_of_nil in H).

Ltac bus_ok_concrete :=
  let addr := fresh "addr" in
  let H := fresh "H" in
  intros addr H; vm_compute in H; try discriminate H;
  injection H as <-;
  split; [reflexivity | split;
    [ apply (bool_decide_unpack _); vm_compute; reflexivity
    | let uid := fresh in let n := fresh in let id := fresh in let Hin := fresh in
      intros uid n id Hin; vm_compute in Hin; elem_of_concrete Hin;
      try (injection Hin as <- <- <-); try reflexivity ] ].

(** C7. [emit(eventName, payload)] calls every listener registered under
    exactly that name, in subscription order ([on] appends a new listener
    after the ones already there); a listener that throws is reported on the
    console and the ones after it are still called; and whatever the
    listeners do, no exception leaves [emit]. *)
Theorem emit_fans_out_in_subscription_order
    (verdict : nat -> JsValue -> option JsError) (body : nat -> JsValue -> M unit)
    (fuel : nat) (eventName : string) (payload : JsValue) (w : World) :
  bus_ok w eventName ->
  (length (listeners_at w eventName) < fuel)%nat ->
  (exists w',
      emit (listener verdict) fuel eventName payload w = Ret tt w' /\
      trace w' = trace w ++ Emitted eventName payload
                              :: calls_of payload (registered w eventName) /\
      console w' = console w ++ reports_of verdict eventName payload
                                   (registered w eventName)) /\
  (forall e w', emit body fuel eventName payload w <> Exn e w') /\
  (forall id w1,
      on eventName (User id) w = Ret tt w1 ->
      registered w1 eventName
      = if decide (User id ∈ registered w eventName) then registered w eventName
        else registered w eventName ++ [User id]).
Proof.
  intros Hok Hfuel. split; [|split].
  - eexists. split; [by apply emit_spec|]. split.
    + by apply emitted_world_trace.
    + apply emitted_world_console.
  - intros e w'. apply emit_no_throw.
  - intros id w1 Hon. by apply (on_registered eventName (User id) w w1).
Qed.

Lemma emit_fans_out_witness :
  bus_ok three_listeners "evt" /\
  exists w',
    emit (listener demo_verdict) 4 "evt" (JNum 5) three_listeners = Ret tt w' /\
    trace w' = [Emitted "evt" (JNum 5); Called 1 (JNum 5); Called 7 (JNum 5);
                Called 2 (JNum 5)] /\
    console w' = [ConsoleError "Error in event handler for evt" (Thrown (JStr "boom"))].
Proof.
  assert (bus_ok three_listeners "evt") as Hok by bus_ok_concrete.
  split; [exact Hok|].
  assert (length (listeners_at three_listeners "evt") < 4)%nat as Hfuel
    by (vm_compute; lia).
  exact (proj1 (emit_fans_out_in_subscription_order demo_verdict (listener demo_verdict)
                  4 "evt" (JNum 5) three_listeners Hok Hfuel)).
Defined.

(** ** [events.off] and [events.once] *)

Lemma bus_ok_frame (w w' : World) (eventName : string) :
  heap w' = heap w -> handlers w' = handlers w ->
  bus_ok w eventName -> bus_ok w' eventName.
Proof.
  unfold bus_ok, listeners_at, set_ok. intros -> ->. done.
Qed.

Lemma Set_values_delete (h : Handler) (s : JsSet) :
  Set_values (Set_delete h s) = without h (Set_values s).
Proof.
  unfold Set_delete, without, Set_values.
  induction s as [|[h'|] s IH]; simpl; [done| |].
  - destruct (decide (Some h' = Some h)) as [Heq|Hne]; simpl.
    + injection Heq as ->. rewrite bool_decide_eq_true_2 by done. simpl. apply IH.
    + rewrite bool_decide_eq_false_2 by congruence. simpl. f_equal. apply IH.
  - destruct (decide (None = Some h)); [done|]. simpl. apply IH.
Qed.

Lemma Set_values_fired (s : JsSet) :
  Set_values (fired <$> s) = remaining (Set_values s).
Proof.
  unfold remaining, Set_values.
  induction s as [|[[id|uid n id]|] s IH]; simpl; [done|by f_equal|done..].
Qed.

Lemma NoDup_filter_list {A} (f : A -> bool) (l : list A) :
  NoDup l -> NoDup (List.filter f l).
Proof.
  induction 1 as [|x l Hx Hnd IH]; simpl; [constructor|].
  destruct (f x); [|done]. constructor; [|done].
  rewrite list_elem_of_In, filter_In, <- list_elem_of_In. tauto.
Qed.

Lemma elem_of_Set_delete (e : option Handler) (h : Handler) (s : JsSet) :
  e ∈ Set_delete h s -> e = None \/ e ∈ s.
Proof.
  unfold Set_delete. rewrite list_elem_of_fmap. intros (e' & -> & Hin).
  destruct (decide (e' = Some h)); [by left|by right].
Qed.

Lemma off_spec (eventName : string) (h : Handler) (w : World) :
  bus_ok w eventName ->
  exists w1,
    off eventName h w = Ret tt w1 /\
    bus_ok w1 eventName /\
    listeners_at w1 eventName = Set_delete h (listeners_at w eventName) /\
    now w1 = now w /\ window w1 = window w /\ memoryStore w1 = memoryStore w /\
    next_closure w1 = next_closure w /\ console w1 = console w /\ trace w1 = trace w.
Proof.
  intros Hok. unfold off, bind, gets, modify, ret. unfold listeners_at at 2.
  destruct (handlers w !! eventName) as [addr|] eqn:Hh.
  - destruct (Hok addr Hh) as (Hheap & Hnd & Hwrap).
    unfold listeners_at in Hheap, Hnd, Hwrap. rewrite Hh in Hheap, Hnd, Hwrap.
    eexists. split; [reflexivity|].
    assert (listeners_at (set_heap (alter (Set_delete h) addr (heap w)) w) eventName
            = Set_delete h (default [] (heap w !! addr))) as Hl.
    { unfold listeners_at. simpl. rewrite Hh, list_lookup_alter_eq.
      by destruct (heap w !! addr). }
    split; [|by rewrite Hl].
    intros addr' Hh'. simpl in Hh'. rewrite Hh in Hh'. injection Hh' as <-.
    rewrite Hl. split; [|split].
    + simpl. rewrite list_lookup_alter_eq, Hheap. simpl. by rewrite Hheap.
    + rewrite Set_values_delete. by apply NoDup_filter_list.
    + intros uid n id Hin. simpl. apply elem_of_Set_delete in Hin as [Hin|Hin]; [done|].
      by apply (Hwrap uid n id).
  - exists w. split; [done|]. split; [done|]. unfold listeners_at. rewrite Hh. done.
Qed.






(** ** [state.get] *)

Section Store.

Variable body : nat -> JsValue -> M unit.

Lemma isExpired_spec (sv : StoredValue) (w : World) :
  isExpired sv w = Ret (expired_at (now w) sv) w.
Proof. unfold isExpired, expired_at. by destruct (expiry sv). Qed.

Lemma getStorage_spec (p : Persist) (w : World) :
  getStorage (Some p) w = Ret (match window w with Some _ => Some p | None => None end) w.
Proof. unfold getStorage, bind, gets. by destruct (window w), p. Qed.

Lemma getFromStorage_spec (key : string) (p : Persist) (w : World) :
  is_Some (window w) ->
  getFromStorage key p w = Ret (decode (record_in p key w)) w.
Proof.
  intros [win Hwin]. unfold getFromStorage, try_catch, bind, Storage_getItem, bind,
    the_storage, record_in. rewrite Hwin. unfold ret.
  destruct (items (storage_of p win) !! (STORAGE_PREFIX +:+ key)) as [[text|sv]|];
    [|done..].
  by destruct text.
Qed.

Lemma removeFromStorage_spec (key : string) (p : Persist) (w : World) :
  is_Some (window w) ->
  removeFromStorage key p w = Ret tt (delete_record p (STORAGE_PREFIX +:+ key) w).
Proof.
  intros [win Hwin]. unfold removeFromStorage, Storage_removeItem, bind, the_storage,
    put_storage, delete_record. rewrite Hwin. simpl. by rewrite Hwin.
Qed.

Lemma delete_record_window (p : Persist) (k : string) (w : World) :
  is_Some (window (delete_record p k w)) <-> is_Some (window w).
Proof.
  unfold delete_record. destruct (window w) eqn:Hw; simpl; [|by rewrite Hw].
  split; intros _; by eexists.
Qed.

Lemma get_persistent_spec (key : string) (ps : list Persist) (w : World) :
  get_persistent key ps w
  = Ret (lookup_spec key (Persistent <$> ps) w).1 (lookup_spec key (Persistent <$> ps) w).2.
Proof.
  revert w. induction ps as [|p ps IH]; intros w; [done|].
  simpl. unfold bind at 1. rewrite getStorage_spec.
  destruct (window w) as [win|] eqn:Hwin.
  - unfold bind at 1. rewrite getFromStorage_spec by (by rewrite Hwin).
    destruct (decode (record_in p key w)) as [sv|]; [|apply IH].
    unfold bind at 1. rewrite isExpired_spec.
    destruct (expired_at (now w) sv); [|done].
    unfold bind. rewrite removeFromStorage_spec by (by rewrite Hwin). apply IH.
  - assert (record_in p key w = None) as -> by (unfold record_in; by rewrite Hwin).
    simpl. apply IH.
Qed.

Lemma get_memory_absent (fuel : nat) (key : string) (w : World) :
  memoryStore w !! key = None ->
  get body (S fuel) key w
  = Ret (lookup_spec key lookup_order w).1 (lookup_spec key lookup_order w).2.
Proof.
  intros Hmem. cbn [get]. unfold bind, memoryStore_get, gets. rewrite Hmem.
  rewrite get_persistent_spec. unfold lookup_order.
  cbn [lookup_spec entry_in]. by rewrite Hmem.
Qed.

Lemma get_memory_fresh (fuel : nat) (key : string) (mem : StoredValue) (w : World) :
  memoryStore w !! key = Some mem -> expired_at (now w) mem = false ->
  get body (S fuel) key w = Ret (value mem) w.
Proof.
  intros Hmem Hexp. cbn [get]. unfold bind, memoryStore_get, gets. rewrite Hmem.
  rewrite isExpired_spec. by rewrite Hexp.
Qed.

(** The slip: [get] calls [remove] on an expired memory entry, and [remove]
    starts by calling [get] on the same key; whatever the depth of the stack,
    it overflows. *)
Lemma get_memory_expired (fuel : nat) (key : string) (mem : StoredValue) (w : World) :
  memoryStore w !! key = Some mem -> expired_at (now w) mem = true ->
  get body fuel key w = Exn RangeError w.
Proof.
  intros Hmem Hexp. induction fuel as [|fuel IH]; [done|].
  cbn [get]. unfold bind at 1, memoryStore_get, gets. rewrite Hmem.
  unfold bind at 1. rewrite isExpired_spec, Hexp.
  unfold bind at 1, remove_with. unfold bind at 1. by rewrite IH.
Qed.

Lemma get_spec (fuel : nat) (key : string) (w : World) :
  memory_fresh key w ->
  get body (S fuel) key w
  = Ret (lookup_spec key lookup_order w).1 (lookup_spec key lookup_order w).2.
Proof.
  intros Hfresh. destruct (memoryStore w !! key) as [mem|] eqn:Hmem.
  - rewrite (get_memory_fresh fuel key mem) by auto.
    unfold lookup_order. simpl. rewrite Hmem. by rewrite Hfresh.
  - by apply get_memory_absent.
Qed.

End Store.

(** C3. On a key whose memory entry has expired, the lookup of the
    specification purges that entry from the memory tier alone and goes on to
    the session tier, whose live copy it returns.  [get] calls [remove]
    instead, and [remove] starts by calling [get] on the same key: the two
    call each other until the call stack overflows, so that, whatever the
    depth of the stack, [get] throws a [RangeError], returns no value and
    purges nothing. *)
Theorem get_expired_memory_never_returns :
  lookup_spec "k" lookup_order stale_memory
  = (JNum 2, purge_from Ephemeral "k" stale_memory) /\
  forall fuel,
    get (listener demo_verdict) fuel "k" stale_memory = Exn RangeError stale_memory.
Proof.
  split; [vm_compute; reflexivity|].
  intros fuel. by apply (get_memory_expired _ fuel "k" (mkStored (JNum 1) (Some 500))).
Qed.

(** C4. At a record that does not decode, [get] of [src/state.ts] returns
    [undefined] without throwing, but leaves the record where it is; the
    bundled build of the same loop removes it. *)
Theorem get_keeps_malformed_record :
  get (listener demo_verdict) 1 "k" garbled_session = Ret JUndefined garbled_session /\
  record_in session "k" garbled_session = Some (Malformed "{oops") /\
  bundled_get_persistent "k" [session; local] garbled_session
  = Ret JUndefined (delete_record session "cc:k" garbled_session).
Proof. split; [|split]; vm_compute; reflexivity. Qed.

(** ** The lookup leaves the bus alone *)

Lemma purge_from_frame (t : Tier) (key : string) (w : World) :
  same_bus w (purge_from t key w) /\
  (is_Some (window (purge_from t key w)) <-> is_Some (window w)).
Proof.
  destruct t as [|p]; simpl; [by repeat split|].
  split; [|apply delete_record_window].
  unfold delete_record. by destruct (window w).
Qed.

Lemma lookup_spec_frame (key : string) (tiers : list Tier) (w : World) :
  same_bus w (lookup_spec key tiers w).2 /\
  (is_Some (window (lookup_spec key tiers w).2) <-> is_Some (window w)).
Proof.
  revert w. induction tiers as [|t tiers IH]; intros w; simpl; [done|].
  destruct (entry_in t key w) as [sv|]; [|apply IH].
  destruct (expired_at (now w) sv); [|done].
  destruct (IH (purge_from t key w)) as [(H1 & H2 & H3 & H4 & H5 & H6) Hw].
  destruct (purge_from_frame t key w) as [(G1 & G2 & G3 & G4 & G5 & G6) Gw].
  split; [|by rewrite Hw].
  repeat split; congruence.
Qed.

Lemma delete_record_memory (p : Persist) (k : string) (w : World) :
  memoryStore (delete_record p k w) = memoryStore w.
Proof. unfold delete_record. by destruct (window w). Qed.

Lemma lookup_spec_memory (key : string) (ps : list Persist) (w : World) :
  memoryStore (lookup_spec key (Persistent <$> ps) w).2 = memoryStore w.
Proof.
  revert w. induction ps as [|p ps IH]; intros w; simpl; [done|].
  destruct (decode (record_in p key w)) as [sv|]; [|apply IH].
  destruct (expired_at (now w) sv); [|done].
  rewrite IH. apply delete_record_memory.
Qed.

Lemma lookup_order_memory (key : string) (w : World) :
  memory_fresh key w ->
  memoryStore (lookup_spec key lookup_order w).2 = memoryStore w.
Proof.
  intros Hfresh. unfold lookup_order. cbn [lookup_spec entry_in].
  destruct (memoryStore w !! key) as [mem|] eqn:Hmem.
  - by rewrite (Hfresh mem).
  - apply (lookup_spec_memory key [session; local]).
Qed.

Lemma bus_ok_same (w w' : World) (eventName : string) :
  same_bus w w' -> bus_ok w eventName -> bus_ok w' eventName.
Proof. intros (_ & H1 & H2 & _). by apply bus_ok_frame. Qed.

Lemma listeners_at_same (w w' : World) (eventName : string) :
  same_bus w w' -> listeners_at w' eventName = listeners_at w eventName.
Proof. intros (_ & H1 & H2 & _). unfold listeners_at. by rewrite H1, H2. Qed.

(** ** [state.set] and [state.remove], up to the change event *)

Section Mutations.

Variable body : nat -> JsValue -> M unit.

Lemma set_unfold (fuel : nat) (key : string) (v : JsValue) (options : StateOptions)
    (w : World) :
  memory_fresh key w ->
  set body (S fuel) key v options w
  = emit body (S fuel) (state_event key)
      (change_event v (lookup_spec key lookup_order w).1)
      (written key v options (lookup_spec key lookup_order w).2).
Proof.
  intros Hfresh. unfold set. unfold bind at 1. rewrite get_spec by done.
  destruct (lookup_spec key lookup_order w) as [old w1]. cbn [fst snd].
  unfold written.
  assert (forall (w' : World),
             (match ttl options with
              | Some t => if bool_decide (t = 0) then ret None
                          else let* n := Date_now in ret (Some (n + t))
              | None => ret None
              end) w' = Ret (expiry_for (ttl options) (now w')) w') as Hexp.
  { intros w'. unfold expiry_for. destruct (ttl options) as [t|]; [|done].
    by destruct (bool_decide (t = 0)). }
  unfold bind at 1. rewrite Hexp.
  unfold bind at 1. unfold getStorage, bind at 1, gets at 1.
  destruct (window w1) as [win|] eqn:Hwin.
  - destruct (persist options) as [[|]|] eqn:Hp; unfold ret at 1; try done.
    + unfold bind at 1. unfold bind at 1, saveToStorage, try_catch, Storage_setItem.
      unfold bind at 1, the_storage. rewrite Hwin.
      destruct (accepts (storage_of session win) (STORAGE_PREFIX +:+ key)); simpl.
      * unfold put_storage. rewrite Hwin. done.
      * done.
    + unfold bind at 1. unfold bind at 1, saveToStorage, try_catch, Storage_setItem.
      unfold bind at 1, the_storage. rewrite Hwin.
      destruct (accepts (storage_of local win) (STORAGE_PREFIX +:+ key)); simpl.
      * unfold put_storage. rewrite Hwin. done.
      * done.
  - unfold ret at 1. done.
Qed.

Lemma remove_persistent_spec (key : string) (w : World) :
  remove_persistent key [session; local] w
  = Ret tt (delete_record local (STORAGE_PREFIX +:+ key)
              (delete_record session (STORAGE_PREFIX +:+ key) w)).
Proof.
  cbn [remove_persistent]. unfold bind at 1. rewrite getStorage_spec.
  destruct (window w) as [win|] eqn:Hwin.
  - unfold bind at 1. rewrite removeFromStorage_spec by (by rewrite Hwin).
    unfold bind at 1. rewrite getStorage_spec.
    destruct (window (delete_record session (STORAGE_PREFIX +:+ key) w)) eqn:Hwin'.
    + unfold bind. by rewrite removeFromStorage_spec by (by rewrite Hwin').
    + unfold delete_record in Hwin'. rewrite Hwin in Hwin'. done.
  - unfold bind at 1. rewrite getStorage_spec, Hwin.
    unfold delete_record. rewrite Hwin. simpl. by rewrite Hwin.
Qed.

Lemma remove_unfold (fuel : nat) (key : string) (w : World) :
  memory_fresh key w ->
  remove body (S fuel) key w
  = if is_undefined (lookup_spec key lookup_order w).1
    then Ret tt (lookup_spec key lookup_order w).2
    else emit body (S fuel) (state_event key)
           (change_event JUndefined (lookup_spec key lookup_order w).1)
           (removed key (lookup_spec key lookup_order w).2).
Proof.
  intros Hfresh. unfold remove, remove_with. unfold bind at 1. rewrite get_spec by done.
  destruct (lookup_spec key lookup_order w) as [old w1]. cbn [fst snd].
  destruct (is_undefined old); [done|].
  unfold bind at 1, memoryStore_delete, modify.
  unfold bind at 1. by rewrite remove_persistent_spec.
Qed.

End Mutations.

(** ** [state.clear] *)

Lemma clear_scan_spec (p : Persist) (win : Window) (w : World) :
  window w = Some win ->
  forall (n i : nat) (keysToRemove : list string),
    clear_scan p n i keysToRemove w
    = Ret (keysToRemove
             ++ List.filter (String.prefix STORAGE_PREFIX)
                  (take n (drop i (map_to_list (items (storage_of p win))).*1))) w.
Proof.
  intros Hwin. induction n as [|n IH]; intros i acc.
  - simpl. by rewrite app_nil_r.
  - cbn [clear_scan]. unfold bind at 1, Storage_key, bind at 1, the_storage.
    rewrite Hwin. unfold ret at 1. rewrite IH.
    set (keys := (map_to_list (items (storage_of p win))).*1).
    assert (fst <$> map_to_list (items (storage_of p win)) !! i = keys !! i) as ->.
    { unfold keys. by rewrite list_lookup_fmap. }
    destruct (keys !! i) as [k|] eqn:Hk.
    + rewrite (drop_S keys k i Hk). simpl.
      destruct (String.prefix STORAGE_PREFIX k); [|done].
      by rewrite <- app_assoc.
    + apply lookup_ge_None in Hk.
      rewrite !drop_ge by lia. by rewrite !take_nil.
Qed.

Lemma remove_keys_spec (p : Persist) (ks : list string) (w : World) :
  is_Some (window w) ->
  remove_keys p ks w = Ret tt (foldl (fun w k => delete_record p k w) w ks).
Proof.
  revert w. induction ks as [|k ks IH]; intros w Hwin; [done|].
  cbn [remove_keys foldl]. unfold bind.
  assert (Storage_removeItem p k w = Ret tt (delete_record p k w)) as ->.
  { destruct Hwin as [win Hwin].
    unfold Storage_removeItem, bind, the_storage, put_storage, delete_record.
    rewrite Hwin. simpl. by rewrite Hwin. }
  apply IH. by apply delete_record_window.
Qed.

Lemma lookup_foldl_delete {A} (ks : list string) (m : gmap string A) (k : string) :
  foldl (fun m k => delete k m) m ks !! k = if decide (k ∈ ks) then None else m !! k.
Proof.
  revert m. induction ks as [|k' ks IH]; intros m; simpl; [done|].
  rewrite IH. destruct (decide (k ∈ ks)) as [Hin|Hnin].
  - rewrite decide_True; [done|by right].
  - destruct (decide (k = k')) as [->|Hne].
    + rewrite decide_True by left. apply lookup_delete_eq.
    + rewrite decide_False; [by rewrite lookup_delete_ne|].
      rewrite not_elem_of_cons. done.
Qed.

Lemma foldl_delete_record (p : Persist) (ks : list string) (win : Window) (w : World) :
  window w = Some win ->
  foldl (fun w k => delete_record p k w) w ks
  = set_window
      (Some (with_storage p
               (mkStorage (foldl (fun m k => delete k m) (items (storage_of p win)) ks)
                          (quota (storage_of p win))) win)) w.
Proof.
  revert win w. induction ks as [|k ks IH]; intros win w Hwin; simpl.
  - destruct w as [? win' ? ? ? ? ? ?]. simpl in Hwin. subst win'.
    unfold set_window. simpl. by destruct win, p, sessionStorage0, localStorage0.
  - unfold delete_record at 2. rewrite Hwin.
    erewrite IH; [|reflexivity].
    world_eq. by destruct p.
Qed.

Lemma swept_all (m : gmap string Raw) :
  foldl (fun m k => delete k m) m
    (List.filter (String.prefix STORAGE_PREFIX) (map_to_list m).*1)
  = filter (fun kv => String.prefix STORAGE_PREFIX kv.1 = false) m.
Proof.
  apply map_eq. intros k. rewrite lookup_foldl_delete, map_lookup_filter.
  destruct (decide (k ∈ List.filter (String.prefix STORAGE_PREFIX) (map_to_list m).*1))
    as [Hin|Hnin].
  - rewrite list_elem_of_In, filter_In in Hin. destruct Hin as [_ Hpre].
    destruct (m !! k); simpl; [|done]. rewrite option_guard_False; [done|].
    simpl. congruence.
  - destruct (m !! k) as [r|] eqn:Hk; simpl; [|done].
    rewrite option_guard_True; [done|]. simpl.
    destruct (String.prefix STORAGE_PREFIX k) eqn:Hpre; [|done].
    exfalso. apply Hnin. rewrite list_elem_of_In, filter_In, <- list_elem_of_In.
    split; [|done]. apply list_elem_of_fmap. exists (k, r). split; [done|].
    by apply elem_of_map_to_list.
Qed.

Lemma clear_tier (p : Persist) (win : Window) (w : World) (rest : list Persist) :
  window w = Some win ->
  clear_persistent (p :: rest) w
  = clear_persistent rest
      (set_window (Some (with_storage p (swept (storage_of p win)) win)) w).
Proof.
  intros Hwin. cbn [clear_persistent]. unfold bind at 1. rewrite getStorage_spec, Hwin.
  unfold bind at 1, Storage_length, bind at 1, the_storage. rewrite Hwin.
  unfold ret at 1. unfold bind at 1.
  rewrite (clear_scan_spec p win w Hwin). cbn [drop app].
  rewrite <- (length_fmap fst (map_to_list (items (storage_of p win)))).
  rewrite take_ge by done.
  unfold bind. rewrite remove_keys_spec by (by rewrite Hwin).
  rewrite (foldl_delete_record p _ win w Hwin). by rewrite swept_all.
Qed.

Lemma clear_no_window (ps : list Persist) (w : World) :
  window w = None -> clear_persistent ps w = Ret tt w.
Proof.
  intros Hwin. induction ps as [|p ps IH]; [done|].
  cbn [clear_persistent]. unfold bind. by rewrite getStorage_spec, Hwin.
Qed.

Lemma clear_spec (w : World) : clear w = Ret tt (cleared w).
Proof.
  unfold clear, bind, modify, cleared.
  destruct (window w) as [win|] eqn:Hwin.
  - rewrite (clear_tier session win) by done.
    erewrite (clear_tier local); [|reflexivity]. simpl. done.
  - rewrite clear_no_window by done. f_equal. world_eq. done.
Qed.

Lemma prefix_of_record (key : string) :
  String.prefix STORAGE_PREFIX (STORAGE_PREFIX +:+ key) = true.
Proof. unfold STORAGE_PREFIX. vm_compute. by destruct key. Qed.

Lemma cleared_record (p : Persist) (key : string) (w : World) :
  record_in p key (cleared w) = None.
Proof.
  unfold record_in, cleared. cbn [window set_window set_memoryStore].
  destruct (window w) as [win|]; [|done].
  destruct p; cbn [storage_of sessionStorage localStorage swept items];
    apply map_lookup_filter_None_2; right; intros r _; cbn [fst];
    by rewrite prefix_of_record.
Qed.

(** ** Frames of the mutations *)

Lemma same_bus_refl (w : World) : same_bus w w.
Proof. by repeat split. Qed.

Lemma same_bus_trans (w1 w2 w3 : World) :
  same_bus w1 w2 -> same_bus w2 w3 -> same_bus w1 w3.
Proof.
  intros (A1 & A2 & A3 & A4 & A5 & A6) (B1 & B2 & B3 & B4 & B5 & B6).
  repeat split; congruence.
Qed.

Lemma delete_record_same_bus (p : Persist) (k : string) (w : World) :
  same_bus w (delete_record p k w).
Proof. unfold delete_record. destruct (window w); by repeat split. Qed.

Lemma removed_same_bus (key : string) (w : World) : same_bus w (removed key w).
Proof.
  unfold removed.
  eapply same_bus_trans; [|apply delete_record_same_bus].
  eapply same_bus_trans; [|apply delete_record_same_bus].
  by repeat split.
Qed.

Lemma removed_memory (key : string) (w : World) :
  memoryStore (removed key w) !! key = None.
Proof.
  unfold removed. rewrite !delete_record_memory. simpl. apply lookup_delete_eq.
Qed.

Lemma removed_record (p : Persist) (key : string) (w : World) :
  record_in p key (removed key w) = None.
Proof.
  unfold removed, record_in, delete_record. simpl.
  destruct (window w) as [win|] eqn:Hwin; simpl.
  - destruct p; simpl; apply lookup_delete_eq.
  - rewrite Hwin. simpl. by rewrite Hwin.
Qed.

Lemma get_returns_fresh (body : nat -> JsValue -> M unit) (fuel : nat) (key : string)
    (w : World) (v : JsValue) (w' : World) :
  get body fuel key w = Ret v w' -> memory_fresh key w.
Proof.
  intros Hget mem Hmem. destruct (expired_at (now w) mem) eqn:Hexp; [|done].
  by rewrite (get_memory_expired body fuel key mem w) in Hget.
Qed.

Lemma get_cleared (body : nat -> JsValue -> M unit) (fuel : nat) (key : string)
    (w : World) :
  get body (S fuel) key (cleared w) = Ret JUndefined (cleared w).
Proof.
  rewrite get_memory_absent by done.
  unfold lookup_order. cbn [lookup_spec entry_in].
  assert (memoryStore (cleared w) !! key = None) as -> by done.
  by rewrite !cleared_record.
Qed.

(** Where the [get] that [remove] starts with returns: [clear] empties every
    tier without emitting anything: no change event, no listener called, and
    every key reads as absent afterwards.  [remove] of a key that [get] finds
    (a value other than [undefined]) deletes it from the memory store and
    from both storages and emits one change event whose new value is
    [undefined]; [remove] of a key that [get] does not find does nothing
    beyond that read, emits nothing and returns. *)
Theorem clear_is_silent_and_remove_emits_once
    (verdict : nat -> JsValue -> option JsError) (body : nat -> JsValue -> M unit)
    (fuel : nat) (key : string) (w : World) (oldValue : JsValue) (w1 : World) :
  get (listener verdict) (S fuel) key w = Ret oldValue w1 ->
  bus_ok w (state_event key) ->
  (length (listeners_at w (state_event key)) < S fuel)%nat ->
  (clear w = Ret tt (cleared w) /\
   memoryStore (cleared w) = ∅ /\
   (forall p k, record_in p k (cleared w) = None) /\
   trace (cleared w) = trace w /\
   (forall f k, get body (S f) k (cleared w) = Ret JUndefined (cleared w))) /\
  (is_undefined oldValue = true ->
   remove (listener verdict) (S fuel) key w = Ret tt w1 /\ trace w1 = trace w) /\
  (is_undefined oldValue = false ->
   exists w2,
     remove (listener verdict) (S fuel) key w = Ret tt w2 /\
     memoryStore w2 !! key = None /\
     (forall p, record_in p key w2 = None) /\
     trace w2 = trace w ++ Emitted (state_event key) (change_event JUndefined oldValue)
                  :: calls_of (change_event JUndefined oldValue)
                       (registered w (state_event key))).
Proof.
  intros Hget Hok Hfuel.
  pose proof (get_returns_fresh _ _ _ _ _ _ Hget) as Hfresh.
  rewrite get_spec in Hget by done.
  destruct (lookup_spec_frame key lookup_order w) as [Hbus _].
  pose proof (remove_unfold (listener verdict) fuel key w Hfresh) as Hrem.
  destruct (lookup_spec key lookup_order w) as [old w1'].
  cbn [fst snd] in *. injection Hget as -> ->.
  split; [|split].
  - split; [apply clear_spec|]. split; [done|].
    split; [intros p k; apply cleared_record|].
    split; [by destruct (window w)|]. intros f k. apply get_cleared.
  - intros Hundef. rewrite Hundef in Hrem. split; [done|]. apply Hbus.
  - intros Hdef. rewrite Hdef in Hrem.
    assert (same_bus w (removed key w1)) as Hbus2.
    { eapply same_bus_trans; [exact Hbus|apply removed_same_bus]. }
    assert (bus_ok (removed key w1) (state_event key)) as Hok2
      by (by eapply bus_ok_same).
    rewrite emit_spec in Hrem; [|done|by rewrite (listeners_at_same w)].
    eexists. split; [exact Hrem|]. split; [|split].
    + destruct (emitted_world_store verdict (state_event key)
                  (change_event JUndefined oldValue) (removed key w1))
        as (_ & _ & -> & _).
      apply removed_memory.
    + intros p. unfold record_in.
      destruct (emitted_world_store verdict (state_event key)
                  (change_event JUndefined oldValue) (removed key w1))
        as (_ & -> & _ & _).
      apply (removed_record p key w1).
    + rewrite emitted_world_trace by done.
      unfold registered. rewrite (listeners_at_same w) by done.
      destruct Hbus2 as (_ & _ & _ & _ & _ & ->). done.
Qed.

Lemma clear_is_silent_and_remove_emits_once_witness :
  get (listener demo_verdict) 2 "a" watched_store = Ret (JNum 1) watched_store /\
  bus_ok watched_store (state_event "a") /\
  trace (cleared watched_store) = [] /\
  exists w2,
    remove (listener demo_verdict) 2 "a" watched_store = Ret tt w2 /\
    memoryStore w2 !! "a" = None /\
    (forall p, record_in p "a" w2 = None) /\
    trace w2 = [Emitted "state:a" (change_event JUndefined (JNum 1));
                Called 1 (change_event JUndefined (JNum 1))].
Proof.
  assert (get (listener demo_verdict) 2 "a" watched_store = Ret (JNum 1) watched_store)
    as Hget by (vm_compute; reflexivity).
  assert (bus_ok watched_store (state_event "a")) as Hok by bus_ok_concrete.
  assert (length (listeners_at watched_store (state_event "a")) < 2)%nat as Hfuel
    by (vm_compute; lia).
  pose proof (clear_is_silent_and_remove_emits_once demo_verdict (listener demo_verdict)
                1 "a" watched_store (JNum 1) watched_store Hget Hok Hfuel)
    as (Hclear & _ & Hpresent).
  split; [exact Hget|]. split; [exact Hok|].
  split; [exact (proj1 (proj2 (proj2 (proj2 Hclear))))|].
  exact (Hpresent eq_refl).
Defined.

(** C9. [remove] of a key whose memory entry has expired throws.  In
    [expired_only] the key is absent (its one entry has expired and no
    storage holds a copy), and [remove] is not the no-op of the claim: its
    [get] calls [remove], which calls [get], until the call stack overflows,
    and the [RangeError] reaches the caller.  In [stale_memory] the key is
    present (the session storage holds a live copy), and [remove] throws the
    same way: nothing is deleted and no event is emitted. *)
Theorem remove_of_expired_entry_overflows :
  (lookup_spec "k" lookup_order expired_only).1 = JUndefined /\
  (forall fuel,
      remove (listener demo_verdict) fuel "k" expired_only = Exn RangeError expired_only) /\
  (lookup_spec "k" lookup_order stale_memory).1 = JNum 2 /\
  (forall fuel,
      remove (listener demo_verdict) fuel "k" stale_memory = Exn RangeError stale_memory).
Proof.
  split; [vm_compute; reflexivity|]. split.
  - intros fuel. unfold remove, remove_with, bind.
    by rewrite (get_memory_expired _ fuel "k" (mkStored (JNum 1) (Some 500))).
  - split; [vm_compute; reflexivity|].
    intros fuel. unfold remove, remove_with, bind.
    by rewrite (get_memory_expired _ fuel "k" (mkStored (JNum 1) (Some 500))).
Qed.

(** ** What the lookup and the writes leave of the other tiers *)

Lemma record_in_delete_other (p q : Persist) (key k : string) (w : World) :
  q <> p -> record_in q key (delete_record p k w) = record_in q key w.
Proof.
  intros Hne. unfold record_in, delete_record.
  destruct (window w) as [win|] eqn:Hwin; simpl; [|by rewrite Hwin].
  by destruct p, q.
Qed.

Lemma record_in_purge_memory (q : Persist) (key : string) (w : World) :
  record_in q key (purge_from Ephemeral key w) = record_in q key w.
Proof. done. Qed.

Lemma lookup_keeps_record (q : Persist) (key : string) (tiers : list Tier) (w : World) :
  (forall sv, record_in q key w = Some (Encoded sv) -> expired_at (now w) sv = false) ->
  record_in q key (lookup_spec key tiers w).2 = record_in q key w.
Proof.
  revert w. induction tiers as [|t tiers IH]; intros w Hlive; [done|].
  cbn [lookup_spec].
  destruct (entry_in t key w) as [sv|] eqn:Hentry; [|by apply IH].
  destruct (expired_at (now w) sv) eqn:Hexp; [|done].
  assert (record_in q key (purge_from t key w) = record_in q key w) as Hsame.
  { destruct t as [|p]; [done|]. simpl.
    destruct (decide (q = p)) as [->|Hne]; [|by apply record_in_delete_other].
    simpl in Hentry. unfold decode in Hentry.
    destruct (record_in p key w) as [[|sv']|] eqn:Hrec; try done.
    injection Hentry as ->. rewrite (Hlive sv) in Hexp; done. }
  rewrite IH; [done|].
  intros sv' Hrec. rewrite Hsame in Hrec.
  destruct (purge_from_frame t key w) as [(-> & _) _]. by apply Hlive.
Qed.

Lemma written_bus (key : string) (v : JsValue) (options : StateOptions) (w : World) :
  now (written key v options w) = now w /\
  handlers (written key v options w) = handlers w /\
  heap (written key v options w) = heap w /\
  trace (written key v options w) = trace w /\
  (is_Some (window (written key v options w)) <-> is_Some (window w)).
Proof.
  unfold written. destruct (window w) as [win|] eqn:Hwin.
  - destruct (persist options) as [p|]; [|by rewrite <- Hwin].
    destruct (accepts (storage_of p win) (STORAGE_PREFIX +:+ key)); simpl.
    + repeat split; try done; intros _; by eexists.
    + by rewrite Hwin.
  - simpl. by rewrite Hwin.
Qed.

Lemma written_record_other (p q : Persist) (key : string) (v : JsValue)
    (options : StateOptions) (w : World) :
  persist options = Some p -> q <> p ->
  record_in q key (written key v options w) = record_in q key w.
Proof.
  intros Hp Hne. unfold written, record_in. rewrite Hp.
  destruct (window w) as [win|] eqn:Hwin; simpl; [|by rewrite Hwin].
  destruct (accepts (storage_of p win) (STORAGE_PREFIX +:+ key)); simpl.
  - by destruct p, q.
  - by rewrite Hwin.
Qed.

Lemma written_memory_persistent (p : Persist) (key : string) (v : JsValue)
    (options : StateOptions) (w : World) :
  is_Some (window w) -> persist options = Some p ->
  memoryStore (written key v options w) !! key = None.
Proof.
  intros [win Hwin] Hp. unfold written. rewrite Hwin, Hp. simpl.
  destruct (accepts (storage_of p win) (STORAGE_PREFIX +:+ key)); simpl;
    apply lookup_delete_eq.
Qed.

Lemma set_spec (verdict : nat -> JsValue -> option JsError) (fuel : nat) (key : string)
    (v : JsValue) (options : StateOptions) (w : World) :
  memory_fresh key w ->
  bus_ok w (state_event key) ->
  (length (listeners_at w (state_event key)) < S fuel)%nat ->
  set (listener verdict) (S fuel) key v options w
  = Ret tt (emitted_world verdict (state_event key)
              (change_event v (lookup_spec key lookup_order w).1)
              (written key v options (lookup_spec key lookup_order w).2)).
Proof.
  intros Hfresh Hok Hfuel. rewrite set_unfold by done.
  destruct (lookup_spec_frame key lookup_order w) as [(_ & Hh & Hp & _) _].
  destruct (written_bus key v options (lookup_spec key lookup_order w).2)
    as (_ & Hh' & Hp' & _).
  apply emit_spec.
  - eapply bus_ok_frame; [..|exact Hok]; congruence.
  - unfold listeners_at in *. by rewrite Hh', Hp', Hh, Hp.
Qed.

(** C5 (amended). On a host with storage, and for a key whose memory copy is
    not expired, [set] with a persistent tier deletes the memory copy of the
    key; of the record in the other persistent tier it changes nothing beyond
    what its initial read does, so that a record that has not expired (or
    does not decode) stays as it is. *)
Theorem set_persistent_drops_memory_copy_only
    (verdict : nat -> JsValue -> option JsError) (fuel : nat) (key : string)
    (v : JsValue) (options : StateOptions) (p q : Persist) (w : World) :
  is_Some (window w) ->
  persist options = Some p ->
  q <> p ->
  memory_fresh key w ->
  bus_ok w (state_event key) ->
  (length (listeners_at w (state_event key)) < S fuel)%nat ->
  exists w',
    set (listener verdict) (S fuel) key v options w = Ret tt w' /\
    memoryStore w' !! key = None /\
    record_in q key w' = record_in q key (lookup_spec key lookup_order w).2 /\
    ((forall sv, record_in q key w = Some (Encoded sv) -> expired_at (now w) sv = false) ->
     record_in q key w' = record_in q key w).
Proof.
  intros Hwin Hp Hne Hfresh Hok Hfuel.
  eexists. split; [by apply set_spec|].
  set (w1 := (lookup_spec key lookup_order w).2).
  set (old := (lookup_spec key lookup_order w).1).
  destruct (emitted_world_store verdict (state_event key) (change_event v old)
              (written key v options w1)) as (_ & Hw & Hm & _).
  assert (record_in q key
            (emitted_world verdict (state_event key) (change_event v old)
               (written key v options w1)) = record_in q key w1) as Hrec.
  { unfold record_in at 1. rewrite Hw. by apply (written_record_other p). }
  split; [|split].
  - rewrite Hm. apply (written_memory_persistent p); [|done].
    by apply (lookup_spec_frame key lookup_order w).
  - exact Hrec.
  - intros Hlive. rewrite Hrec. by apply lookup_keeps_record.
Qed.

Lemma set_persistent_drops_memory_copy_only_witness :
  memory_fresh "a" watched_store /\
  bus_ok watched_store (state_event "a") /\
  exists w',
    set (listener demo_verdict) 2 "a" (JNum 5) (mkOptions (Some local) None) watched_store
    = Ret tt w' /\
    memoryStore w' !! "a" = None /\
    record_in session "a" w' = Some (Encoded (mkStored (JNum 0) None)).
Proof.
  assert (memory_fresh "a" watched_store) as Hfresh.
  { intros mem Hmem. vm_compute in Hmem. by injection Hmem as <-. }
  assert (bus_ok watched_store (state_event "a")) as Hok by bus_ok_concrete.
  assert (length (listeners_at watched_store (state_event "a")) < 2)%nat as Hfuel
    by (vm_compute; lia).
  assert (is_Some (window watched_store)) as Hwin by (by eexists).
  assert (session <> local) as Hne by done.
  destruct (set_persistent_drops_memory_copy_only demo_verdict 1 "a" (JNum 5)
              (mkOptions (Some local) None) local session watched_store
              Hwin eq_refl Hne Hfresh Hok Hfuel) as (w' & Hset & Hmem & _ & Hkeep).
  split; [exact Hfresh|]. split; [exact Hok|].
  exists w'. split; [exact Hset|]. split; [exact Hmem|].
  apply Hkeep. intros sv Hsv. vm_compute in Hsv. by injection Hsv as <-.
Defined.

(** C5 as stated fails on an expired copy in the other tier: [set] to the
    local storage starts with a [get], which purges the expired session
    record. *)
Lemma set_purges_expired_copy_in_other_tier :
  record_in session "k" stale_session = Some (Encoded (mkStored (JNum 1) (Some 500))) /\
  exists w',
    set (listener demo_verdict) 2 "k" (JNum 3) (mkOptions (Some local) None) stale_session
    = Ret tt w' /\
    record_in session "k" w' = None.
Proof.
  split; [vm_compute; reflexivity|].
  eexists. split; vm_compute; reflexivity.
Qed.

(** ** No operation of the store throws on a key that has not expired in memory *)

Section NoThrow.

Variable body : nat -> JsValue -> M unit.

Lemma get_never_throws (fuel : nat) (key : string) (w : World) (e : JsError) (w' : World) :
  memory_fresh key w -> get body (S fuel) key w <> Exn e w'.
Proof. intros Hfresh. by rewrite get_spec. Qed.

Lemma has_never_throws (fuel : nat) (key : string) (w : World) (e : JsError) (w' : World) :
  memory_fresh key w -> has body (S fuel) key w <> Exn e w'.
Proof. intros Hfresh. unfold has, bind. by rewrite get_spec. Qed.

Lemma set_never_throws (fuel : nat) (key : string) (v : JsValue) (options : StateOptions)
    (w : World) (e : JsError) (w' : World) :
  memory_fresh key w -> set body (S fuel) key v options w <> Exn e w'.
Proof. intros Hfresh. rewrite set_unfold by done. apply emit_no_throw. Qed.

Lemma remove_never_throws (fuel : nat) (key : string) (w : World) (e : JsError)
    (w' : World) :
  memory_fresh key w -> remove body (S fuel) key w <> Exn e w'.
Proof.
  intros Hfresh. rewrite remove_unfold by done.
  destruct (is_undefined _); [done|apply emit_no_throw].
Qed.

End NoThrow.


(** ** Reading back what [set] wrote *)

Lemma lookup_finds (T : Tier) (key : string) (stored : StoredValue) (w : World) :
  entry_in T key w = Some stored ->
  expired_at (now w) stored = false ->
  (T = Ephemeral \/ memoryStore w !! key = None) ->
  nothing_live_ahead T key w ->
  (lookup_spec key lookup_order w).1 = value stored /\
  trace (lookup_spec key lookup_order w).2 = trace w /\
  entry_in T key (lookup_spec key lookup_order w).2 = Some stored.
Proof.
  intros Hentry Hfresh Hmem Hahead. unfold lookup_order.
  destruct T as [|[|]].
  - cbn [lookup_spec]. rewrite Hentry, Hfresh. done.
  - destruct Hmem as [|Hmem]; [done|].
    cbn [lookup_spec]. cbn [entry_in] in *. rewrite Hmem, Hentry, Hfresh. done.
  - destruct Hmem as [|Hmem]; [done|].
    cbn [lookup_spec]. cbn [entry_in] in *. rewrite Hmem.
    simpl in Hahead.
    destruct (decode (record_in session key w)) as [sv|] eqn:Hs.
    + rewrite (Hahead sv eq_refl). cbn [purge_from].
      rewrite (record_in_delete_other session local) by done.
      rewrite Hentry.
      destruct (delete_record_same_bus session (STORAGE_PREFIX +:+ key) w)
        as (-> & _ & _ & _ & _ & Htr).
      rewrite Hfresh. cbn [fst snd]. rewrite Htr.
      by rewrite (record_in_delete_other session local).
    + rewrite Hentry, Hfresh. done.
Qed.

Lemma lookup_storage (key : string) (tiers : list Tier) (w : World) (win : Window) :
  window w = Some win ->
  exists win1,
    window (lookup_spec key tiers w).2 = Some win1 /\
    forall p,
      quota (storage_of p win1) = quota (storage_of p win) /\
      (items (storage_of p win1) = items (storage_of p win) \/
       items (storage_of p win1)
       = delete (STORAGE_PREFIX +:+ key) (items (storage_of p win))).
Proof.
  revert w win. induction tiers as [|t tiers IH]; intros w win Hwin.
  - exists win. split; [done|]. intros p. split; [done|by left].
  - cbn [lookup_spec]. destruct (entry_in t key w) as [sv|]; [|by apply IH].
    destruct (expired_at (now w) sv).
    + destruct t as [|q].
      * by apply IH.
      * cbn [purge_from].
        destruct (IH (delete_record q (STORAGE_PREFIX +:+ key) w)
                    (with_storage q
                       (mkStorage (delete (STORAGE_PREFIX +:+ key) (items (storage_of q win)))
                          (quota (storage_of q win))) win))
          as (win1 & Hwin1 & Hst).
        { unfold delete_record. by rewrite Hwin. }
        exists win1. split; [done|]. intros p. destruct (Hst p) as [Hq Hi].
        destruct p, q; simpl in *; (split; [done|]);
          destruct Hi as [-> | ->]; rewrite ?delete_delete_eq; auto.
    + exists win. split; [done|]. intros p. split; [done|by left].
Qed.

Lemma lookup_has_room (p : Persist) (key : string) (tiers : list Tier) (w : World) :
  has_room p w -> has_room p (lookup_spec key tiers w).2.
Proof.
  intros Hroom win1 Hwin1.
  destruct (window w) as [win|] eqn:Hwin.
  - destruct (lookup_storage key tiers w win Hwin) as (win1' & Hwin1' & Hst).
    rewrite Hwin1 in Hwin1'. injection Hwin1' as <-.
    destruct (Hst p) as [-> [-> | ->]]; [by apply Hroom|].
    eapply Nat.le_lt_trans; [|by apply Hroom].
    apply map_subseteq_size, delete_subseteq.
  - destruct (lookup_spec_frame key tiers w) as [_ Hw].
    assert (is_Some (window w)) as [? ?] by (apply Hw; by eexists). congruence.
Qed.

Lemma lookup_nothing_live (key : string) (tiers : list Tier) (w : World) :
  (forall sv, entry_in (Persistent session) key w = Some sv ->
              expired_at (now w) sv = true) ->
  forall sv, entry_in (Persistent session) key (lookup_spec key tiers w).2 = Some sv ->
             expired_at (now w) sv = true.
Proof.
  intros Hdead sv. cbn [entry_in]. unfold record_in.
  destruct (window w) as [win|] eqn:Hwin.
  - destruct (lookup_storage key tiers w win Hwin) as (win1 & -> & Hst).
    destruct (Hst session) as [_ [-> | ->]].
    + intros Hsv. apply Hdead. cbn [entry_in]. unfold record_in. by rewrite Hwin.
    + by rewrite lookup_delete_eq.
  - destruct (lookup_spec_frame key tiers w) as [_ Hw].
    destruct (window (lookup_spec key tiers w).2) eqn:Hw1; [|done].
    assert (is_Some (window w)) as [? ?] by (apply Hw; by eexists). congruence.
Qed.

Lemma expiry_for_fresh (d : option Z) (t : Z) :
  (forall x, d = Some x -> 0 <= x) ->
  expired_at t (mkStored JUndefined (expiry_for d t)) = false.
Proof.
  intros Hd. unfold expired_at, expiry_for. simpl.
  destruct d as [x|]; [|done].
  destruct (bool_decide (x = 0)); [done|]. simpl.
  apply bool_decide_eq_false_2. specialize (Hd x eq_refl). lia.
Qed.

Lemma written_target (key : string) (options : StateOptions) (w : World) :
  (forall p, target_tier options w = Persistent p -> has_room p w) ->
  entry_in (target_tier options w) key (written key JUndefined options w)
  = Some (mkStored JUndefined (expiry_for (ttl options) (now w))) /\
  (target_tier options w = Ephemeral \/
   memoryStore (written key JUndefined options w) !! key = None).
Proof.
  intros Hroom. unfold target_tier, written in *.
  destruct (window w) as [win|] eqn:Hwin.
  - destruct (persist options) as [p|].
    + assert (accepts (storage_of p win) (STORAGE_PREFIX +:+ key) = true) as ->.
      { unfold accepts. apply orb_true_iff. right. apply bool_decide_eq_true_2.
        by apply (Hroom p). }
      split; [|right; apply lookup_delete_eq].
      cbn [entry_in]. unfold record_in. simpl.
      destruct p; simpl; by rewrite lookup_insert_eq.
    + split; [|by left]. simpl. apply lookup_insert_eq.
  - split; [|by left]. simpl. apply lookup_insert_eq.
Qed.

Lemma entry_in_same_store (t : Tier) (key : string) (w w' : World) :
  memoryStore w' = memoryStore w -> window w' = window w ->
  entry_in t key w' = entry_in t key w.
Proof.
  intros Hm Hw. destruct t as [|p]; simpl; [by rewrite Hm|].
  unfold record_in. by rewrite Hw.
Qed.

Lemma target_tier_same_window (options : StateOptions) (w w' : World) :
  (is_Some (window w') <-> is_Some (window w)) ->
  target_tier options w' = target_tier options w.
Proof.
  intros Hw. unfold target_tier.
  destruct (window w) as [win|], (window w') as [win'|]; try done.
  - destruct Hw as [_ Hw]. destruct Hw; [by eexists|done].
  - destruct Hw as [Hw _]. destruct Hw; [by eexists|done].
Qed.

(** C10 (amended). After [set(key, undefined)] to the memory store, to the
    session storage, or to the local storage when the session storage holds
    no live copy of the key (the storage written to having room, and the
    time to live not being negative), the key reads as absent although its
    entry is there: [get] returns [undefined], [has] returns [false], and
    [remove] returns after its read, deleting nothing and emitting nothing. *)
Theorem undefined_value_reads_as_absent
    (verdict : nat -> JsValue -> option JsError) (body : nat -> JsValue -> M unit)
    (fuel f : nat) (key : string) (options : StateOptions) (w : World) :
  memory_fresh key w ->
  bus_ok w (state_event key) ->
  (length (listeners_at w (state_event key)) < S fuel)%nat ->
  (forall t, ttl options = Some t -> 0 <= t) ->
  (forall p, target_tier options w = Persistent p -> has_room p w) ->
  nothing_live_ahead (target_tier options w) key w ->
  exists w' w'',
    set (listener verdict) (S fuel) key JUndefined options w = Ret tt w' /\
    get body (S f) key w' = Ret JUndefined w'' /\
    has body (S f) key w' = Ret false w'' /\
    remove body (S f) key w' = Ret tt w'' /\
    trace w'' = trace w' /\
    entry_in (target_tier options w) key w''
    = Some (mkStored JUndefined (expiry_for (ttl options) (now w))).
Proof.
  intros Hfresh Hok Hfuel Httl Hroom Hahead.
  set (w1 := (lookup_spec key lookup_order w).2).
  set (old := (lookup_spec key lookup_order w).1).
  set (T := target_tier options w) in *.
  set (stored := mkStored JUndefined (expiry_for (ttl options) (now w))).
  destruct (lookup_spec_frame key lookup_order w) as [(Hnow1 & _) Hwin1].
  fold w1 in Hnow1, Hwin1.
  assert (target_tier options w1 = T) as HT1 by (by apply target_tier_same_window).
  destruct (written_target key options w1) as [Hentry Hmem].
  { intros p Hp. apply lookup_has_room, Hroom. by rewrite <- HT1. }
  rewrite HT1, Hnow1 in Hentry. rewrite HT1 in Hmem. fold stored in Hentry.
  set (w' := emitted_world verdict (state_event key) (change_event JUndefined old)
               (written key JUndefined options w1)).
  destruct (emitted_world_store verdict (state_event key) (change_event JUndefined old)
              (written key JUndefined options w1)) as (Hnow' & Hwin' & Hmem' & _).
  fold w' in Hnow', Hwin', Hmem'.
  destruct (written_bus key JUndefined options w1) as (Hnoww & _).
  assert (now w' = now w) as Hnow by congruence.
  assert (entry_in T key w' = Some stored) as Hentry'.
  { by rewrite (entry_in_same_store T key (written key JUndefined options w1) w'). }
  assert (expired_at (now w') stored = false) as Hlive.
  { rewrite Hnow. by apply expiry_for_fresh. }
  assert (T = Ephemeral \/ memoryStore w' !! key = None) as Hmem''.
  { destruct Hmem as [?|Hmem]; [by left|right]. by rewrite Hmem'. }
  assert (nothing_live_ahead T key w') as Hahead'.
  { destruct T as [|[|]] eqn:HT; try done. simpl. intros sv Hsv. rewrite Hnow.
    apply (lookup_nothing_live key lookup_order w Hahead sv). fold w1.
    rewrite <- Hsv. cbn [entry_in]. f_equal.
    unfold record_in at 2. rewrite Hwin'.
    symmetry. apply (written_record_other local session); [|done].
    unfold T, target_tier in HT.
    destruct (window w); [|done]. destruct (persist options) as [[|]|]; congruence. }
  destruct (lookup_finds T key stored w' Hentry' Hlive Hmem'' Hahead')
    as (Hval & Htr & Hkept).
  assert (memory_fresh key w') as Hfresh'.
  { intros mem Hm. destruct Hmem'' as [->|Hnone]; [|congruence].
    simpl in Hentry'. congruence. }
  exists w', (lookup_spec key lookup_order w').2.
  split; [by apply set_spec|].
  assert (get body (S f) key w' = Ret JUndefined (lookup_spec key lookup_order w').2)
    as Hget.
  { rewrite get_spec by done. by rewrite Hval. }
  split; [exact Hget|]. split; [|split; [|done]].
  - unfold has, bind. by rewrite Hget.
  - rewrite remove_unfold by done. by rewrite Hval.
Qed.

Lemma undefined_value_reads_as_absent_witness :
  memory_fresh "k" empty_world /\
  exists w' w'',
    set (listener demo_verdict) 1 "k" JUndefined no_options empty_world = Ret tt w' /\
    get (listener demo_verdict) 1 "k" w' = Ret JUndefined w'' /\
    has (listener demo_verdict) 1 "k" w' = Ret false w'' /\
    remove (listener demo_verdict) 1 "k" w' = Ret tt w'' /\
    trace w'' = trace w' /\
    memoryStore w'' !! "k" = Some (mkStored JUndefined None).
Proof.
  assert (memory_fresh "k" empty_world) as Hfresh by (intros mem Hmem; done).
  assert (bus_ok empty_world (state_event "k")) as Hok by (intros addr H; done).
  assert (length (listeners_at empty_world (state_event "k")) < 1)%nat as Hfuel
    by (vm_compute; lia).
  assert (forall t, ttl no_options = Some t -> 0 <= t) as Httl by done.
  assert (forall p, target_tier no_options empty_world = Persistent p ->
                    has_room p empty_world) as Hroom by done.
  split; [exact Hfresh|].
  exact (undefined_value_reads_as_absent demo_verdict (listener demo_verdict) 0 0 "k"
           no_options empty_world Hfresh Hok Hfuel Httl Hroom I).
Defined.

(** C10 as stated fails for the local tier: over a live session copy,
    [set(k, undefined, { persist: local })] leaves [get] returning the
    session value, and [has] returning [true]. *)
Lemma undefined_in_local_is_shadowed_by_session :
  exists w',
    set (listener demo_verdict) 1 "k" JUndefined (mkOptions (Some local) None) live_session
    = Ret tt w' /\
    get (listener demo_verdict) 1 "k" w' = Ret (JNum 2) w' /\
    has (listener demo_verdict) 1 "k" w' = Ret true w'.
Proof. eexists. split; [|split]; vm_compute; reflexivity. Qed.

(** ** Resource-backed subscriptions *)

(** *** Logs *)

Lemma confirmed_snoc (k : ResKey) (log : list BindingEvent) (e : BindingEvent) :
  forall seen,
    confirmed k seen (log ++ [e])
    = if decide (e = Enable_ok k) then true
      else if decide (e = Call_disable k) then false
      else confirmed k seen log.
Proof.
  induction log as [|e0 log IH]; intros seen; simpl; [done|]. apply IH.
Qed.

Lemma awaiting_snoc (k : ResKey) (log : list BindingEvent) (e : BindingEvent) :
  forall pending,
    awaiting k pending (log ++ [e])
    = if decide (e = Call_enable k) then true
      else if decide (e = Enable_ok k) then false
      else if decide (e = Enable_failed k) then false
      else awaiting k pending log.
Proof.
  induction log as [|e0 log IH]; intros pending; simpl; [done|]. apply IH.
Qed.

Lemma disable_guarded_snoc (k : ResKey) (log : list BindingEvent) (e : BindingEvent) :
  forall seen,
    disable_guarded k seen (log ++ [e])
    = disable_guarded k seen log
      && (if decide (e = Call_disable k) then confirmed k seen log else true).
Proof.
  induction log as [|e0 log IH]; intros seen; simpl.
  - destruct (decide (e = Call_disable k)); by rewrite ?andb_true_r.
  - destruct (decide (e0 = Call_disable k)) as [->|Hne].
    + rewrite IH. rewrite (decide_False (P := Call_disable k = Enable_ok k)) by done.
      by rewrite andb_assoc.
    + apply IH.
Qed.

Lemma enable_exclusive_snoc (k : ResKey) (log : list BindingEvent) (e : BindingEvent) :
  forall pending,
    enable_exclusive k pending (log ++ [e])
    = enable_exclusive k pending log
      && (if decide (e = Call_enable k) then negb (awaiting k pending log) else true).
Proof.
  induction log as [|e0 log IH]; intros pending; simpl.
  - destruct (decide (e = Call_enable k)); by rewrite ?andb_true_r.
  - destruct (decide (e0 = Call_enable k)) as [->|Hne].
    + rewrite IH. by rewrite andb_assoc.
    + apply IH.
Qed.

(** *** Counting listeners *)

Lemma listeners_for_update (k : ResKey) (eventName : string) (hs : list nat) (b : Bus)
    (rc : gmap ResKey ResourceRefcount) (n : nat) (log : list BindingEvent) :
  (listeners_for k (mkBus (<[eventName := hs]> (subscriptions b)) rc n log)
   + (if decide (parse_resource eventName = Some k)
      then length (handles_at eventName b) else 0)
   = listeners_for k b
     + (if decide (parse_resource eventName = Some k) then length hs else 0))%nat.
Proof.
  unfold listeners_for, handles_at. simpl.
  set (f := fun (name : string) (l : list nat) (acc : nat) =>
              if decide (parse_resource name = Some k) then (length l + acc)%nat
              else acc).
  assert (forall j1 j2 (z1 z2 : list nat) (y : nat), f j1 z1 (f j2 z2 y) = f j2 z2 (f j1 z1 y))
    as Hcomm.
  { intros. unfold f. repeat case_decide; lia. }
  destruct (subscriptions b !! eventName) as [hs0|] eqn:Hs.
  - rewrite <- (insert_delete_eq (subscriptions b) eventName hs).
    rewrite (map_fold_insert_L f); [|intros; apply Hcomm|apply lookup_delete_eq].
    rewrite (map_fold_delete_L f 0%nat eventName hs0 (subscriptions b));
      [|intros; apply Hcomm|done].
    simpl. unfold f at 1 3. case_decide; lia.
  - rewrite (map_fold_insert_L f); [|intros; apply Hcomm|done].
    simpl. unfold f at 1. case_decide; lia.
Qed.

(** *** The phases against the log *)

Lemma refcount_of_put (k k0 : ResKey) (r : ResourceRefcount) (b : Bus) :
  refcount_of k (put_refcount k0 r b) = if decide (k = k0) then r else refcount_of k b.
Proof.
  unfold refcount_of, put_refcount. simpl. destruct (decide (k = k0)) as [->|Hne].
  - by rewrite lookup_insert_eq.
  - by rewrite lookup_insert_ne.
Qed.

Lemma refcount_of_tell (k : ResKey) (e : BindingEvent) (b : Bus) :
  refcount_of k (tell e b) = refcount_of k b.
Proof. done. Qed.

Ltac log_facts :=
  repeat first
    [ rewrite confirmed_snoc | rewrite awaiting_snoc
    | rewrite disable_guarded_snoc | rewrite enable_exclusive_snoc ].

Ltac close_phase :=
  repeat match goal with
         | H : ?P -> _, H' : ?P |- _ => specialize (H H')
         | H : _ /\ _ |- _ => destruct H
         end;
  repeat match goal with
         | H : awaiting ?k _ ?l = _ |- context [awaiting ?k _ ?l] => rewrite H
         | H : enable_exclusive ?k _ ?l = _ |- context [enable_exclusive ?k _ ?l] =>
             rewrite H
         | H : disable_guarded ?k _ ?l = _ |- context [disable_guarded ?k _ ?l] =>
             rewrite H
         | H : confirmed ?k _ ?l = _ |- context [confirmed ?k _ ?l] => rewrite H
         | H : phase ?r = _ |- context [phase ?r] => rewrite H
         end;
  try done; try lia; try congruence.

Ltac phase_cases k k0 :=
  cbn [binding_log tell put_refcount];
  rewrite ?refcount_of_tell, ?refcount_of_put;
  log_facts;
  destruct (decide (k = k0)) as [->|?];
  repeat case_decide; simplify_eq; cbn [count phase] in *;
  repeat match goal with
         | |- _ /\ _ => split
         | |- _ -> _ => intro
         end;
  simplify_eq; rewrite ?andb_true_r; close_phase.

Lemma acquire_phases (k0 : ResKey) (b : Bus) : phases_ok b -> phases_ok (acquire k0 b).
Proof.
  intros Hok k. pose proof (Hok k) as (HL & HD & HG & HX & HA).
  pose proof (Hok k0) as (HL0 & HD0 & HG0 & HX0 & HA0).
  unfold acquire. destruct (bool_decide (count (refcount_of k0 b) = 0%nat)) eqn:Hc.
  - apply bool_decide_eq_true in Hc.
    destruct (phase (refcount_of k0 b)) eqn:Hp; phase_cases k k0.
  - apply bool_decide_eq_false in Hc. phase_cases k k0.
Qed.

Lemma release_phases (k0 : ResKey) (b : Bus) : phases_ok b -> phases_ok (release k0 b).
Proof.
  intros Hok k. pose proof (Hok k) as (HL & HD & HG & HX & HA).
  pose proof (Hok k0) as (HL0 & HD0 & HG0 & HX0 & HA0).
  unfold release. destruct (count (refcount_of k0 b)) as [|[|n]] eqn:Hc; [done| |].
  - destruct (phase (refcount_of k0 b)) eqn:Hp; phase_cases k k0.
  - phase_cases k k0.
Qed.

Lemma enable_resolved_phases (k0 : ResKey) (b : Bus) :
  phases_ok b -> phases_ok (enable_resolved k0 b).
Proof.
  intros Hok k. pose proof (Hok k) as (HL & HD & HG & HX & HA).
  pose proof (Hok k0) as (HL0 & HD0 & HG0 & HX0 & HA0).
  unfold enable_resolved. destruct (phase (refcount_of k0 b)) eqn:Hp; try done.
  destruct (bool_decide (count (refcount_of k0 b) = 0%nat)) eqn:Hc.
  - apply bool_decide_eq_true in Hc. phase_cases k k0.
  - apply bool_decide_eq_false in Hc. phase_cases k k0.
Qed.

Lemma enable_rejected_phases (k0 : ResKey) (b : Bus) :
  phases_ok b -> phases_ok (enable_rejected k0 b).
Proof.
  intros Hok k. pose proof (Hok k) as (HL & HD & HG & HX & HA).
  pose proof (Hok k0) as (HL0 & HD0 & HG0 & HX0 & HA0).
  unfold enable_rejected. destruct (phase (refcount_of k0 b)) eqn:Hp; try done.
  phase_cases k k0.
Qed.

Lemma disable_resolved_phases (k0 : ResKey) (b : Bus) :
  phases_ok b -> phases_ok (disable_resolved k0 b).
Proof.
  intros Hok k. pose proof (Hok k) as (HL & HD & HG & HX & HA).
  pose proof (Hok k0) as (HL0 & HD0 & HG0 & HX0 & HA0).
  unfold disable_resolved. destruct (phase (refcount_of k0 b)) eqn:Hp; try done.
  phase_cases k k0.
Qed.

(** *** Handles and counts *)

Lemma phases_ok_same (b b' : Bus) :
  refcounts b' = refcounts b -> binding_log b' = binding_log b ->
  phases_ok b -> phases_ok b'.
Proof. unfold phases_ok, refcount_of. intros -> ->. done. Qed.

Lemma listeners_for_same (k : ResKey) (b b' : Bus) :
  subscriptions b' = subscriptions b -> listeners_for k b' = listeners_for k b.
Proof. unfold listeners_for. by intros ->. Qed.

Lemma acquire_books (k0 : ResKey) (b : Bus) :
  subscriptions (acquire k0 b) = subscriptions b /\
  next_handle (acquire k0 b) = next_handle b.
Proof.
  unfold acquire. destruct (bool_decide _); [|done].
  by destruct (phase (refcount_of k0 b)).
Qed.

Lemma release_books (k0 : ResKey) (b : Bus) :
  subscriptions (release k0 b) = subscriptions b /\
  next_handle (release k0 b) = next_handle b.
Proof.
  unfold release. destruct (count (refcount_of k0 b)) as [|[|n]]; [done| |done].
  by destruct (phase (refcount_of k0 b)).
Qed.

Lemma acquire_count (k k0 : ResKey) (b : Bus) :
  count (refcount_of k (acquire k0 b))
  = (count (refcount_of k b) + if decide (k = k0) then 1 else 0)%nat.
Proof.
  unfold acquire. destruct (bool_decide (count (refcount_of k0 b) = 0%nat)) eqn:Hc.
  - apply bool_decide_eq_true in Hc.
    destruct (phase (refcount_of k0 b));
      rewrite ?refcount_of_tell, refcount_of_put; repeat case_decide; simplify_eq; simpl; lia.
  - rewrite refcount_of_put. repeat case_decide; simplify_eq; simpl; lia.
Qed.

Lemma release_count (k k0 : ResKey) (b : Bus) :
  count (refcount_of k (release k0 b))
  = (count (refcount_of k b) - if decide (k = k0) then 1 else 0)%nat.
Proof.
  unfold release. destruct (count (refcount_of k0 b)) as [|[|n]] eqn:Hc.
  - case_decide; simplify_eq; lia.
  - destruct (phase (refcount_of k0 b));
      rewrite ?refcount_of_tell, refcount_of_put; repeat case_decide; simplify_eq; simpl; lia.
  - rewrite refcount_of_put. repeat case_decide; simplify_eq; simpl; lia.
Qed.

Lemma handles_at_insert (eventName n : string) (hs : list nat) (b : Bus)
    (rc : gmap ResKey ResourceRefcount) (nh : nat) (log : list BindingEvent) :
  handles_at n (mkBus (<[eventName := hs]> (subscriptions b)) rc nh log)
  = if decide (n = eventName) then hs else handles_at n b.
Proof.
  unfold handles_at. simpl. destruct (decide (n = eventName)) as [->|Hne].
  - by rewrite lookup_insert_eq.
  - by rewrite lookup_insert_ne.
Qed.

Lemma bus_on_inv (eventName : string) (b : Bus) :
  bus_inv b -> bus_inv (bus_on eventName b).2.
Proof.
  intros (Hsubs & Hcounts & Hphases). unfold bus_on. cbn [snd].
  set (h := next_handle b).
  set (b1 := mkBus (<[eventName := handles_at eventName b ++ [h]]> (subscriptions b))
                   (refcounts b) (S h) (binding_log b)).
  assert (subs_ok b1) as Hsubs1.
  { intros n. unfold b1. rewrite handles_at_insert.
    destruct (Hsubs n) as [Hnd Hlt]. destruct (decide (n = eventName)) as [->|Hne].
    - split.
      + apply NoDup_app. split; [done|]. split; [|apply NoDup_singleton].
        intros x Hx Hx'. apply list_elem_of_singleton in Hx'. subst x.
        apply Hlt in Hx. unfold h in Hx. lia.
      + intros x Hx. simpl. apply elem_of_app in Hx as [Hx|Hx].
        * apply Hlt in Hx. lia.
        * apply list_elem_of_singleton in Hx. subst x. unfold h. lia.
    - split; [done|]. intros x Hx. simpl. apply Hlt in Hx. lia. }
  assert (forall k, listeners_for k b1
                    = (listeners_for k b
                       + if decide (parse_resource eventName = Some k) then 1 else 0)%nat)
    as Hl1.
  { intros k.
    pose proof (listeners_for_update k eventName (handles_at eventName b ++ [h]) b
                  (refcounts b) (S h) (binding_log b)) as Hu.
    fold b1 in Hu. rewrite length_app in Hu. simpl in Hu. case_decide; lia. }
  assert (phases_ok b1) as Hphases1 by (by apply (phases_ok_same b)).
  destruct (parse_resource eventName) as [k0|] eqn:Hparse.
  - destruct (acquire_books k0 b1) as [Hs Hn].
    split; [|split].
    + intros n. unfold handles_at. rewrite Hs, Hn. apply Hsubs1.
    + intros k. rewrite acquire_count, (listeners_for_same k b1) by done.
      rewrite Hl1. change (refcount_of k b1) with (refcount_of k b).
      rewrite Hcounts. repeat case_decide; simplify_eq; lia.
    + by apply acquire_phases.
  - split; [done|]. split; [|done].
    intros k. rewrite Hl1. change (refcount_of k b1) with (refcount_of k b).
    rewrite Hcounts. case_decide; [done|lia].
Qed.

Lemma length_filter_remove (h : nat) (hs : list nat) :
  NoDup hs -> h ∈ hs ->
  S (length (List.filter (fun h' => negb (h' =? h)%nat) hs)) = length hs.
Proof.
  induction 1 as [|x hs Hx Hnd IH]; intros Hin; [by apply elem_of_nil in Hin|].
  simpl. destruct (Nat.eqb_spec x h) as [->|Hne]; simpl.
  - f_equal. clear IH Hin. induction hs as [|y hs IH]; [done|].
    apply not_elem_of_cons in Hx as [Hy Hx]. apply NoDup_cons in Hnd as [_ Hnd].
    simpl. destruct (Nat.eqb_spec y h) as [->|_]; [done|]. simpl. f_equal. by apply IH.
  - f_equal. apply IH. apply elem_of_cons in Hin as [->|Hin]; done.
Qed.

Lemma bus_off_inv (eventName : string) (h : nat) (b : Bus) :
  bus_inv b -> bus_inv (bus_off eventName h b).
Proof.
  intros (Hsubs & Hcounts & Hphases). unfold bus_off.
  destruct (bool_decide (h ∈ handles_at eventName b)) eqn:Hin; [|done].
  apply bool_decide_eq_true in Hin.
  set (hs' := List.filter (fun h' => negb (h' =? h)%nat) (handles_at eventName b)).
  set (b1 := mkBus (<[eventName := hs']> (subscriptions b))
                   (refcounts b) (next_handle b) (binding_log b)).
  destruct (Hsubs eventName) as [Hnd Hlt].
  assert (subs_ok b1) as Hsubs1.
  { intros n. unfold b1. rewrite handles_at_insert.
    destruct (decide (n = eventName)) as [->|Hne]; [|apply Hsubs].
    split.
    - by apply NoDup_filter_list.
    - intros x Hx. simpl. apply Hlt.
      unfold hs' in Hx. rewrite list_elem_of_In, filter_In, <- list_elem_of_In in Hx.
      tauto. }
  assert (forall k, (listeners_for k b1
                     + if decide (parse_resource eventName = Some k) then 1 else 0)%nat
                    = listeners_for k b) as Hl1.
  { intros k.
    pose proof (listeners_for_update k eventName hs' b
                  (refcounts b) (next_handle b) (binding_log b)) as Hu.
    fold b1 in Hu. pose proof (length_filter_remove h _ Hnd Hin) as Hlen.
    fold hs' in Hlen. case_decide; lia. }
  assert (phases_ok b1) as Hphases1 by (by apply (phases_ok_same b)).
  destruct (parse_resource eventName) as [k0|] eqn:Hparse.
  - destruct (release_books k0 b1) as [Hs Hn].
    split; [|split].
    + intros n. unfold handles_at. rewrite Hs, Hn. apply Hsubs1.
    + intros k. rewrite release_count, (listeners_for_same k b1) by done.
      specialize (Hl1 k). change (refcount_of k b1) with (refcount_of k b).
      rewrite Hcounts. repeat case_decide; simplify_eq; lia.
    + by apply release_phases.
  - split; [done|]. split; [|done].
    intros k. specialize (Hl1 k). change (refcount_of k b1) with (refcount_of k b).
    rewrite Hcounts. case_decide; [done|lia].
Qed.

Lemma enable_resolved_books (k k0 : ResKey) (b : Bus) :
  subscriptions (enable_resolved k0 b) = subscriptions b /\
  next_handle (enable_resolved k0 b) = next_handle b /\
  count (refcount_of k (enable_resolved k0 b)) = count (refcount_of k b).
Proof.
  unfold enable_resolved. destruct (phase (refcount_of k0 b)); try done.
  destruct (bool_decide (count (refcount_of k0 b) = 0%nat)) eqn:Hc.
  - apply bool_decide_eq_true in Hc. repeat split; try done.
    rewrite !refcount_of_tell, refcount_of_put.
    destruct (decide (k = k0)) as [->|]; simpl; congruence.
  - repeat split; try done.
    rewrite !refcount_of_tell, refcount_of_put.
    destruct (decide (k = k0)) as [->|]; simpl; congruence.
Qed.

Lemma enable_rejected_books (k k0 : ResKey) (b : Bus) :
  subscriptions (enable_rejected k0 b) = subscriptions b /\
  next_handle (enable_rejected k0 b) = next_handle b /\
  count (refcount_of k (enable_rejected k0 b)) = count (refcount_of k b).
Proof.
  unfold enable_rejected. destruct (phase (refcount_of k0 b)); try done.
  repeat split; try done.
  rewrite !refcount_of_tell, refcount_of_put.
    destruct (decide (k = k0)) as [->|]; simpl; congruence.
Qed.

Lemma disable_resolved_books (k k0 : ResKey) (b : Bus) :
  subscriptions (disable_resolved k0 b) = subscriptions b /\
  next_handle (disable_resolved k0 b) = next_handle b /\
  count (refcount_of k (disable_resolved k0 b)) = count (refcount_of k b).
Proof.
  unfold disable_resolved. destruct (phase (refcount_of k0 b)); try done.
  repeat split; try done.
  rewrite !refcount_of_tell, refcount_of_put.
    destruct (decide (k = k0)) as [->|]; simpl; congruence.
Qed.

Lemma bus_inv_books (b b' : Bus) :
  subscriptions b' = subscriptions b -> next_handle b' = next_handle b ->
  (forall k, count (refcount_of k b') = count (refcount_of k b)) ->
  phases_ok b' -> bus_inv b -> bus_inv b'.
Proof.
  intros Hs Hn Hc Hp (Hsubs & Hcounts & _). split; [|split; [|done]].
  - intros n. unfold handles_at. rewrite Hs, Hn. apply Hsubs.
  - intros k. rewrite Hc, (listeners_for_same k b) by done. apply Hcounts.
Qed.

Lemma bus_inv_step (b : Bus) (s : Step) : bus_inv b -> bus_inv (step b s).
Proof.
  intros Hinv. destruct s as [name|name h|k0|k0|k0]; simpl.
  - by apply bus_on_inv.
  - by apply bus_off_inv.
  - apply (bus_inv_books b); try done; try apply (enable_resolved_books k0 k0).
    + intros k. apply enable_resolved_books.
    + apply enable_resolved_phases, Hinv.
  - apply (bus_inv_books b); try done; try apply (enable_rejected_books k0 k0).
    + intros k. apply enable_rejected_books.
    + apply enable_rejected_phases, Hinv.
  - apply (bus_inv_books b); try done; try apply (disable_resolved_books k0 k0).
    + intros k. apply disable_resolved_books.
    + apply disable_resolved_phases, Hinv.
Qed.

Lemma bus_inv_init : bus_inv init_bus.
Proof.
  split; [|split].
  - intros n. split; [apply NoDup_nil_2|]. intros h Hh. by apply elem_of_nil in Hh.
  - intros k. unfold listeners_for. simpl. by rewrite map_fold_empty.
  - intros k. by repeat split.
Qed.

Lemma bus_inv_foldl (steps : list Step) (b : Bus) :
  bus_inv b -> bus_inv (foldl step b steps).
Proof.
  revert b. induction steps as [|s steps IH]; intros b Hinv; [done|].
  simpl. apply IH. by apply bus_inv_step.
Qed.

Lemma bus_inv_run (steps : list Step) : bus_inv (run steps).
Proof. apply bus_inv_foldl, bus_inv_init. Qed.

(** *** Names *)

Lemma append_snoc (cur : string) (c : ascii) (s : string) :
  (cur +:+ String c "") +:+ s = cur +:+ String c s.
Proof.
  induction cur as [|c' cur IH]; [done|].
  change (String c' ((cur +:+ String c "") +:+ s) = String c' (cur +:+ String c s)).
  by rewrite IH.
Qed.

Lemma append_empty (cur : string) : cur +:+ "" = cur.
Proof.
  induction cur as [|c cur IH]; [done|].
  change (String c (cur +:+ "") = String c cur). by rewrite IH.
Qed.

Lemma split_colon_segment (s : string) :
  no_colon s = true ->
  forall cur rest,
    split_colon_from cur (s +:+ String ":"%char rest)
    = (cur +:+ s) :: split_colon_from "" rest.
Proof.
  induction s as [|c s IH]; intros Hs cur rest.
  - change (split_colon_from cur (String ":"%char rest)
            = (cur +:+ "") :: split_colon_from "" rest).
    by rewrite append_empty.
  - change (no_colon (String c s))
      with (negb (Ascii.eqb c ":"%char) && no_colon s) in Hs.
    apply andb_true_iff in Hs as [Hc Hs]. apply negb_true_iff in Hc.
    change (split_colon_from cur (String c (s +:+ String ":"%char rest))
            = (cur +:+ String c s) :: split_colon_from "" rest).
    cbn [split_colon_from]. rewrite Hc, IH by done. by rewrite append_snoc.
Qed.

Lemma split_colon_last (s : string) :
  no_colon s = true -> forall cur, split_colon_from cur s = [cur +:+ s].
Proof.
  induction s as [|c s IH]; intros Hs cur.
  - cbn [split_colon_from]. by rewrite append_empty.
  - change (no_colon (String c s))
      with (negb (Ascii.eqb c ":"%char) && no_colon s) in Hs.
    apply andb_true_iff in Hs as [Hc Hs]. apply negb_true_iff in Hc.
    cbn [split_colon_from]. rewrite Hc, IH by done. by rewrite append_snoc.
Qed.

Lemma parse_resource_name (id action : string) :
  no_colon id = true -> no_colon action = true ->
  parse_resource (resource_name id action) = Some (id, None).
Proof.
  intros Hid Hact. unfold parse_resource, split_colon, resource_name.
  change ("resource:" +:+ id +:+ ":" +:+ action)
    with ("resource" +:+ String ":"%char (id +:+ String ":"%char action)).
  rewrite (split_colon_segment "resource") by done.
  rewrite (split_colon_segment id) by done.
  rewrite (split_colon_last action) by done. done.
Qed.

(** *** One resource does not move another *)



Lemma bus_off_listeners (k : ResKey) (eventName : string) (h : nat) (b : Bus) :
  bus_inv b -> parse_resource eventName = Some k -> h ∈ handles_at eventName b ->
  S (count (refcount_of k (bus_off eventName h b))) = count (refcount_of k b).
Proof.
  intros Hinv Hparse Hin.
  pose proof (bus_off_inv eventName h b Hinv) as (_ & Hc2 & _).
  destruct Hinv as (Hsubs & Hc & _).
  rewrite Hc2, Hc. unfold bus_off. rewrite bool_decide_eq_true_2 by done.
  rewrite Hparse.
  set (hs' := List.filter (fun h' => negb (h' =? h)%nat) (handles_at eventName b)).
  rewrite (listeners_for_same k
             (mkBus (<[eventName := hs']> (subscriptions b)) (refcounts b)
                    (next_handle b) (binding_log b)))
    by apply release_books.
  pose proof (listeners_for_update k eventName hs' b (refcounts b) (next_handle b)
                (binding_log b)) as Hu.
  pose proof (length_filter_remove h _ (proj1 (Hsubs eventName)) Hin) as Hlen.
  fold hs' in Hlen. repeat case_decide; try done; lia.
Qed.

(** C1 (amended). Listeners on the event names of one resource share one
    refcount, whatever the action: every name [resource:{id}:{action}]
    belongs to the key of [id], and the count of a key is the number of
    listeners registered under all its names.  In every state the bus can
    reach: subscribing at count 0 calls [enable] exactly once, unless an
    [enable] of the resource is still pending (its listeners were all removed
    before it resolved), in which case nothing is called and the pending
    [enable] serves the new listener; subscribing at a higher count calls
    nothing; unsubscribing while the count stays at least 1 calls nothing;
    unsubscribing the last listener calls [disable] exactly once when the
    resource is Live, nothing at once while its [enable] is pending (the one
    [disable] follows when that [enable] resolves), and nothing after an
    [enable] that failed. *)
Theorem refcount_is_shared_across_actions (steps : list Step) (k : ResKey) :
  let b := run steps in
  (forall id action,
      no_colon id = true -> no_colon action = true ->
      parse_resource (resource_name id action) = Some (id, None)) /\
  count (refcount_of k b) = listeners_for k b /\
  (forall eventName,
      parse_resource eventName = Some k ->
      let b1 := (bus_on eventName b).2 in
      count (refcount_of k b1) = S (count (refcount_of k b)) /\
      (count (refcount_of k b) = 0%nat ->
       phase (refcount_of k b) <> Live /\
       (phase (refcount_of k b) = Idle \/ phase (refcount_of k b) = Disabling ->
        binding_log b1 = binding_log b ++ [Call_enable k] /\
        phase (refcount_of k b1) = Enabling) /\
       (phase (refcount_of k b) = Enabling ->
        binding_log b1 = binding_log b /\
        phase (refcount_of k b1) = Enabling)) /\
      ((1 <= count (refcount_of k b))%nat ->
       binding_log b1 = binding_log b /\
       phase (refcount_of k b1) = phase (refcount_of k b))) /\
  (forall eventName h,
      parse_resource eventName = Some k -> h ∈ handles_at eventName b ->
      let b2 := bus_off eventName h b in
      S (count (refcount_of k b2)) = count (refcount_of k b) /\
      ((2 <= count (refcount_of k b))%nat ->
       binding_log b2 = binding_log b /\
       phase (refcount_of k b2) = phase (refcount_of k b)) /\
      (count (refcount_of k b) = 1%nat ->
       phase (refcount_of k b) <> Disabling /\
       (phase (refcount_of k b) = Live ->
        binding_log b2 = binding_log b ++ [Call_disable k] /\
        phase (refcount_of k b2) = Disabling) /\
       (phase (refcount_of k b) = Enabling ->
        binding_log b2 = binding_log b /\
        phase (refcount_of k b2) = Enabling /\
        binding_log (enable_resolved k b2)
        = binding_log b ++ [Enable_ok k; Call_disable k]) /\
       (phase (refcount_of k b) = Idle ->
        binding_log b2 = binding_log b /\
        phase (refcount_of k b2) = Idle))).
Proof.
  intros b. pose proof (bus_inv_run steps) as Hinv. fold b in Hinv.
  split; [apply parse_resource_name|]. split; [apply Hinv|]. split.
  - intros eventName Hparse b1. unfold b1, bus_on. cbn [snd]. rewrite Hparse.
    set (b0 := mkBus _ _ _ _).
    change (refcount_of k b) with (refcount_of k b0).
    change (binding_log b) with (binding_log b0).
    split; [rewrite acquire_count, decide_True by done; lia|].
    unfold acquire. split.
    + intros Hc. split; [|split].
      * intros Hp. destruct Hinv as (_ & _ & Hph).
        destruct (Hph k) as (Hlive & _).
        change (refcount_of k b0) with (refcount_of k b) in Hc, Hp.
        destruct (Hlive Hp) as [Hone _]. lia.
      * intros [Hp|Hp]; rewrite Hc, Hp; simpl;
          by rewrite refcount_of_tell, refcount_of_put, decide_True.
      * intros Hp. rewrite Hc, Hp. simpl.
        by rewrite refcount_of_put, decide_True.
    + intros Hc. rewrite bool_decide_eq_false_2 by lia.
      rewrite refcount_of_put, decide_True by done. done.
  - intros eventName h Hparse Hin b2.
    split; [by apply bus_off_listeners|].
    unfold b2, bus_off. rewrite bool_decide_eq_true_2 by done. rewrite Hparse.
    set (b0 := mkBus _ _ _ _).
    change (refcount_of k b) with (refcount_of k b0).
    change (binding_log b) with (binding_log b0).
    unfold release. split.
    + intros Hc. destruct (count (refcount_of k b0)) as [|[|n]] eqn:Hn; [lia..|].
      rewrite refcount_of_put, decide_True by done. done.
    + intros Hc. split; [|split; [|split]].
      * intros Hp. destruct Hinv as (_ & _ & Hph).
        destruct (Hph k) as (_ & Hdis & _).
        change (refcount_of k b0) with (refcount_of k b) in Hc, Hp.
        rewrite (Hdis Hp) in Hc. lia.
      * intros Hp. rewrite Hc, Hp.
        by rewrite refcount_of_tell, refcount_of_put, decide_True.
      * intros Hp. rewrite Hc, Hp.
        rewrite refcount_of_put, decide_True by done.
        split; [done|]. split; [done|].
        unfold enable_resolved.
        rewrite refcount_of_put, decide_True by done. cbn [phase count].
        rewrite bool_decide_eq_true_2 by done. simpl. by rewrite <- app_assoc.
      * intros Hp. rewrite Hc, Hp.
        by rewrite refcount_of_put, decide_True.
Qed.

Lemma refcount_is_shared_witness :
  (let b := run [] in
   let b1 := (bus_on "resource:posts:create" b).2 in
   count (refcount_of posts b) = 0%nat /\
   phase (refcount_of posts b) = Idle /\
   binding_log b1 = binding_log b ++ [Call_enable posts]) /\
  (let b := run three_subscribers in
   let b2 := bus_off "resource:posts:update" 2 b in
   count (refcount_of posts b) = 3%nat /\
   binding_log b2 = binding_log b /\
   phase (refcount_of posts b2) = phase (refcount_of posts b)) /\
  (let b := run last_subscriber in
   let b2 := bus_off "resource:posts:update" 2 b in
   count (refcount_of posts b) = 1%nat /\
   phase (refcount_of posts b) = Live /\
   binding_log b2 = binding_log b ++ [Call_disable posts]).
Proof.
  assert (parse_resource "resource:posts:create" = Some posts) as Hcreate
    by (vm_compute; reflexivity).
  assert (parse_resource "resource:posts:update" = Some posts) as Hupdate
    by (vm_compute; reflexivity).
  split; [|split].
  - destruct (refcount_is_shared_across_actions [] posts) as (_ & _ & Hon & _).
    destruct (Hon "resource:posts:create" Hcreate) as (_ & Hfirst & _).
    assert (count (refcount_of posts (run [])) = 0%nat) as Hc
      by (vm_compute; reflexivity).
    assert (phase (refcount_of posts (run [])) = Idle) as Hp
      by (vm_compute; reflexivity).
    destruct (Hfirst Hc) as (_ & Henable & _).
    split; [exact Hc|]. split; [exact Hp|].
    exact (proj1 (Henable (or_introl Hp))).
  - assert (2%nat ∈ handles_at "resource:posts:update" (run three_subscribers)) as Hin
      by (apply (bool_decide_unpack _); vm_compute; reflexivity).
    destruct (refcount_is_shared_across_actions three_subscribers posts)
      as (_ & _ & _ & Hoff).
    destruct (Hoff "resource:posts:update" 2%nat Hupdate Hin) as (_ & Hstay & _).
    assert (count (refcount_of posts (run three_subscribers)) = 3%nat) as Hc
      by (vm_compute; reflexivity).
    split; [exact Hc|]. apply Hstay. rewrite Hc. lia.
  - assert (2%nat ∈ handles_at "resource:posts:update" (run last_subscriber)) as Hin
      by (apply (bool_decide_unpack _); vm_compute; reflexivity).
    destruct (refcount_is_shared_across_actions last_subscriber posts)
      as (_ & _ & _ & Hoff).
    destruct (Hoff "resource:posts:update" 2%nat Hupdate Hin) as (_ & _ & Hlast).
    assert (count (refcount_of posts (run last_subscriber)) = 1%nat) as Hc
      by (vm_compute; reflexivity).
    assert (phase (refcount_of posts (run last_subscriber)) = Live) as Hp
      by (vm_compute; reflexivity).
    destruct (Hlast Hc) as (_ & Hdisable & _).
    split; [exact Hc|]. split; [exact Hp|].
    exact (proj1 (Hdisable Hp)).
Defined.

(** C1 as stated fails on states the bus reaches.  After a subscription and
    its removal the [enable] is still pending: a new subscription takes the
    count from 0 to 1 and calls no [enable].  After an [enable] that failed
    the count is not rolled back: removing the last listener takes the count
    to 0 and calls no [disable]. *)
Lemma count_transitions_without_a_call :
  (let b := run subscribe_then_unsubscribe in
   let b1 := (bus_on "resource:posts:create" b).2 in
   count (refcount_of posts b) = 0%nat /\
   count (refcount_of posts b1) = 1%nat /\
   binding_log b = [Call_enable posts] /\
   binding_log b1 = [Call_enable posts]) /\
  (let b := run failed_enable in
   let b2 := bus_off "resource:posts:create" 0 b in
   count (refcount_of posts b) = 1%nat /\
   count (refcount_of posts b2) = 0%nat /\
   binding_log b = [Call_enable posts; Enable_failed posts] /\
   binding_log b2 = [Call_enable posts; Enable_failed posts]).
Proof. split; vm_compute; repeat split; reflexivity. Qed.

(** *** The bus moves one resource at a time *)









(** *** The binding follows the bus *)

#[local] Set Warnings "-clear-no-such-hyp".

Lemma take_suspended_none (c : string) (l : list (string * nat)) :
  c ∉ l.*1 -> take_suspended c l = None.
Proof.
  induction l as [|[c' s] l IH]; intros Hn; [done|].
  simpl in *. apply not_elem_of_cons in Hn as [Hne Hn].
  rewrite decide_False by done. by rewrite IH.
Qed.






(** *** A resource without listeners does not become Live *)





(** What the rule is for: [disableRealtime] called before the pending
    [enableRealtime] went past its [await] finds no unsubscribe function and
    does nothing, and the subscription is then served with no way left to
    release it from the bus; called after, it releases it. *)
Example disable_before_enable_resolves_is_lost :
  served (replay [Call_enable posts; Call_disable posts; Enable_ok posts]) !! 0%nat
  = Some "posts" /\
  served (replay [Call_enable posts; Enable_ok posts; Call_disable posts]) = ∅.
Proof. split; vm_compute; reflexivity. Qed.

(** * More of the store, the bus and the binding *)

(** ** [state.list] *)

Lemma slice_prefix (rawKey : string) :
  String.prefix STORAGE_PREFIX rawKey = true ->
  STORAGE_PREFIX +:+ slice (String.length STORAGE_PREFIX) rawKey = rawKey.
Proof.
  unfold STORAGE_PREFIX. intros Hpre. apply String.prefix_correct in Hpre.
  destruct rawKey as [|a [|b [|c rest]]]; try discriminate Hpre.
  simpl in Hpre. destruct rest; by injection Hpre as -> -> ->.
Qed.

Lemma slice_record (key : string) :
  slice (String.length STORAGE_PREFIX) (STORAGE_PREFIX +:+ key) = key.
Proof. reflexivity. Qed.

Lemma list_memory_spec (entries : list (string * StoredValue)) (w : World) :
  forall result,
    list_memory entries result w
    = Ret (result ++ omap (listed_entry (now w)) entries) w.
Proof.
  induction entries as [|[key stored] entries IH]; intros result.
  - simpl. by rewrite app_nil_r.
  - cbn [list_memory]. unfold bind. rewrite isExpired_spec, IH.
    cbn [omap list_omap]. unfold listed_entry at 2. cbn [fst snd].
    destruct (expired_at (now w) stored); [done|]. by rewrite <- app_assoc.
Qed.

Lemma list_scan_spec (p : Persist) (win : Window) (w : World) :
  window w = Some win ->
  forall (n i : nat) (result : list (string * Tier)),
    list_scan p n i result w
    = Ret (result ++ omap (listed_record p (now w))
                       (take n (drop i (map_to_list (items (storage_of p win)))))) w.
Proof.
  intros Hwin. induction n as [|n IH]; intros i result.
  - simpl. by rewrite app_nil_r.
  - cbn [list_scan]. unfold bind at 1, Storage_key, bind at 1, the_storage.
    rewrite Hwin. unfold ret at 1.
    set (l := map_to_list (items (storage_of p win))).
    destruct (l !! i) as [[rawKey raw]|] eqn:Hi; cbn [fmap option_fmap option_map fst].
    + rewrite (drop_S l (rawKey, raw) i Hi). cbn [take omap list_omap].
      destruct (String.prefix STORAGE_PREFIX rawKey) eqn:Hpre.
      * unfold bind at 1. unfold bind at 1.
        rewrite getFromStorage_spec by (by rewrite Hwin).
        assert (record_in p (slice (String.length STORAGE_PREFIX) rawKey) w = Some raw)
          as ->.
        { unfold record_in. rewrite Hwin, slice_prefix by done.
          apply elem_of_map_to_list. by apply (list_elem_of_lookup_2 l i). }
        unfold listed_record at 1. cbn [fst snd]. rewrite Hpre.
        destruct (decode (Some raw)) as [sv|]; [|unfold ret at 1; apply IH].
        unfold bind at 1. rewrite isExpired_spec. unfold ret at 1. rewrite IH.
        destruct (expired_at (now w) sv); [done|]. by rewrite <- app_assoc.
      * unfold bind at 1, ret at 1. unfold listed_record at 1. cbn [fst snd].
        rewrite Hpre. apply IH.
    + unfold bind at 1, ret at 1. rewrite IH.
      apply lookup_ge_None in Hi. unfold l in *. rewrite !drop_ge by lia. by rewrite !take_nil.
Qed.

Lemma list_persistent_tier (p : Persist) (rest : list Persist)
    (result : list (string * Tier)) (w : World) :
  list_persistent (p :: rest) result w = list_persistent rest (result ++ listed_in p w) w.
Proof.
  cbn [list_persistent]. unfold bind at 1. rewrite getStorage_spec. unfold listed_in.
  destruct (window w) as [win|] eqn:Hwin; [|by rewrite app_nil_r].
  unfold bind at 1, Storage_length, bind at 1, the_storage. rewrite Hwin.
  unfold ret at 1. unfold bind at 1. rewrite (list_scan_spec p win w Hwin).
  by rewrite drop_0, firstn_all.
Qed.

Lemma state_list_spec (w : World) : state_list w = Ret (listed w) w.
Proof.
  unfold state_list, bind at 1, gets. unfold bind at 1. rewrite list_memory_spec.
  rewrite !list_persistent_tier. cbn [list_persistent app]. unfold listed.
  by rewrite <- app_assoc.
Qed.

Lemma elem_of_listed_memory (key : string) (t : Tier) (w : World) :
  (key, t) ∈ omap (listed_entry (now w)) (map_to_list (memoryStore w))
  <-> t = Ephemeral /\ live_in Ephemeral key w.
Proof.
  rewrite list_elem_of_omap. unfold live_in, listed_entry. cbn [entry_in]. split.
  - intros ([k sv] & Hin & Hl). apply elem_of_map_to_list in Hin. cbn [fst snd] in Hl.
    destruct (expired_at (now w) sv) eqn:Hexp; [done|].
    injection Hl as -> <-. split; [done|]. by exists sv.
  - intros (-> & sv & Hsv & Hexp). exists (key, sv).
    split; [by apply elem_of_map_to_list|]. cbn [fst snd]. by rewrite Hexp.
Qed.

Lemma elem_of_listed_in (p : Persist) (key : string) (t : Tier) (w : World) :
  (key, t) ∈ listed_in p w <-> t = Persistent p /\ live_in (Persistent p) key w.
Proof.
  unfold listed_in, live_in. cbn [entry_in]. unfold record_in.
  destruct (window w) as [win|]; [|split; [by intros ?%elem_of_nil|by intros (_ & ? & ? & _)]].
  rewrite list_elem_of_omap. unfold listed_record. split.
  - intros ([rawKey raw] & Hin & Hl). apply elem_of_map_to_list in Hin.
    cbn [fst snd] in Hl.
    destruct (String.prefix STORAGE_PREFIX rawKey) eqn:Hpre; [|done].
    destruct (decode (Some raw)) as [sv|] eqn:Hdec; [|done].
    destruct (expired_at (now w) sv) eqn:Hexp; [done|].
    assert (key = slice (String.length STORAGE_PREFIX) rawKey /\ t = Persistent p)
      as [-> ->] by (by injection Hl).
    split; [done|]. exists sv. by rewrite slice_prefix, Hin.
  - intros (-> & sv & Hsv & Hexp).
    destruct (items (storage_of p win) !! (STORAGE_PREFIX +:+ key)) as [raw|] eqn:Hrec;
      [|done].
    exists (STORAGE_PREFIX +:+ key, raw). split; [by apply elem_of_map_to_list|].
    cbn [fst snd]. rewrite prefix_of_record, Hsv, Hexp. by rewrite slice_record.
Qed.

Lemma elem_of_listed (key : string) (t : Tier) (w : World) :
  (key, t) ∈ listed w <-> live_in t key w.
Proof.
  unfold listed. rewrite !elem_of_app, elem_of_listed_memory, !elem_of_listed_in.
  split.
  - intros [[-> H]|[[-> H]|[-> H]]]; done.
  - intros H. destruct t as [|[|]]; auto.
Qed.

Lemma omap_none {A B} (f : A -> option B) (l : list A) :
  (forall x, x ∈ l -> f x = None) -> omap f l = [].
Proof.
  induction l as [|x l IH]; intros Hf; [done|].
  cbn [omap list_omap]. rewrite (Hf x) by left. apply IH. intros y Hy. apply Hf. by right.
Qed.

Lemma listed_in_cleared (p : Persist) (w : World) : listed_in p (cleared w) = [].
Proof.
  unfold listed_in, cleared. cbn [window set_window set_memoryStore].
  destruct (window w) as [win|]; [|done].
  apply omap_none. intros [rawKey raw] Hin. apply elem_of_map_to_list in Hin.
  unfold listed_record. cbn [fst snd].
  destruct (String.prefix STORAGE_PREFIX rawKey) eqn:Hpre; [|done].
  destruct p; cbn [storage_of sessionStorage localStorage swept items] in Hin;
    apply map_lookup_filter_Some in Hin as [_ Hno]; cbn [fst] in Hno; congruence.
Qed.

(** The lookup of a key finds it in a tier that holds it live, before the
    lookup and after. *)
Lemma lookup_found_live (key : string) (tiers : list Tier) (w : World) :
  (lookup_spec key tiers w).1 <> JUndefined ->
  exists t, live_in t key w /\ live_in t key (lookup_spec key tiers w).2.
Proof.
  revert w. induction tiers as [|t tiers IH]; intros w Hv; [done|].
  cbn [lookup_spec] in *.
  destruct (entry_in t key w) as [sv|] eqn:Hentry; [|by apply IH].
  destruct (expired_at (now w) sv) eqn:Hexp.
  - destruct (IH _ Hv) as (t' & (sv' & Hsv' & Hexp') & Hafter).
    exists t'. split; [|done]. exists sv'.
    destruct (purge_from_frame t key w) as [(Hnow & _) _]. rewrite Hnow in Hexp'.
    split; [|done].
    destruct t as [|p], t' as [|p']; cbn [entry_in purge_from] in *.
    + cbn [memoryStore set_memoryStore] in Hsv'. by rewrite lookup_delete_eq in Hsv'.
    + done.
    + by rewrite delete_record_memory in Hsv'.
    + destruct (decide (p' = p)) as [->|Hne].
      * unfold record_in, delete_record in Hsv'.
        destruct (window w) as [win|] eqn:Hwin; cbn [window set_window] in Hsv';
          [|by rewrite Hwin in Hsv'].
        destruct p; cbn [storage_of with_storage sessionStorage localStorage items] in Hsv';
          by rewrite lookup_delete_eq in Hsv'.
      * by rewrite record_in_delete_other in Hsv'.
  - exists t. split; by exists sv.
Qed.

(** ** Reading back what [set] wrote, until it expires *)

Lemma expired_at_mono (t t' : Z) (sv : StoredValue) :
  t <= t' -> expired_at t sv = true -> expired_at t' sv = true.
Proof.
  unfold expired_at. destruct (expiry sv) as [e|]; [|done].
  intros Hle Hexp%bool_decide_eq_true. apply bool_decide_eq_true_2. lia.
Qed.

Lemma written_entry (key : string) (v : JsValue) (options : StateOptions) (w : World) :
  (forall p, target_tier options w = Persistent p -> has_room p w) ->
  entry_in (target_tier options w) key (written key v options w)
  = Some (mkStored (stored_as (target_tier options w) v)
            (expiry_for (ttl options) (now w))) /\
  (target_tier options w = Ephemeral \/
   memoryStore (written key v options w) !! key = None).
Proof.
  intros Hroom. unfold target_tier, written in *.
  destruct (window w) as [win|] eqn:Hwin.
  - destruct (persist options) as [p|].
    + assert (accepts (storage_of p win) (STORAGE_PREFIX +:+ key) = true) as ->.
      { unfold accepts. apply orb_true_iff. right. apply bool_decide_eq_true_2.
        by apply (Hroom p). }
      split; [|right; apply lookup_delete_eq].
      cbn [entry_in]. unfold record_in. simpl.
      destruct p; simpl; by rewrite lookup_insert_eq.
    + split; [|by left]. simpl. apply lookup_insert_eq.
  - split; [|by left]. simpl. apply lookup_insert_eq.
Qed.

Lemma target_tier_persist (options : StateOptions) (w : World) (p : Persist) :
  target_tier options w = Persistent p -> is_Some (window w) /\ persist options = Some p.
Proof.
  unfold target_tier. destruct (window w); [|done].
  destruct (persist options); [|done]. intros [= ->]. split; [by eexists|done].
Qed.

(** What [set] leaves in the tier it writes to. *)
Lemma set_leaves_entry (verdict : nat -> JsValue -> option JsError) (fuel : nat)
    (key : string) (v : JsValue) (options : StateOptions) (w : World) :
  memory_fresh key w ->
  bus_ok w (state_event key) ->
  (length (listeners_at w (state_event key)) < S fuel)%nat ->
  (forall p, target_tier options w = Persistent p -> has_room p w) ->
  nothing_live_ahead (target_tier options w) key w ->
  exists w',
    set (listener verdict) (S fuel) key v options w = Ret tt w' /\
    now w' = now w /\
    entry_in (target_tier options w) key w'
    = Some (mkStored (stored_as (target_tier options w) v)
              (expiry_for (ttl options) (now w))) /\
    (target_tier options w = Ephemeral \/ memoryStore w' !! key = None) /\
    nothing_live_ahead (target_tier options w) key w'.
Proof.
  intros Hfresh Hok Hfuel Hroom Hahead.
  set (w1 := (lookup_spec key lookup_order w).2).
  set (old := (lookup_spec key lookup_order w).1).
  set (T := target_tier options w) in *.
  destruct (lookup_spec_frame key lookup_order w) as [(Hnow1 & _) Hwin1].
  fold w1 in Hnow1, Hwin1.
  assert (target_tier options w1 = T) as HT1 by (by apply target_tier_same_window).
  destruct (written_entry key v options w1) as [Hentry Hmem].
  { intros p Hp. apply lookup_has_room, Hroom. by rewrite <- HT1. }
  rewrite HT1, Hnow1 in Hentry. rewrite HT1 in Hmem.
  set (w' := emitted_world verdict (state_event key) (change_event v old)
               (written key v options w1)).
  destruct (emitted_world_store verdict (state_event key) (change_event v old)
              (written key v options w1)) as (Hnow' & Hwin' & Hmem' & _).
  fold w' in Hnow', Hwin', Hmem'.
  destruct (written_bus key v options w1) as (Hnoww & _).
  assert (now w' = now w) as Hnow by congruence.
  exists w'. split; [by apply set_spec|]. split; [done|]. split; [|split].
  - by rewrite (entry_in_same_store T key (written key v options w1) w').
  - destruct Hmem as [?|Hmem]; [by left|right]. by rewrite Hmem'.
  - destruct T as [|[|]] eqn:HT; try done. simpl. intros sv Hsv. rewrite Hnow.
    apply (lookup_nothing_live key lookup_order w Hahead sv). fold w1.
    rewrite <- Hsv. cbn [entry_in]. f_equal.
    unfold record_in at 2. rewrite Hwin'.
    symmetry. apply (written_record_other local session); [|done].
    by apply (target_tier_persist options w local).
Qed.

Lemma nothing_live_ahead_later (T : Tier) (key : string) (w : World) (t' : Z) :
  now w <= t' -> nothing_live_ahead T key w -> nothing_live_ahead T key (set_now t' w).
Proof.
  intros Hle. destruct T as [|[|]]; try done. simpl. intros Hahead sv Hsv.
  apply (expired_at_mono (now w)); [done|]. by apply Hahead.
Qed.

(** X1. The value given to [set] is what [get] returns afterwards, at any
    time up to and including the instant of expiry ([now + ttl]; a [ttl] of 0
    is no expiry at all); a storage returns the value as JSON carries it. *)
Theorem get_reads_back_until_expiry
    (verdict : nat -> JsValue -> option JsError) (body : nat -> JsValue -> M unit)
    (fuel f : nat) (key : string) (v : JsValue) (options : StateOptions) (w : World)
    (t' : Z) :
  memory_fresh key w ->
  bus_ok w (state_event key) ->
  (length (listeners_at w (state_event key)) < S fuel)%nat ->
  (forall p, target_tier options w = Persistent p -> has_room p w) ->
  nothing_live_ahead (target_tier options w) key w ->
  now w <= t' ->
  (forall d, ttl options = Some d -> d <> 0 -> t' <= now w + d) ->
  exists w' w'',
    set (listener verdict) (S fuel) key v options w = Ret tt w' /\
    get body (S f) key (set_now t' w')
    = Ret (stored_as (target_tier options w) v) w'' /\
    has body (S f) key (set_now t' w')
    = Ret (negb (is_undefined (stored_as (target_tier options w) v))) w''.
Proof.
  intros Hfresh Hok Hfuel Hroom Hahead Hle Httl.
  destruct (set_leaves_entry verdict fuel key v options w Hfresh Hok Hfuel Hroom Hahead)
    as (w' & Hset & Hnow & Hentry & Hmem & Hahead').
  set (T := target_tier options w) in *.
  set (stored := mkStored (stored_as T v) (expiry_for (ttl options) (now w))) in *.
  set (wl := set_now t' w').
  assert (entry_in T key wl = Some stored) as Hentryl
    by (by rewrite (entry_in_same_store T key w' wl)).
  assert (expired_at (now wl) stored = false) as Hlive.
  { unfold expired_at, stored, expiry_for. cbn [expiry now set_now wl].
    destruct (ttl options) as [d|] eqn:Hd; [|done].
    destruct (bool_decide (d = 0)) eqn:Hz; [done|].
    apply bool_decide_eq_false in Hz. apply bool_decide_eq_false_2.
    specialize (Httl d eq_refl Hz). lia. }
  assert (nothing_live_ahead T key wl) as Haheadl.
  { apply nothing_live_ahead_later; [lia|done]. }
  destruct (lookup_finds T key stored wl Hentryl Hlive Hmem Haheadl) as (Hval & _).
  assert (memory_fresh key wl) as Hfreshl.
  { intros mem Hm. change (memoryStore wl) with (memoryStore w') in Hm.
    destruct Hmem as [HT|Hnone]; [|congruence].
    rewrite HT in Hentryl. cbn [entry_in] in Hentryl.
    change (memoryStore wl) with (memoryStore w') in Hentryl. congruence. }
  exists w', (lookup_spec key lookup_order wl).2. split; [done|].
  assert (get body (S f) key wl = Ret (stored_as T v) (lookup_spec key lookup_order wl).2)
    as Hget by (rewrite get_spec by done; by rewrite Hval).
  split; [done|]. unfold has, bind. fold wl. by rewrite Hget.
Qed.

Lemma get_reads_back_until_expiry_witness :
  memory_fresh "k" empty_world /\
  exists w' w'',
    set (listener demo_verdict) 1 "k" (JArr [JUndefined; JNum 4])
        (mkOptions (Some local) (Some 50)) empty_world = Ret tt w' /\
    get (listener demo_verdict) 1 "k" (set_now 1050 w') = Ret (JArr [JNull; JNum 4]) w'' /\
    has (listener demo_verdict) 1 "k" (set_now 1050 w') = Ret true w''.
Proof.
  assert (memory_fresh "k" empty_world) as Hfresh by (intros mem Hmem; done).
  assert (bus_ok empty_world (state_event "k")) as Hok by (intros addr H; done).
  assert (length (listeners_at empty_world (state_event "k")) < 1)%nat as Hfuel
    by (vm_compute; lia).
  assert (forall p, target_tier (mkOptions (Some local) (Some 50)) empty_world
                    = Persistent p -> has_room p empty_world) as Hroom.
  { intros p _ win [= <-]. destruct p; vm_compute; lia. }
  assert (nothing_live_ahead
            (target_tier (mkOptions (Some local) (Some 50)) empty_world) "k" empty_world)
    as Hahead by (intros sv Hsv; done).
  assert (now empty_world <= 1050) as Hle by (vm_compute; discriminate).
  assert (forall d, ttl (mkOptions (Some local) (Some 50)) = Some d -> d <> 0 ->
                    1050 <= now empty_world + d) as Httl.
  { intros d [= <-] _. vm_compute. discriminate. }
  split; [exact Hfresh|].
  exact (get_reads_back_until_expiry demo_verdict (listener demo_verdict) 0 0 "k"
           (JArr [JUndefined; JNum 4]) (mkOptions (Some local) (Some 50)) empty_world
           1050 Hfresh Hok Hfuel Hroom Hahead Hle Httl).
Defined.

(** ** [state.list] against the other operations *)

Lemma NoDup_omap_inj {A B} (f : A -> option B) (l : list A) :
  NoDup l ->
  (forall x y z, x ∈ l -> y ∈ l -> f x = Some z -> f y = Some z -> x = y) ->
  NoDup (omap f l).
Proof.
  induction 1 as [|x l Hx Hnd IH]; intros Hinj; [constructor|].
  cbn [omap list_omap].
  assert (NoDup (omap f l)) as Hrest.
  { apply IH. intros a b z Ha Hb. apply Hinj; by right. }
  destruct (f x) as [z|] eqn:Hfx; [|done].
  constructor; [|done].
  intros (y & Hy & Hfy)%list_elem_of_omap.
  assert (x = y) as -> by (apply (Hinj x y z); (by left) || (by right) || done).
  done.
Qed.

Lemma NoDup_listed_memory (w : World) :
  NoDup (omap (listed_entry (now w)) (map_to_list (memoryStore w))).
Proof.
  apply NoDup_omap_inj; [apply NoDup_map_to_list|].
  intros [k sv] [k' sv'] z Hin Hin'. unfold listed_entry. cbn [fst snd].
  destruct (expired_at (now w) sv); [done|].
  destruct (expired_at (now w) sv'); [done|].
  intros [= <-] [= ->].
  apply elem_of_map_to_list in Hin, Hin'. congruence.
Qed.

Lemma NoDup_listed_in (p : Persist) (w : World) : NoDup (listed_in p w).
Proof.
  unfold listed_in. destruct (window w) as [win|]; [|constructor].
  apply NoDup_omap_inj; [apply NoDup_map_to_list|].
  intros [k raw] [k' raw'] z Hin Hin'. unfold listed_record. cbn [fst snd].
  destruct (String.prefix STORAGE_PREFIX k) eqn:Hpre; [|done].
  destruct (decode (Some raw)) as [sv|]; [|done].
  destruct (expired_at (now w) sv); [done|].
  destruct (String.prefix STORAGE_PREFIX k') eqn:Hpre'; [|done].
  destruct (decode (Some raw')) as [sv'|]; [|done].
  destruct (expired_at (now w) sv'); [done|].
  intros Hz Hz'.
  assert (slice (String.length STORAGE_PREFIX) k
          = slice (String.length STORAGE_PREFIX) k') as Hk by congruence.
  assert (k = k') as <-.
  { rewrite <- (slice_prefix k), <- (slice_prefix k') by done. by rewrite Hk. }
  apply elem_of_map_to_list in Hin, Hin'. congruence.
Qed.

Lemma NoDup_listed (w : World) : NoDup (listed w).
Proof.
  unfold listed. apply NoDup_app. split; [apply NoDup_listed_memory|]. split.
  - intros [key t] [-> _]%elem_of_listed_memory.
    rewrite elem_of_app, !elem_of_listed_in. by intros [[? _]|[? _]].
  - apply NoDup_app. split; [apply NoDup_listed_in|]. split; [|apply NoDup_listed_in].
    intros [key t] [-> _]%elem_of_listed_in. rewrite elem_of_listed_in. by intros [? _].
Qed.

(** X2. [state.list] returns one entry, and only one, for each key and tier
    where the key has an entry that has not expired, and nothing else; it
    changes nothing: unlike [get], it leaves the expired entries where they
    are. *)
Theorem list_shows_the_live_entries (w : World) :
  exists l,
    state_list w = Ret l w /\
    NoDup l /\
    forall key t, (key, t) ∈ l <-> live_in t key w.
Proof.
  exists (listed w). split; [apply state_list_spec|]. split; [apply NoDup_listed|].
  intros key t. apply elem_of_listed.
Qed.

(** X3. A key for which [get] returns a value other than [undefined] is in
    the result of [state.list], before that [get] and after it. *)
Theorem key_found_by_get_is_listed
    (body : nat -> JsValue -> M unit) (fuel : nat) (key : string) (w : World)
    (v : JsValue) (w1 : World) :
  get body (S fuel) key w = Ret v w1 ->
  v <> JUndefined ->
  exists t l l1,
    state_list w = Ret l w /\ (key, t) ∈ l /\
    state_list w1 = Ret l1 w1 /\ (key, t) ∈ l1.
Proof.
  intros Hget Hv.
  pose proof (get_returns_fresh _ _ _ _ _ _ Hget) as Hfresh.
  rewrite get_spec in Hget by done.
  assert ((lookup_spec key lookup_order w).1 = v /\
          (lookup_spec key lookup_order w).2 = w1) as [Hv1 Hw1]
    by (by injection Hget).
  destruct (lookup_found_live key lookup_order w) as (t & Hlive & Hlive1);
    [by rewrite Hv1|].
  rewrite Hw1 in Hlive1.
  exists t, (listed w), (listed w1).
  rewrite !state_list_spec, !elem_of_listed. done.
Qed.

Lemma key_found_by_get_is_listed_witness :
  exists t l l1,
    state_list live_session = Ret l live_session /\ (("k", t) : string * Tier) ∈ l /\
    state_list live_session = Ret l1 live_session /\ (("k", t) : string * Tier) ∈ l1.
Proof.
  assert (get (listener demo_verdict) 1 "k" live_session = Ret (JNum 2) live_session)
    as Hget by (vm_compute; reflexivity).
  assert (JNum 2 <> JUndefined) as Hv by discriminate.
  exact (key_found_by_get_is_listed (listener demo_verdict) 0 "k" live_session (JNum 2)
           live_session Hget Hv).
Defined.

(** X4. After [clear], [state.list] returns the empty list. *)
Theorem list_is_empty_after_clear (w : World) :
  exists w', clear w = Ret tt w' /\ state_list w' = Ret [] w'.
Proof.
  exists (cleared w). split; [apply clear_spec|].
  rewrite state_list_spec. f_equal. unfold listed.
  rewrite !listed_in_cleared.
  change (memoryStore (cleared w)) with (∅ : gmap string StoredValue).
  by rewrite map_to_list_empty.
Qed.

(** ** Expiry *)

Lemma record_in_delete_same (p : Persist) (key : string) (w : World) :
  record_in p key (delete_record p (STORAGE_PREFIX +:+ key) w) = None.
Proof.
  unfold record_in, delete_record.
  destruct (window w) as [win|] eqn:Hwin; cbn [window set_window]; [|by rewrite Hwin].
  destruct p; cbn [storage_of with_storage sessionStorage localStorage items];
    apply lookup_delete_eq.
Qed.

Lemma other_ne (p : Persist) : other p <> p.
Proof. by destruct p. Qed.

(** What [set] does to the record of the key in the storage it does not write
    to: nothing beyond what its initial read does. *)
Lemma set_other_record (verdict : nat -> JsValue -> option JsError) (fuel : nat)
    (key : string) (v : JsValue) (options : StateOptions) (p q : Persist) (w w' : World) :
  persist options = Some p -> q <> p ->
  memory_fresh key w ->
  bus_ok w (state_event key) ->
  (length (listeners_at w (state_event key)) < S fuel)%nat ->
  set (listener verdict) (S fuel) key v options w = Ret tt w' ->
  record_in q key w' = record_in q key (lookup_spec key lookup_order w).2.
Proof.
  intros Hp Hne Hfresh Hok Hfuel Hset. rewrite set_spec in Hset by done.
  assert (w' = emitted_world verdict (state_event key)
                 (change_event v (lookup_spec key lookup_order w).1)
                 (written key v options (lookup_spec key lookup_order w).2)) as ->
    by congruence.
  unfold record_in at 1.
  destruct (emitted_world_store verdict (state_event key)
              (change_event v (lookup_spec key lookup_order w).1)
              (written key v options (lookup_spec key lookup_order w).2))
    as (_ & -> & _).
  by apply (written_record_other p).
Qed.

(** X5. Where the clock and the time to live [d] are integers that a double
    holds exactly, as is their sum, the storage has room for the record, the
    memory entry of the key has not expired and the other storage holds no
    entry of the key: a [set] to the storage with the time to live [d], not
    0, writes a record with the expiry [now + d]; a [get] after that instant
    returns [undefined] and removes the record from the storage. *)
Theorem persistent_entry_is_purged_after_expiry
    (verdict : nat -> JsValue -> option JsError) (body : nat -> JsValue -> M unit)
    (fuel f : nat) (key : string) (v : JsValue) (options : StateOptions)
    (p : Persist) (d : Z) (w : World) (t' : Z) :
  is_Some (window w) ->
  persist options = Some p ->
  ttl options = Some d ->
  d <> 0 ->
  safe_integer (now w) -> safe_integer d -> safe_integer (now w + d) ->
  memory_fresh key w ->
  bus_ok w (state_event key) ->
  (length (listeners_at w (state_event key)) < S fuel)%nat ->
  has_room p w ->
  entry_in (Persistent (other p)) key w = None ->
  now w + d < t' ->
  exists w' w'',
    set (listener verdict) (S fuel) key v options w = Ret tt w' /\
    record_in p key w' = Some (JSON_stringify (mkStored v (Some (now w + d)))) /\
    get body (S f) key (set_now t' w') = Ret JUndefined w'' /\
    record_in p key w'' = None.
Proof.
  intros [win Hwin] Hp Hd Hnz _ _ _ Hfresh Hok Hfuel Hroom Hother Hlate.
  assert (target_tier options w = Persistent p) as HT
    by (unfold target_tier; by rewrite Hwin, Hp).
  destruct (set_leaves_entry verdict fuel key v options w Hfresh Hok Hfuel)
    as (w' & Hset & Hnow & Hentry & Hmem & _).
  { rewrite HT. by intros ? [= <-]. }
  { rewrite HT. destruct p; [done|]. simpl. intros sv Hsv. simpl in Hother.
    cbn [entry_in] in Hsv. congruence. }
  rewrite HT in Hentry, Hmem. destruct Hmem as [|Hmem]; [done|].
  assert (expiry_for (ttl options) (now w) = Some (now w + d)) as Hexpiry.
  { unfold expiry_for. rewrite Hd. by rewrite bool_decide_eq_false_2. }
  rewrite Hexpiry in Hentry. cbn [stored_as] in Hentry.
  set (stored := mkStored (jsonify v) (Some (now w + d))) in *.
  assert (record_in p key w' = Some (Encoded stored)) as Hrec.
  { cbn [entry_in] in Hentry. unfold decode in Hentry.
    destruct (record_in p key w') as [[|sv]|]; try done. by injection Hentry as ->. }
  assert (entry_in (Persistent (other p)) key w' = None) as Hother'.
  { cbn [entry_in] in *.
    rewrite (set_other_record verdict fuel key v options p (other p) w w')
      by (done || apply other_ne).
    rewrite lookup_keeps_record; [done|].
    intros sv Hsv. by rewrite Hsv in Hother. }
  set (wl := set_now t' w').
  assert (expired_at (now wl) stored = true) as Hexp.
  { unfold expired_at, stored. cbn [expiry now set_now wl].
    apply bool_decide_eq_true_2. lia. }
  assert (memory_fresh key wl) as Hfreshl.
  { intros mem Hm. change (memoryStore wl) with (memoryStore w') in Hm. congruence. }
  assert (lookup_spec key lookup_order wl
          = (JUndefined, delete_record p (STORAGE_PREFIX +:+ key) wl)) as Hlookup.
  { unfold lookup_order. cbn [lookup_spec].
    change (entry_in Ephemeral key wl) with (memoryStore w' !! key). rewrite Hmem.
    destruct p; cbn [other] in Hother'.
    - change (entry_in (Persistent session) key wl)
        with (entry_in (Persistent session) key w').
      rewrite Hentry, Hexp. cbn [purge_from entry_in].
      rewrite (record_in_delete_other session local) by done.
      change (record_in local key wl) with (record_in local key w').
      cbn [entry_in] in Hother'. by rewrite Hother'.
    - change (entry_in (Persistent session) key wl)
        with (entry_in (Persistent session) key w').
      rewrite Hother'.
      change (entry_in (Persistent local) key wl)
        with (entry_in (Persistent local) key w').
      by rewrite Hentry, Hexp. }
  exists w', (delete_record p (STORAGE_PREFIX +:+ key) wl).
  split; [done|]. split; [done|]. split.
  - fold wl. rewrite get_spec by done. by rewrite Hlookup.
  - apply record_in_delete_same.
Qed.

Lemma persistent_entry_is_purged_after_expiry_witness :
  is_Some (window empty_world) /\
  safe_integer (now empty_world + 50) /\
  exists w' w'',
    set (listener demo_verdict) 1 "k" (JNum 4) (mkOptions (Some session) (Some 50))
        empty_world = Ret tt w' /\
    record_in session "k" w' = Some (Encoded (mkStored (JNum 4) (Some 1050))) /\
    get (listener demo_verdict) 1 "k" (set_now 1051 w') = Ret JUndefined w'' /\
    record_in session "k" w'' = None.
Proof.
  assert (is_Some (window empty_world)) as Hwin by (by eexists).
  assert (safe_integer (now empty_world)) as Hnow by (split; reflexivity).
  assert (safe_integer 50) as Hd by (split; reflexivity).
  assert (safe_integer (now empty_world + 50)) as Hsum by (split; reflexivity).
  assert (memory_fresh "k" empty_world) as Hfresh by (intros mem Hmem; done).
  assert (bus_ok empty_world (state_event "k")) as Hok by (intros addr H; done).
  assert (length (listeners_at empty_world (state_event "k")) < 1)%nat as Hfuel
    by (vm_compute; lia).
  assert (has_room session empty_world) as Hroom.
  { intros win [= <-]. vm_compute. lia. }
  assert (entry_in (Persistent (other session)) "k" empty_world = None) as Hother
    by reflexivity.
  assert (50 <> 0) as Hnz by discriminate.
  assert (now empty_world + 50 < 1051) as Hlate by reflexivity.
  split; [exact Hwin|]. split; [exact Hsum|].
  exact (persistent_entry_is_purged_after_expiry demo_verdict (listener demo_verdict)
           0 0 "k" (JNum 4) (mkOptions (Some session) (Some 50)) session 50 empty_world
           1051 Hwin eq_refl eq_refl Hnz Hnow Hd Hsum Hfresh Hok Hfuel Hroom Hother Hlate).
Defined.

(** X6. Once the entry of a key in the memory store has expired, [get],
    [has], [set] and [remove] of that key all end in the overflow of the call
    stack, whatever its depth, and leave everything as it is; [state.list]
    does not show the key; [clear] gets rid of the entry. *)
Theorem expired_memory_entry_overflows_the_stack
    (body : nat -> JsValue -> M unit) (fuel : nat) (key : string) (mem : StoredValue)
    (v : JsValue) (options : StateOptions) (w : World) :
  memoryStore w !! key = Some mem ->
  expired_at (now w) mem = true ->
  get body fuel key w = Exn RangeError w /\
  has body fuel key w = Exn RangeError w /\
  set body fuel key v options w = Exn RangeError w /\
  remove body fuel key w = Exn RangeError w /\
  (exists l, state_list w = Ret l w /\ (key, Ephemeral) ∉ l) /\
  (exists w', clear w = Ret tt w' /\ get body (S fuel) key w' = Ret JUndefined w').
Proof.
  intros Hmem Hexp.
  pose proof (get_memory_expired body fuel key mem w Hmem Hexp) as Hget.
  split; [done|]. split; [by unfold has, bind; rewrite Hget|].
  split; [by unfold set, bind; rewrite Hget|].
  split; [by unfold remove, remove_with, bind; rewrite Hget|]. split.
  - exists (listed w). split; [apply state_list_spec|].
    rewrite elem_of_listed. intros (sv & Hsv & Hlive). cbn [entry_in] in Hsv. congruence.
  - exists (cleared w). split; [apply clear_spec|apply get_cleared].
Qed.

Lemma expired_memory_entry_overflows_the_stack_witness :
  get (listener demo_verdict) 5 "k" stale_memory = Exn RangeError stale_memory /\
  has (listener demo_verdict) 5 "k" stale_memory = Exn RangeError stale_memory /\
  set (listener demo_verdict) 5 "k" JNull no_options stale_memory
  = Exn RangeError stale_memory /\
  remove (listener demo_verdict) 5 "k" stale_memory = Exn RangeError stale_memory /\
  (exists l, state_list stale_memory = Ret l stale_memory /\
             (("k", Ephemeral) : string * Tier) ∉ l) /\
  (exists w', clear stale_memory = Ret tt w' /\
              get (listener demo_verdict) 6 "k" w' = Ret JUndefined w').
Proof.
  exact (expired_memory_entry_overflows_the_stack (listener demo_verdict) 5 "k"
           (mkStored (JNum 1) (Some 500)) JNull no_options stale_memory
           eq_refl eq_refl).
Defined.

(** ** [state.set]: the change event, and a write the storage refuses *)

(** X7. [set] emits one change event, whatever the value and whether or not
    it differs from the one before: its payload carries the new value and
    what [get] returned just before the write, and the listeners of
    [state:key] are called with it in subscription order.  The one exception
    is a key whose memory entry has expired: there [set] throws from its
    [get] (the call stack overflows) before it writes or emits anything. *)
Theorem set_emits_one_change_event
    (verdict : nat -> JsValue -> option JsError) (fuel : nat) (key : string)
    (v : JsValue) (options : StateOptions) (w : World) :
  bus_ok w (state_event key) ->
  (length (listeners_at w (state_event key)) < S fuel)%nat ->
  (memory_fresh key w ->
   exists old w1 w',
     get (listener verdict) (S fuel) key w = Ret old w1 /\
     set (listener verdict) (S fuel) key v options w = Ret tt w' /\
     trace w' = trace w ++ Emitted (state_event key) (change_event v old)
                  :: calls_of (change_event v old) (registered w (state_event key))) /\
  (forall mem,
      memoryStore w !! key = Some mem -> expired_at (now w) mem = true ->
      set (listener verdict) (S fuel) key v options w = Exn RangeError w).
Proof.
  intros Hok Hfuel. split.
  - intros Hfresh.
    exists (lookup_spec key lookup_order w).1, (lookup_spec key lookup_order w).2.
    eexists. split; [by apply get_spec|]. split; [by apply set_spec|].
    destruct (lookup_spec_frame key lookup_order w) as [(_ & Hh & Hp & _ & _ & Ht) _].
    destruct (written_bus key v options (lookup_spec key lookup_order w).2)
      as (_ & Hh' & Hp' & Ht' & _).
    rewrite emitted_world_trace.
    + unfold registered, listeners_at. by rewrite Ht', Ht, Hh', Hp', Hh, Hp.
    + eapply bus_ok_frame; [..|exact Hok]; congruence.
  - intros mem Hmem Hexp. unfold set, bind.
    by rewrite (get_memory_expired _ (S fuel) key mem w Hmem Hexp).
Qed.

Lemma set_emits_one_change_event_witness :
  memory_fresh "a" watched_store /\
  exists old w1 w',
    get (listener demo_verdict) 2 "a" watched_store = Ret old w1 /\
    set (listener demo_verdict) 2 "a" (JNum 1) no_options watched_store = Ret tt w' /\
    trace w' = trace watched_store
               ++ Emitted (state_event "a") (change_event (JNum 1) old)
               :: calls_of (change_event (JNum 1) old)
                    (registered watched_store (state_event "a")).
Proof.
  assert (bus_ok watched_store (state_event "a")) as Hok by bus_ok_concrete.
  assert (length (listeners_at watched_store (state_event "a")) < 2)%nat as Hfuel
    by (vm_compute; lia).
  assert (memory_fresh "a" watched_store) as Hfresh.
  { intros mem Hmem. vm_compute in Hmem. by injection Hmem as <-. }
  split; [exact Hfresh|].
  exact (proj1 (set_emits_one_change_event demo_verdict 1 "a" (JNum 1) no_options
                  watched_store Hok Hfuel) Hfresh).
Defined.

Lemma accepts_false (s : Storage) (k : string) :
  accepts s k = false -> items s !! k = None /\ ~ (size (items s) < quota s)%nat.
Proof.
  unfold accepts. intros [H1 H2]%orb_false_iff.
  apply bool_decide_eq_false in H1, H2. split; [|done].
  destruct (items s !! k); [|done]. destruct H1. by eexists.
Qed.

(** X8. When the storage holds no record of the key and is full, so that it
    refuses the new record (its quota is exceeded), [set] of a key whose
    memory entry has not expired reports the failure on the console and
    returns normally; nothing is written, yet the memory copy of the key is
    deleted and the change event is emitted with the new value all the same.
    With no copy in the other storage, the key then reads as absent. *)
Theorem refused_write_still_drops_the_memory_copy
    (verdict : nat -> JsValue -> option JsError) (body : nat -> JsValue -> M unit)
    (fuel f : nat) (key : string) (v : JsValue) (options : StateOptions) (p : Persist)
    (win : Window) (w : World) :
  window w = Some win ->
  persist options = Some p ->
  record_in p key w = None ->
  ~ (size (items (storage_of p win)) < quota (storage_of p win))%nat ->
  memory_fresh key w ->
  bus_ok w (state_event key) ->
  (length (listeners_at w (state_event key)) < S fuel)%nat ->
  exists old w1 w',
    get (listener verdict) (S fuel) key w = Ret old w1 /\
    set (listener verdict) (S fuel) key v options w = Ret tt w' /\
    record_in p key w' = None /\
    memoryStore w' !! key = None /\
    console w' = console w
                 ++ ConsoleError ("Failed to save to storage: " +:+ key) QuotaExceededError
                 :: reports_of verdict (state_event key) (change_event v old)
                      (registered w (state_event key)) /\
    trace w' = trace w ++ Emitted (state_event key) (change_event v old)
                 :: calls_of (change_event v old) (registered w (state_event key)) /\
    (entry_in (Persistent (other p)) key w = None ->
     get body (S f) key w' = Ret JUndefined w').
Proof.
  intros Hwin Hp Hnone Hsize Hfresh Hok Hfuel.
  assert (items (storage_of p win) !! (STORAGE_PREFIX +:+ key) = None) as Hnone'
    by (unfold record_in in Hnone; by rewrite Hwin in Hnone).
  clear Hnone. rename Hnone' into Hnone.
  set (old := (lookup_spec key lookup_order w).1).
  set (wr := (lookup_spec key lookup_order w).2).
  destruct (lookup_spec_frame key lookup_order w)
    as [(_ & Hh & Hp1 & _ & Hc & Ht) _]. fold wr in Hh, Hp1, Hc, Ht.
  destruct (lookup_storage key lookup_order w win Hwin) as (win1 & Hwin1 & Hst).
  fold wr in Hwin1. destruct (Hst p) as [Hquota Hitems].
  assert (items (storage_of p win1) = items (storage_of p win)) as Hsame.
  { destruct Hitems as [->| ->]; [done|]. by apply delete_id. }
  assert (accepts (storage_of p win1) (STORAGE_PREFIX +:+ key) = false) as Hfull1.
  { unfold accepts. rewrite Hsame, Hquota, Hnone. apply orb_false_iff.
    split; apply bool_decide_eq_false_2; [by intros [? ?]|done]. }
  set (w2 := written key v options wr).
  assert (w2 = set_memoryStore (delete key (memoryStore wr))
                 (set_console
                    (console wr ++ [ConsoleError ("Failed to save to storage: " +:+ key)
                                      QuotaExceededError]) wr)) as Hw2.
  { unfold w2, written. by rewrite Hwin1, Hp, Hfull1. }
  set (w' := emitted_world verdict (state_event key) (change_event v old) w2).
  destruct (emitted_world_store verdict (state_event key) (change_event v old) w2)
    as (_ & Hwin' & Hmem' & _). fold w' in Hwin', Hmem'.
  assert (handlers w2 = handlers w /\ heap w2 = heap w) as [Hh2 Hp2]
    by (rewrite Hw2; cbn; split; congruence).
  assert (registered w2 (state_event key) = registered w (state_event key)) as Hreg.
  { unfold registered, listeners_at. by rewrite Hh2, Hp2. }
  assert (record_in p key w' = None) as Hrec.
  { unfold record_in. rewrite Hwin', Hw2. cbn [window set_memoryStore set_console].
    by rewrite Hwin1, Hsame. }
  assert (memoryStore w' !! key = None) as Hmem.
  { rewrite Hmem', Hw2. cbn [memoryStore set_memoryStore]. apply lookup_delete_eq. }
  exists old, wr, w'.
  split; [by apply get_spec|].
  split; [|split; [done|split; [done|split; [|split]]]].
  - by rewrite set_spec.
  - unfold w'. rewrite emitted_world_console, Hreg, Hw2. cbn [console set_memoryStore set_console].
    by rewrite Hc, <- app_assoc.
  - unfold w'. rewrite emitted_world_trace, Hreg.
    + rewrite Hw2. cbn [trace set_memoryStore set_console]. by rewrite Ht.
    + eapply bus_ok_frame; [..|exact Hok]; done.
  - intros Hother.
    assert (record_in (other p) key w' = record_in (other p) key w) as Hq.
    { unfold record_in at 1. rewrite Hwin'. fold (record_in (other p) key w2).
      unfold w2. rewrite (written_record_other p) by (done || apply other_ne).
      apply lookup_keeps_record. intros sv Hsv. cbn [entry_in] in Hother.
      by rewrite Hsv in Hother. }
    rewrite get_memory_absent by done. unfold lookup_order. cbn [lookup_spec entry_in].
    rewrite Hmem. cbn [entry_in] in Hother.
    destruct p; cbn [other] in Hq, Hother; by rewrite ?Hrec, ?Hq, ?Hother, ?Hrec.
Qed.

Lemma refused_write_still_drops_the_memory_copy_witness :
  record_in session "k" full_session = None /\
  memory_fresh "k" full_session /\
  exists old w1 w',
    get (listener demo_verdict) 1 "k" full_session = Ret old w1 /\
    set (listener demo_verdict) 1 "k" (JNum 2) (mkOptions (Some session) None) full_session
    = Ret tt w' /\
    record_in session "k" w' = None /\
    memoryStore w' !! "k" = None /\
    console w' = console full_session
                 ++ ConsoleError "Failed to save to storage: k" QuotaExceededError
                 :: reports_of demo_verdict (state_event "k") (change_event (JNum 2) old)
                      (registered full_session (state_event "k")) /\
    trace w' = trace full_session
               ++ Emitted (state_event "k") (change_event (JNum 2) old)
               :: calls_of (change_event (JNum 2) old)
                    (registered full_session (state_event "k")) /\
    (entry_in (Persistent local) "k" full_session = None ->
     get (listener demo_verdict) 1 "k" w' = Ret JUndefined w').
Proof.
  assert (record_in session "k" full_session = None) as Hnone
    by (vm_compute; reflexivity).
  assert (~ (size (items (storage_of session
                            (mkWindow (mkStorage {[ "theme" := Malformed "dark" ]} 1)
                                      (mkStorage ∅ 8))))
             < quota (storage_of session
                        (mkWindow (mkStorage {[ "theme" := Malformed "dark" ]} 1)
                                  (mkStorage ∅ 8))))%nat) as Hfull
    by (vm_compute; lia).
  assert (memory_fresh "k" full_session) as Hfresh.
  { intros mem Hmem. vm_compute in Hmem. by injection Hmem as <-. }
  assert (bus_ok full_session (state_event "k")) as Hok by (intros addr H; done).
  assert (length (listeners_at full_session (state_event "k")) < 1)%nat as Hfuel
    by (vm_compute; lia).
  split; [exact Hnone|]. split; [exact Hfresh|].
  exact (refused_write_still_drops_the_memory_copy demo_verdict (listener demo_verdict)
           0 0 "k" (JNum 2) (mkOptions (Some session) None) session
           (mkWindow (mkStorage {[ "theme" := Malformed "dark" ]} 1) (mkStorage ∅ 8))
           full_session eq_refl eq_refl Hnone Hfull Hfresh Hok Hfuel).
Defined.

(** ** What the operations on one key leave of the rest *)

Lemma delete_record_other_raw (p q : Persist) (k rawKey : string) (w : World) :
  rawKey <> k -> raw_in q rawKey (delete_record p k w) = raw_in q rawKey w.
Proof.
  intros Hne. unfold raw_in, delete_record.
  destruct (window w) as [win|] eqn:Hwin; cbn [window set_window]; [|by rewrite Hwin].
  destruct p, q; cbn [storage_of with_storage sessionStorage localStorage items];
    by rewrite ?lookup_delete_ne.
Qed.

Lemma lookup_other_key (key k' : string) (tiers : list Tier) (w : World) :
  k' <> key -> memoryStore (lookup_spec key tiers w).2 !! k' = memoryStore w !! k'.
Proof.
  intros Hne. revert w. induction tiers as [|t tiers IH]; intros w; [done|].
  cbn [lookup_spec]. destruct (entry_in t key w) as [sv|]; [|apply IH].
  destruct (expired_at (now w) sv); [|done].
  rewrite IH. destruct t as [|p]; cbn [purge_from].
  - cbn [memoryStore set_memoryStore]. by rewrite lookup_delete_ne.
  - by rewrite delete_record_memory.
Qed.

Lemma lookup_other_raw (q : Persist) (key rawKey : string) (tiers : list Tier)
    (w : World) :
  rawKey <> STORAGE_PREFIX +:+ key ->
  raw_in q rawKey (lookup_spec key tiers w).2 = raw_in q rawKey w.
Proof.
  intros Hne. revert w. induction tiers as [|t tiers IH]; intros w; [done|].
  cbn [lookup_spec]. destruct (entry_in t key w) as [sv|]; [|apply IH].
  destruct (expired_at (now w) sv); [|done].
  rewrite IH. destruct t as [|p]; cbn [purge_from]; [done|].
  by apply delete_record_other_raw.
Qed.

Lemma written_other_key (key k' : string) (v : JsValue) (options : StateOptions)
    (w : World) :
  k' <> key -> memoryStore (written key v options w) !! k' = memoryStore w !! k'.
Proof.
  intros Hne. unfold written.
  destruct (window w) as [win|]; [destruct (persist options) as [p|]|].
  - destruct (accepts (storage_of p win) (STORAGE_PREFIX +:+ key));
      cbn [memoryStore set_memoryStore set_window set_console];
      by rewrite lookup_delete_ne.
  - cbn [memoryStore set_memoryStore]. by rewrite lookup_insert_ne.
  - cbn [memoryStore set_memoryStore]. by rewrite lookup_insert_ne.
Qed.

Lemma written_other_raw (q : Persist) (key rawKey : string) (v : JsValue)
    (options : StateOptions) (w : World) :
  rawKey <> STORAGE_PREFIX +:+ key ->
  raw_in q rawKey (written key v options w) = raw_in q rawKey w.
Proof.
  intros Hne. unfold written, raw_in.
  destruct (window w) as [win|] eqn:Hwin.
  - destruct (persist options) as [p|].
    + destruct (accepts (storage_of p win) (STORAGE_PREFIX +:+ key));
        cbn [window set_memoryStore set_window set_console].
      * destruct p, q; cbn [storage_of with_storage sessionStorage localStorage items];
          by rewrite ?lookup_insert_ne.
      * by rewrite Hwin.
    + cbn [window set_memoryStore]. by rewrite Hwin.
  - cbn [window set_memoryStore]. by rewrite Hwin.
Qed.

Lemma removed_other_key (key k' : string) (w : World) :
  k' <> key -> memoryStore (removed key w) !! k' = memoryStore w !! k'.
Proof.
  intros Hne. unfold removed. rewrite !delete_record_memory.
  cbn [memoryStore set_memoryStore]. by rewrite lookup_delete_ne.
Qed.

Lemma removed_other_raw (q : Persist) (key rawKey : string) (w : World) :
  rawKey <> STORAGE_PREFIX +:+ key ->
  raw_in q rawKey (removed key w) = raw_in q rawKey w.
Proof. intros Hne. unfold removed. by rewrite !delete_record_other_raw. Qed.

Lemma emitted_world_raw (verdict : nat -> JsValue -> option JsError)
    (eventName : string) (payload : JsValue) (q : Persist) (rawKey : string) (w : World) :
  raw_in q rawKey (emitted_world verdict eventName payload w) = raw_in q rawKey w.
Proof.
  destruct (emitted_world_store verdict eventName payload w) as (_ & Hw & _).
  unfold raw_in. by rewrite Hw.
Qed.

Lemma emitted_world_memory (verdict : nat -> JsValue -> option JsError)
    (eventName : string) (payload : JsValue) (w : World) :
  memoryStore (emitted_world verdict eventName payload w) = memoryStore w.
Proof. by destruct (emitted_world_store verdict eventName payload w) as (_ & _ & Hm & _). Qed.

(** X9. [set] and [remove] of a key leave the entries of every other key in
    the memory store as they are, and in both storages every record but the
    one named [cc:key]: those of the other keys, and those that are not the
    store's. *)
Theorem other_keys_are_left_alone
    (verdict : nat -> JsValue -> option JsError) (fuel : nat) (key : string)
    (v : JsValue) (options : StateOptions) (w : World) :
  memory_fresh key w ->
  bus_ok w (state_event key) ->
  (length (listeners_at w (state_event key)) < S fuel)%nat ->
  exists w1 w2,
    set (listener verdict) (S fuel) key v options w = Ret tt w1 /\
    remove (listener verdict) (S fuel) key w = Ret tt w2 /\
    (forall k', k' <> key ->
       memoryStore w1 !! k' = memoryStore w !! k' /\
       memoryStore w2 !! k' = memoryStore w !! k') /\
    (forall p rawKey, rawKey <> STORAGE_PREFIX +:+ key ->
       raw_in p rawKey w1 = raw_in p rawKey w /\
       raw_in p rawKey w2 = raw_in p rawKey w).
Proof.
  intros Hfresh Hok Hfuel.
  set (wr := (lookup_spec key lookup_order w).2).
  set (old := (lookup_spec key lookup_order w).1).
  destruct (lookup_spec_frame key lookup_order w) as [Hbus _]. fold wr in Hbus.
  assert (exists w2,
             remove (listener verdict) (S fuel) key w = Ret tt w2 /\
             (forall k', k' <> key -> memoryStore w2 !! k' = memoryStore w !! k') /\
             (forall p rawKey, rawKey <> STORAGE_PREFIX +:+ key ->
                raw_in p rawKey w2 = raw_in p rawKey w)) as (w2 & Hrem & Hm2 & Hr2).
  { rewrite remove_unfold by done. fold old wr.
    destruct (is_undefined old).
    - exists wr. split; [done|]. split.
      + intros k' Hne. by apply lookup_other_key.
      + intros p rawKey Hne. by apply lookup_other_raw.
    - assert (same_bus w (removed key wr)) as Hbus2
        by (eapply same_bus_trans; [exact Hbus|apply removed_same_bus]).
      rewrite emit_spec;
        [|by eapply bus_ok_same|by rewrite (listeners_at_same w)].
      eexists. split; [done|]. split.
      + intros k' Hne. rewrite emitted_world_memory, removed_other_key by done.
        by apply lookup_other_key.
      + intros p rawKey Hne. rewrite emitted_world_raw, removed_other_raw by done.
        by apply lookup_other_raw. }
  exists (emitted_world verdict (state_event key) (change_event v old)
            (written key v options wr)), w2.
  split; [by apply set_spec|]. split; [done|]. split.
  - intros k' Hne. split; [|by apply Hm2].
    rewrite emitted_world_memory, written_other_key by done. by apply lookup_other_key.
  - intros p rawKey Hne. split; [|by apply Hr2].
    rewrite emitted_world_raw, written_other_raw by done. by apply lookup_other_raw.
Qed.

Lemma other_keys_are_left_alone_witness :
  memory_fresh "k" watched_store /\
  exists w1 w2,
    set (listener demo_verdict) 1 "k" (JNum 3) (mkOptions (Some session) None)
        watched_store = Ret tt w1 /\
    remove (listener demo_verdict) 1 "k" watched_store = Ret tt w2 /\
    (forall k', k' <> "k" ->
       memoryStore w1 !! k' = memoryStore watched_store !! k' /\
       memoryStore w2 !! k' = memoryStore watched_store !! k') /\
    (forall p rawKey, rawKey <> "cc:k" ->
       raw_in p rawKey w1 = raw_in p rawKey watched_store /\
       raw_in p rawKey w2 = raw_in p rawKey watched_store).
Proof.
  assert (memory_fresh "k" watched_store) as Hfresh by (intros mem Hmem; done).
  assert (bus_ok watched_store (state_event "k")) as Hok by (intros addr H; done).
  assert (length (listeners_at watched_store (state_event "k")) < 1)%nat as Hfuel
    by (vm_compute; lia).
  split; [exact Hfresh|].
  exact (other_keys_are_left_alone demo_verdict 0 "k" (JNum 3)
           (mkOptions (Some session) None) watched_store Hfresh Hok Hfuel).
Defined.

(** ** What [get] does not do *)

Lemma lookup_all_live (key : string) (tiers : list Tier) (w : World) :
  (forall t sv, t ∈ tiers -> entry_in t key w = Some sv -> expired_at (now w) sv = false) ->
  (lookup_spec key tiers w).2 = w.
Proof.
  induction tiers as [|t tiers IH]; intros Hlive; [done|].
  cbn [lookup_spec]. destruct (entry_in t key w) as [sv|] eqn:Hentry.
  - rewrite (Hlive t sv); [done|left|done].
  - apply IH. intros t' sv' Hin. apply Hlive. by right.
Qed.

(** X19. [get] emits nothing, calls no listener and writes nothing on the
    console, also when it drops an expired record; and where no record of the
    key has expired it changes nothing at all. *)
Theorem get_is_silent
    (body : nat -> JsValue -> M unit) (fuel : nat) (key : string) (w : World)
    (v : JsValue) (w' : World) :
  get body (S fuel) key w = Ret v w' ->
  same_bus w w' /\
  memoryStore w' = memoryStore w /\
  ((forall p sv, entry_in (Persistent p) key w = Some sv ->
                 expired_at (now w) sv = false) -> w' = w).
Proof.
  intros Hget.
  pose proof (get_returns_fresh _ _ _ _ _ _ Hget) as Hfresh.
  rewrite get_spec in Hget by done.
  assert ((lookup_spec key lookup_order w).2 = w') as <- by (by injection Hget).
  split; [apply lookup_spec_frame|]. split; [by apply lookup_order_memory|].
  intros Hlive. apply lookup_all_live. intros [|p] sv _ Hentry.
  - by apply Hfresh.
  - by apply (Hlive p).
Qed.

Lemma get_is_silent_witness :
  same_bus stale_session (purge_from (Persistent session) "k" stale_session) /\
  memoryStore (purge_from (Persistent session) "k" stale_session)
  = memoryStore stale_session /\
  ((forall p sv, entry_in (Persistent p) "k" stale_session = Some sv ->
                 expired_at (now stale_session) sv = false) ->
   purge_from (Persistent session) "k" stale_session = stale_session).
Proof.
  assert (get (listener demo_verdict) 1 "k" stale_session
          = Ret (JNum 2) (purge_from (Persistent session) "k" stale_session)) as Hget
    by (vm_compute; reflexivity).
  exact (get_is_silent (listener demo_verdict) 0 "k" stale_session (JNum 2)
           (purge_from (Persistent session) "k" stale_session) Hget).
Defined.

(** ** The lookup loop of the bundle against the one of [src/state.ts] *)

Lemma bundled_get_persistent_spec (key : string) (ps : list Persist) (w : World) :
  (forall p text, record_in p key w = Some (Malformed text) -> text = "") ->
  bundled_get_persistent key ps w
  = Ret (lookup_spec key (Persistent <$> ps) w).1 (lookup_spec key (Persistent <$> ps) w).2.
Proof.
  revert w. induction ps as [|p ps IH]; intros w Hdec; [done|].
  cbn [bundled_get_persistent fmap list_fmap lookup_spec entry_in].
  unfold bind at 1, bundled_getStorage, bind at 1, gets at 1.
  destruct (window w) as [win|] eqn:Hwin; unfold ret at 1.
  - unfold bind at 1, Storage_getItem, bind at 1, the_storage. rewrite Hwin.
    unfold ret at 1.
    assert (items (storage_of p win) !! (STORAGE_PREFIX +:+ key) = record_in p key w) as ->
      by (unfold record_in; by rewrite Hwin).
    destruct (record_in p key w) as [[text|sv]|] eqn:Hrec; cbn [decode].
    + rewrite (Hdec p text Hrec). cbn [falsy_raw]. by apply IH.
    + cbn [falsy_raw]. unfold bind at 1, try_catch, bind at 1, JSON_parse, ret at 1.
      unfold bind at 1. rewrite isExpired_spec.
      destruct (expired_at (now w) sv); [|done].
      unfold bind at 1.
      assert (Storage_removeItem p (STORAGE_PREFIX +:+ key) w
              = Ret tt (delete_record p (STORAGE_PREFIX +:+ key) w)) as ->.
      { apply (removeFromStorage_spec key p w). by rewrite Hwin. }
      unfold ret at 1. cbn [purge_from]. apply IH.
      intros q text Hq. destruct (decide (q = p)) as [->|Hne].
      * by rewrite record_in_delete_same in Hq.
      * rewrite record_in_delete_other in Hq by done. by apply (Hdec q).
    + by apply IH.
  - assert (record_in p key w = None) as -> by (unfold record_in; by rewrite Hwin).
    cbn [decode]. by apply IH.
Qed.

(** X20. On storages where every record of the key is the empty text or the
    JSON text of a stored value (an object with a [value] and, when it has
    one, a numeric [expiry]: what the store itself writes), the lookup loop
    of the bundled [state.get] and the one of [src/state.ts] return the same
    value and leave the same world.  Records that are JSON of another shape,
    on which the two loops part, are not among the records of the model. *)
Theorem bundled_lookup_agrees_on_decodable_records
    (key : string) (tiers : list Persist) (w : World) :
  (forall p text, record_in p key w = Some (Malformed text) -> text = "") ->
  bundled_get_persistent key tiers w = get_persistent key tiers w.
Proof.
  intros Hdec. rewrite get_persistent_spec. by apply bundled_get_persistent_spec.
Qed.

Lemma bundled_lookup_agrees_on_decodable_records_witness :
  bundled_get_persistent "k" [session; local] stale_session
  = get_persistent "k" [session; local] stale_session.
Proof.
  assert (forall p text, record_in p "k" stale_session = Some (Malformed text) -> text = "")
    as Hdec by (intros [|] text H; discriminate H).
  exact (bundled_lookup_agrees_on_decodable_records "k" [session; local] stale_session Hdec).
Defined.

(** ** [state.clear] and what is not the store's *)

(** X10. [clear] removes from the storages the records whose key starts with
    [cc:] and no other record; it empties the memory store and leaves the
    event handlers registered. *)
Theorem clear_removes_only_the_records_of_the_store (w : World) :
  exists w',
    clear w = Ret tt w' /\
    memoryStore w' = ∅ /\
    handlers w' = handlers w /\ heap w' = heap w /\
    (window w = None -> window w' = None) /\
    forall win, window w = Some win ->
      exists win',
        window w' = Some win' /\
        forall p rawKey,
          items (storage_of p win') !! rawKey
          = if String.prefix STORAGE_PREFIX rawKey then None
            else items (storage_of p win) !! rawKey.
Proof.
  exists (cleared w). split; [apply clear_spec|].
  unfold cleared. cbn [memoryStore handlers heap window set_window set_memoryStore].
  split; [done|]. split; [done|]. split; [done|]. split; [by intros ->|].
  intros win ->. eexists. split; [done|]. intros p rawKey.
  destruct p; cbn [storage_of sessionStorage localStorage swept items];
    rewrite map_lookup_filter;
    (destruct (items _ !! rawKey) as [raw|]; cbn; [|by destruct (String.prefix _ _)]);
    destruct (String.prefix STORAGE_PREFIX rawKey) eqn:Hpre;
    [by rewrite option_guard_False by (cbn; congruence)
    |by rewrite option_guard_True by done
    |by rewrite option_guard_False by (cbn; congruence)
    |by rewrite option_guard_True by done].
Qed.

(** ** The event bus: subscribing again, unsubscribing, clearing *)

Lemma list_alter_same {A} (f : A -> A) (l : list A) (i : nat) :
  (forall x, l !! i = Some x -> f x = x) -> alter f i l = l.
Proof.
  intros Hf. apply list_eq. intros j. destruct (decide (i = j)) as [<-|Hne].
  - rewrite list_lookup_alter_eq. destruct (l !! i) as [x|] eqn:Hx; [|done].
    simpl. by rewrite Hf.
  - by rewrite list_lookup_alter_ne.
Qed.

Lemma set_heap_same (w : World) : set_heap (heap w) w = w.
Proof. by destruct w. Qed.

Lemma without_absent (h : Handler) (l : list Handler) : h ∉ l -> without h l = l.
Proof.
  unfold without. induction l as [|x l IH]; intros Hn; [done|].
  rewrite not_elem_of_cons in Hn. destruct Hn as [Hne Hn]. simpl.
  rewrite bool_decide_eq_false_2 by congruence. simpl. by rewrite IH.
Qed.

Lemma without_snoc (h : Handler) (l : list Handler) :
  without h (l ++ [h]) = without h l.
Proof.
  unfold without. rewrite List.filter_app. simpl.
  rewrite bool_decide_eq_true_2 by done. simpl. by rewrite app_nil_r.
Qed.

Lemma not_elem_of_without (h : Handler) (l : list Handler) : h ∉ without h l.
Proof.
  unfold without. rewrite list_elem_of_In, filter_In. intros [_ Hb].
  rewrite bool_decide_eq_true_2 in Hb by done. done.
Qed.

Lemma off_absent (eventName : string) (h : Handler) (w : World) :
  h ∉ registered w eventName -> off eventName h w = Ret tt w.
Proof.
  intros Hn. unfold off, bind, gets, modify, ret.
  unfold registered, listeners_at in Hn.
  destruct (handlers w !! eventName) as [addr|]; [|done].
  f_equal. rewrite list_alter_same; [apply set_heap_same|].
  intros es Hes. rewrite Hes in Hn. apply Set_delete_absent.
  by rewrite <- elem_of_Set_values.
Qed.

(** X11. [off] of a listener that is not subscribed to the name changes
    nothing; [on] adds a new listener after the ones already there, and [off]
    then leaves the listeners of the name as they were before. *)
Theorem off_undoes_on (eventName : string) (id : nat) (w : World) :
  bus_ok w eventName ->
  User id ∉ registered w eventName ->
  off eventName (User id) w = Ret tt w /\
  exists w1 w2,
    on eventName (User id) w = Ret tt w1 /\
    registered w1 eventName = registered w eventName ++ [User id] /\
    off eventName (User id) w1 = Ret tt w2 /\
    registered w2 eventName = registered w eventName.
Proof.
  intros Hok Hn. split; [by apply off_absent|].
  destruct (on_spec eventName (User id) w Hok I) as (w1 & Hon & Hok1 & Hl1 & _).
  destruct (off_spec eventName (User id) w1 Hok1) as (w2 & Hoff & _ & Hl2 & _).
  exists w1, w2. split; [done|].
  assert (registered w1 eventName = registered w eventName ++ [User id]) as Hr1.
  { rewrite (on_registered eventName (User id) w w1) by done. by rewrite decide_False. }
  split; [done|]. split; [done|].
  unfold registered at 1. rewrite Hl2, Set_values_delete.
  fold (registered w1 eventName). rewrite Hr1, without_snoc. by apply without_absent.
Qed.

Lemma off_undoes_on_witness :
  bus_ok three_listeners "evt" /\
  off "evt" (User 4) three_listeners = Ret tt three_listeners /\
  exists w1 w2,
    on "evt" (User 4) three_listeners = Ret tt w1 /\
    registered w1 "evt" = registered three_listeners "evt" ++ [User 4] /\
    off "evt" (User 4) w1 = Ret tt w2 /\
    registered w2 "evt" = registered three_listeners "evt".
Proof.
  assert (bus_ok three_listeners "evt") as Hok by bus_ok_concrete.
  assert (User 4 ∉ registered three_listeners "evt") as Hn.
  { intros Hin. vm_compute in Hin. elem_of_concrete Hin. }
  split; [exact Hok|].
  exact (off_undoes_on "evt" 4 three_listeners Hok Hn).
Defined.

(** X12. Unsubscribing a listener and subscribing it again moves it to the
    end of the order in which the listeners of the name are called. *)
Theorem resubscribing_moves_listener_to_the_end (eventName : string) (id : nat)
    (w : World) :
  bus_ok w eventName ->
  exists w1 w2,
    off eventName (User id) w = Ret tt w1 /\
    on eventName (User id) w1 = Ret tt w2 /\
    registered w2 eventName = without (User id) (registered w eventName) ++ [User id].
Proof.
  intros Hok.
  destruct (off_spec eventName (User id) w Hok) as (w1 & Hoff & Hok1 & Hl1 & _).
  destruct (on_spec eventName (User id) w1 Hok1 I) as (w2 & Hon & _).
  exists w1, w2. split; [done|]. split; [done|].
  assert (registered w1 eventName = without (User id) (registered w eventName)) as Hr1.
  { unfold registered at 1. by rewrite Hl1, Set_values_delete. }
  rewrite (on_registered eventName (User id) w1 w2) by done.
  rewrite Hr1. rewrite decide_False; [done|apply not_elem_of_without].
Qed.

Lemma resubscribing_moves_listener_to_the_end_witness :
  bus_ok three_listeners "evt" /\
  exists w1 w2,
    off "evt" (User 1) three_listeners = Ret tt w1 /\
    on "evt" (User 1) w1 = Ret tt w2 /\
    registered w2 "evt" = [User 7; User 2; User 1].
Proof.
  assert (bus_ok three_listeners "evt") as Hok by bus_ok_concrete.
  split; [exact Hok|].
  exact (resubscribing_moves_listener_to_the_end "evt" 1 three_listeners Hok).
Defined.

(** X13. [events.clear(name)] drops the listeners of that name and of no
    other; without a name, and with the empty name, it drops the listeners of
    every name.  An [emit] for a cleared name calls nothing. *)
Theorem events_clear_drops_the_listeners
    (body : nat -> JsValue -> M unit) (fuel : nat) (name : string) (payload : JsValue)
    (w : World) :
  (exists w',
      events_clear (Some name) w = Ret tt w' /\
      registered w' name = [] /\
      (name <> "" -> forall n, n <> name -> registered w' n = registered w n) /\
      (name = "" -> forall n, registered w' n = []) /\
      emit body fuel name payload w'
      = Ret tt (set_trace (trace w' ++ [Emitted name payload]) w')) /\
  (exists w', events_clear None w = Ret tt w' /\ forall n, registered w' n = []).
Proof.
  assert (forall w0 : World, handlers w0 = ∅ -> forall n, registered w0 n = []) as Hall.
  { intros w0 H0 n. unfold registered, listeners_at. by rewrite H0, lookup_empty. }
  assert (forall w0 : World, handlers w0 !! name = None ->
            registered w0 name = [] /\
            emit body fuel name payload w0
            = Ret tt (set_trace (trace w0 ++ [Emitted name payload]) w0)) as Hnone.
  { intros w0 H0. split.
    - unfold registered, listeners_at. by rewrite H0.
    - unfold emit, bind, observe, modify, gets. cbn [handlers set_trace]. by rewrite H0. }
  split; [|by eexists; split; [reflexivity|apply Hall]].
  destruct name as [|c s].
  - eexists. split; [reflexivity|].
    destruct (Hnone (set_handlers ∅ w)) as [Hr He]; [apply lookup_empty|].
    split; [done|]. split; [done|]. split; [|done]. intros _. by apply Hall.
  - eexists. split; [reflexivity|].
    destruct (Hnone (set_handlers (delete (String c s) (handlers w)) w)) as [Hr He];
      [apply lookup_delete_eq|].
    split; [done|]. split; [|split; [done|done]].
    intros _ n Hne. unfold registered, listeners_at. cbn [handlers heap set_handlers].
    by rewrite lookup_delete_ne.
Qed.

(** ** Listeners that change the set while [emit] goes over it *)

Section Segment.

Variable body : nat -> JsValue -> M unit.
Variable verdict : nat -> JsValue -> option JsError.
Variable eventName : string.
Variable payload : JsValue.

Lemma forEach_cong (fuel addr i j : nat) (cb : Handler -> M unit) (w w' : World) :
  i = j -> w = w' -> Set_forEach fuel addr i cb w = Set_forEach fuel addr j cb w'.
Proof. by intros -> ->. Qed.

(** The fan-out over a stretch of passive listeners, wherever it lies in the
    set. *)
Lemma forEach_segment (addr : nat) (seg : JsSet) :
  (forall h, Some h ∈ seg -> passive body verdict payload h) ->
  forall (fuel : nat) (pre rest : JsSet) (w : World),
    set_ok w addr (pre ++ seg ++ rest) ->
    Set_forEach (length seg + fuel) addr (length pre)
      (guarded_call body eventName payload) w
    = Set_forEach fuel addr (length pre + length seg)
        (guarded_call body eventName payload)
        (after_segment verdict eventName payload addr pre seg rest w).
Proof.
  induction seg as [|e seg IH]; intros Hpassive fuel pre rest w Hok.
  - destruct Hok as (Hheap & _). apply forEach_cong; [simpl; lia|].
    unfold after_segment. world_eq; rewrite ?app_nil_r; try done.
    symmetry. by apply list_insert_id.
  - change ((e :: seg) ++ rest) with (e :: seg ++ rest) in *.
    pose proof Hok as (Hheap & Hnd & Hwrap).
    assert (forall h, Some h ∈ seg -> passive body verdict payload h) as Hpassive'
      by (intros h Hh; apply Hpassive; by right).
    assert (Hpre : forall x : option Handler, length (pre ++ [x]) = S (length pre)).
    { intros x. rewrite length_app. simpl. lia. }
    cbn [length Nat.add Set_forEach]. unfold bind at 1, gets at 1. rewrite Hheap.
    cbn [default from_option id]. rewrite list_lookup_middle by done.
    destruct e as [[id|uid n id]|].
    + (* an application listener *)
      assert (body id payload = listener verdict id payload) as Hbody
        by (apply (Hpassive (User id)); left).
      unfold bind at 1. unfold guarded_call at 1, try_catch, call, bind, observe, modify.
      rewrite Hbody. unfold listener.
      destruct (verdict id payload) as [err|] eqn:Hv; simpl.
      * rewrite <- (Hpre (Some (User id))).
        rewrite (IH Hpassive' fuel _ rest).
        -- apply forEach_cong; [rewrite length_app; simpl; lia|].
           unfold after_segment, calls_of, reports_of. simpl. rewrite Hv. simpl.
           world_eq; rewrite <- ?app_assoc; done.
        -- rewrite <- app_assoc. simpl. eapply set_ok_frame; [..|exact Hok]; done.
      * unfold ret. rewrite <- (Hpre (Some (User id))).
        rewrite (IH Hpassive' fuel _ rest).
        -- apply forEach_cong; [rewrite length_app; simpl; lia|].
           unfold after_segment, calls_of, reports_of. simpl. rewrite Hv. simpl.
           world_eq; rewrite <- ?app_assoc; done.
        -- rewrite <- app_assoc. simpl. eapply set_ok_frame; [..|exact Hok]; done.
    + (* a once-wrapper: it removes itself, then calls the listener *)
      assert (body id payload = listener verdict id payload) as Hbody
        by (apply (Hpassive (OnceWrapper uid n id)); left).
      assert (handlers w !! n = Some addr) as Hn.
      { apply (Hwrap uid n id). apply elem_of_app. right. left. }
      unfold bind at 1. unfold guarded_call at 1, try_catch, call, off.
      unfold bind at 1. unfold bind at 1. unfold gets at 1. rewrite Hn.
      unfold modify at 1. unfold bind, observe, modify. rewrite Hbody. unfold listener.
      set (w1 := set_heap (alter (Set_delete (OnceWrapper uid n id)) addr (heap w)) w).
      assert (set_ok w1 addr ((pre ++ [None]) ++ seg ++ rest)) as Hok1.
      { split; [|split].
        - simpl. rewrite list_lookup_alter_eq, Hheap. simpl.
          rewrite Set_delete_middle by done. by rewrite <- app_assoc.
        - rewrite <- app_assoc. simpl.
          rewrite Set_values_app in Hnd |- *. simpl in Hnd |- *.
          apply NoDup_app in Hnd as (H1 & H2 & H3). apply NoDup_app.
          apply NoDup_cons in H3 as [H3 H4].
          split; [done|]. split; [|done].
          intros x Hx Hx'. apply (H2 x Hx). by right.
        - intros uid' n' id' Hin. simpl. apply (Hwrap uid' n' id').
          rewrite <- app_assoc in Hin. simpl in Hin.
          apply elem_of_app in Hin as [Hin|Hin]; [apply elem_of_app; by left|].
          apply elem_of_cons in Hin as [Hin|Hin]; [done|].
          apply elem_of_app. right. by right. }
      destruct (verdict id payload) as [err|] eqn:Hv; simpl.
      * rewrite <- (Hpre None).
        rewrite (IH Hpassive' fuel _ rest).
        -- apply forEach_cong; [rewrite length_app; simpl; lia|].
           unfold after_segment, calls_of, reports_of. simpl. rewrite Hv. simpl.
           world_eq; rewrite <- ?app_assoc; try done.
           simpl. apply list_insert_alter.
        -- eapply set_ok_frame; [..|exact Hok1]; done.
      * unfold ret. rewrite <- (Hpre None).
        rewrite (IH Hpassive' fuel _ rest).
        -- apply forEach_cong; [rewrite length_app; simpl; lia|].
           unfold after_segment, calls_of, reports_of. simpl. rewrite Hv. simpl.
           world_eq; rewrite <- ?app_assoc; try done.
           simpl. apply list_insert_alter.
        -- eapply set_ok_frame; [..|exact Hok1]; done.
    + (* an empty slot *)
      rewrite <- (Hpre None).
      rewrite (IH Hpassive' fuel _ rest).
      * apply forEach_cong; [rewrite length_app; simpl; lia|].
        unfold after_segment. simpl. by rewrite <- app_assoc.
      * by rewrite <- app_assoc.
Qed.

End Segment.

Lemma Set_values_cons (e : option Handler) (s : JsSet) :
  Set_values (e :: s) = match e with Some h => h :: Set_values s | None => Set_values s end.
Proof. by destruct e. Qed.

Lemma Set_values_fired_sublist (s : JsSet) :
  Set_values (fired <$> s) `sublist_of` Set_values s.
Proof.
  induction s as [|[[id|uid n id]|] s IH]; rewrite ?fmap_cons, ?Set_values_cons;
    cbn [fired]; rewrite ?Set_values_cons; [done|by apply sublist_skip|by apply sublist_cons|done].
Qed.

Lemma elem_of_fired (h : Handler) (s : JsSet) :
  Some h ∈ fired <$> s -> Some h ∈ s /\ is_user h = true.
Proof.
  rewrite list_elem_of_fmap. intros ([[id|uid n id]|] & Heq & Hin); simpl in Heq; try done.
  by injection Heq as ->.
Qed.

Lemma set_ok_after_segment (verdict : nat -> JsValue -> option JsError) (n : string)
    (p : JsValue) (addr : nat) (pre seg rest : JsSet) (w : World) :
  set_ok w addr (pre ++ seg ++ rest) ->
  set_ok (after_segment verdict n p addr pre seg rest w) addr
    (pre ++ (fired <$> seg) ++ rest).
Proof.
  intros (Hheap & Hnd & Hwrap). split; [|split].
  - unfold after_segment. cbn [heap set_heap]. apply list_lookup_insert_eq.
    by eapply lookup_lt_Some.
  - eapply sublist_NoDup; [exact Hnd|]. rewrite !Set_values_app.
    apply sublist_app; [done|]. apply sublist_app; [apply Set_values_fired_sublist|done].
  - intros uid n' id Hin. change (handlers w !! n' = Some addr).
    apply (Hwrap uid n' id). rewrite !elem_of_app in *.
    destruct Hin as [?|[Hin|?]]; auto. by apply elem_of_fired in Hin as [_ ?].
Qed.

Lemma emit_unfold (body : nat -> JsValue -> M unit) (fuel : nat) (n : string)
    (p : JsValue) (addr : nat) (w : World) :
  handlers w !! n = Some addr ->
  emit body fuel n p w
  = Set_forEach fuel addr 0 (guarded_call body n p)
      (set_trace (trace w ++ [Emitted n p]) w).
Proof.
  intros Hh. unfold emit, bind, observe, modify, gets. cbn [handlers set_trace].
  by rewrite Hh.
Qed.

Lemma forEach_end (fuel addr i : nat) (cb : Handler -> M unit) (es : JsSet) (w : World) :
  heap w !! addr = Some es -> (length es <= i)%nat ->
  Set_forEach (S fuel) addr i cb w = Ret tt w.
Proof.
  intros Hh Hi. cbn [Set_forEach]. unfold bind, gets. rewrite Hh.
  cbn [default from_option id]. by rewrite lookup_ge_None_2.
Qed.

Lemma forEach_step (fuel addr : nat) (cb : Handler -> M unit) (pre : JsSet) (h : Handler)
    (post : JsSet) (w : World) :
  heap w !! addr = Some (pre ++ Some h :: post) ->
  Set_forEach (S fuel) addr (length pre) cb w
  = (cb h ;; Set_forEach fuel addr (S (length pre)) cb) w.
Proof.
  intros Hh. cbn [Set_forEach]. unfold bind at 1, gets at 1. rewrite Hh.
  cbn [default from_option id]. by rewrite list_lookup_middle.
Qed.

(** X14. A listener that an earlier listener of the same [emit] unsubscribes
    is not called by that [emit]: the others are called in order, before and
    after the place it had, and it is gone from the set. *)
Theorem listener_unsubscribed_during_emit_is_skipped
    (body : nat -> JsValue -> M unit) (verdict : nat -> JsValue -> option JsError)
    (fuel : nat) (eventName : string) (payload : JsValue) (addr a b : nat)
    (pre mid post : JsSet) (w : World) :
  handlers w !! eventName = Some addr ->
  set_ok w addr (pre ++ Some (User a) :: mid ++ Some (User b) :: post) ->
  body a payload = off eventName (User b) ->
  (forall h, Some h ∈ pre ++ mid ++ post -> passive body verdict payload h) ->
  (length (pre ++ Some (User a) :: mid ++ Some (User b) :: post) < fuel)%nat ->
  exists w',
    emit body fuel eventName payload w = Ret tt w' /\
    trace w' = trace w ++ Emitted eventName payload
                 :: calls_of payload (Set_values (pre ++ Some (User a) :: mid ++ post)) /\
    registered w' eventName
    = remaining (Set_values (pre ++ Some (User a) :: mid ++ post)).
Proof.
  intros Hh Hok Hbody Hpassive Hfuel.
  set (rest1 := Some (User a) :: mid ++ Some (User b) :: post) in *.
  set (w0 := set_trace (trace w ++ [Emitted eventName payload]) w).
  assert (set_ok w0 addr ([] ++ pre ++ rest1)) as Hok0
    by (eapply set_ok_frame; [..|exact Hok]; done).
  set (w1 := after_segment verdict eventName payload addr [] pre rest1 w0).
  pose proof (set_ok_after_segment verdict eventName payload addr [] pre rest1 w0 Hok0)
    as Hok1.
  fold w1 in Hok1. cbn [app] in Hok1.
  set (pre' := fired <$> pre) in *.
  set (w1' := set_trace (trace w1 ++ [Called a payload]) w1).
  set (w2 := set_heap (alter (Set_delete (User b)) addr (heap w1')) w1').
  assert (guarded_call body eventName payload (User a) w1 = Ret tt w2) as Hcall.
  { unfold guarded_call, try_catch, call. unfold bind, observe, modify. rewrite Hbody.
    fold w1'. unfold off, bind, gets, modify.
    assert (handlers w1' !! eventName = Some addr) as -> by exact Hh. done. }
  set (seg2 := mid ++ None :: post).
  assert (pre' ++ rest1 = (pre' ++ Some (User a) :: mid) ++ Some (User b) :: post)
    as Hshape by (unfold rest1; by rewrite <- app_assoc).
  assert ((pre' ++ [Some (User a)]) ++ seg2 ++ []
          = (pre' ++ Some (User a) :: mid) ++ None :: post) as Hshape2.
  { unfold seg2. rewrite app_nil_r, <- !app_assoc. done. }
  assert (set_ok w2 addr ((pre' ++ [Some (User a)]) ++ seg2 ++ [])) as Hok2.
  { destruct Hok1 as (Hheap1 & Hnd1 & Hwrap1). rewrite Hshape in Hheap1, Hnd1, Hwrap1.
    rewrite Hshape2. split; [|split].
    - unfold w2. cbn [heap set_heap]. change (heap w1') with (heap w1).
      rewrite list_lookup_alter_eq, Hheap1. cbn [fmap option_fmap option_map].
      by rewrite Set_delete_middle.
    - eapply sublist_NoDup; [exact Hnd1|]. rewrite !Set_values_app.
      apply sublist_app; [done|]. rewrite !Set_values_cons. by apply sublist_cons.
    - intros uid n' id Hin. change (handlers w1 !! n' = Some addr).
      apply (Hwrap1 uid n' id). rewrite elem_of_app in *.
      destruct Hin as [?|Hin]; [by left|right].
      apply elem_of_cons in Hin as [?|?]; [done|by right]. }
  set (w3 := after_segment verdict eventName payload addr (pre' ++ [Some (User a)])
               seg2 [] w2).
  pose proof (set_ok_after_segment verdict eventName payload addr
                (pre' ++ [Some (User a)]) seg2 [] w2 Hok2) as Hok3.
  fold w3 in Hok3.
  assert (length pre' = length pre) as Hlen by apply length_fmap.
  assert (length (pre ++ rest1) = length pre + S (S (length mid + length post)))%nat
    as HL.
  { unfold rest1. rewrite length_app. cbn [length]. rewrite length_app. cbn [length]. lia. }
  assert (length seg2 = S (length mid + length post)) as Hlen2.
  { unfold seg2. rewrite length_app. cbn [length]. lia. }
  assert (fuel = length pre + S (length seg2 + S (fuel - length pre - length seg2 - 2)))%nat
    as Hf by lia.
  exists w3. split; [|split].
  - assert (forall h, Some h ∈ pre -> passive body verdict payload h) as Hp1
      by (intros h Hin; apply Hpassive; apply elem_of_app; by left).
    assert (forall h, Some h ∈ seg2 -> passive body verdict payload h) as Hp2.
    { intros h Hin. apply Hpassive. unfold seg2 in Hin. rewrite !elem_of_app in *.
      destruct Hin as [?|Hin]; [by auto|].
      apply elem_of_cons in Hin as [?|?]; [done|by auto]. }
    rewrite (emit_unfold _ _ _ _ addr) by done. fold w0. rewrite Hf.
    set (f' := (fuel - length pre - length seg2 - 2)%nat).
    pose proof (forEach_segment body verdict eventName payload addr pre Hp1
                  (S (length seg2 + S f')) [] rest1 w0 Hok0) as Hseg1.
    cbn [length Nat.add] in Hseg1. rewrite Hseg1. fold w1. rewrite <- Hlen.
    rewrite (forEach_step _ addr _ pre' (User a) (mid ++ Some (User b) :: post) w1)
      by apply Hok1.
    unfold bind at 1. rewrite Hcall.
    pose proof (forEach_segment body verdict eventName payload addr seg2 Hp2
                  (S f') (pre' ++ [Some (User a)]) [] w2 Hok2) as Hseg2.
    replace (length (pre' ++ [Some (User a)])) with (S (length pre')) in Hseg2
      by (rewrite length_app; simpl; lia).
    rewrite Hseg2. fold w3. eapply forEach_end; [apply Hok3|].
    rewrite !length_app, length_fmap. cbn [length]. lia.
  - unfold w3, after_segment. cbn [trace set_heap set_trace set_console].
    unfold w2, w1'. cbn [trace set_heap set_trace set_console].
    unfold w1, after_segment. cbn [trace set_heap set_trace set_console].
    unfold w0. cbn [trace set_heap set_trace set_console].
    unfold seg2, calls_of.
    rewrite !Set_values_app, !Set_values_cons, !Set_values_app, !fmap_app, fmap_cons,
      fmap_app.
    by rewrite <- !app_assoc.
  - unfold registered, listeners_at.
    assert (handlers w3 !! eventName = Some addr) as -> by exact Hh.
    destruct Hok3 as (-> & _). cbn [default from_option id].
    rewrite <- Set_values_fired. unfold seg2, pre'.
    rewrite !fmap_app, !fmap_cons, !fmap_app, !app_nil_r, <- !app_assoc.
    cbn [fired app]. by rewrite !Set_values_app, !Set_values_cons, !Set_values_app.
Qed.

Lemma listener_unsubscribed_during_emit_is_skipped_witness :
  exists w',
    emit meddling 5 "evt" (JNum 0) four_listeners = Ret tt w' /\
    trace w' = [Emitted "evt" (JNum 0); Called 9 (JNum 0); Called 1 (JNum 0);
                Called 5 (JNum 0)] /\
    registered w' "evt" = [User 9; User 1; User 5].
Proof.
  assert (set_ok four_listeners 0
            ([Some (User 9)] ++ Some (User 1) :: [] ++ Some (User 2) :: [Some (User 5)]))
    as Hok.
  { split; [reflexivity|]. split.
    - apply (bool_decide_unpack _). vm_compute. reflexivity.
    - intros uid n id Hin. elem_of_concrete Hin. }
  assert (forall h, Some h ∈ [Some (User 9)] ++ [] ++ [Some (User 5)] ->
                    passive meddling quiet_verdict (JNum 0) h) as Hpassive.
  { intros h Hin. elem_of_concrete Hin; injection Hin as ->; reflexivity. }
  assert (length ([Some (User 9)] ++ Some (User 1) :: [] ++ Some (User 2)
                    :: [Some (User 5)]) < 5)%nat as Hfuel by (vm_compute; lia).
  exact (listener_unsubscribed_during_emit_is_skipped meddling quiet_verdict 5 "evt"
           (JNum 0) 0 1 2 [Some (User 9)] [] [Some (User 5)] four_listeners
           eq_refl Hok eq_refl Hpassive Hfuel).
Defined.

(** X15. A listener that a listener subscribes to the same name while [emit]
    runs is called by that same [emit], after all the others. *)
Theorem listener_subscribed_during_emit_is_called
    (body : nat -> JsValue -> M unit) (verdict : nat -> JsValue -> option JsError)
    (fuel : nat) (eventName : string) (payload : JsValue) (addr a b : nat)
    (pre post : JsSet) (w : World) :
  handlers w !! eventName = Some addr ->
  set_ok w addr (pre ++ Some (User a) :: post) ->
  User b ∉ Set_values (pre ++ Some (User a) :: post) ->
  body a payload = on eventName (User b) ->
  (forall h, Some h ∈ pre ++ post ++ [Some (User b)] -> passive body verdict payload h) ->
  (S (length (pre ++ Some (User a) :: post)) < fuel)%nat ->
  exists w',
    emit body fuel eventName payload w = Ret tt w' /\
    trace w' = trace w ++ Emitted eventName payload
                 :: calls_of payload (Set_values (pre ++ Some (User a) :: post) ++ [User b]) /\
    registered w' eventName
    = remaining (Set_values (pre ++ Some (User a) :: post)) ++ [User b].
Proof.
  intros Hh Hok Hnew Hbody Hpassive Hfuel.
  set (rest1 := Some (User a) :: post) in *.
  set (w0 := set_trace (trace w ++ [Emitted eventName payload]) w).
  assert (set_ok w0 addr ([] ++ pre ++ rest1)) as Hok0
    by (eapply set_ok_frame; [..|exact Hok]; done).
  set (w1 := after_segment verdict eventName payload addr [] pre rest1 w0).
  pose proof (set_ok_after_segment verdict eventName payload addr [] pre rest1 w0 Hok0)
    as Hok1.
  fold w1 in Hok1. cbn [app] in Hok1.
  set (pre' := fired <$> pre) in *.
  set (w1' := set_trace (trace w1 ++ [Called a payload]) w1).
  set (w2 := set_heap (alter (Set_add (User b)) addr (heap w1')) w1').
  assert (guarded_call body eventName payload (User a) w1 = Ret tt w2) as Hcall.
  { unfold guarded_call, try_catch, call. unfold bind, observe, modify. rewrite Hbody.
    fold w1'. unfold on, bind, gets, modify.
    assert (handlers w1' !! eventName = Some addr) as Hh1 by exact Hh.
    rewrite Hh1. rewrite bool_decide_eq_true_2 by (by eexists). unfold ret.
    by rewrite Hh1. }
  set (seg2 := post ++ [Some (User b)]).
  assert (Some (User b) ∉ pre' ++ rest1) as Hnew'.
  { intros Hin. apply Hnew. apply elem_of_Set_values.
    rewrite elem_of_app in *. destruct Hin as [Hin|Hin]; [left|by right].
    by apply elem_of_fired in Hin as [? _]. }
  assert ((pre' ++ [Some (User a)]) ++ seg2 ++ [] = (pre' ++ rest1) ++ [Some (User b)])
    as Hshape2.
  { unfold seg2, rest1. rewrite app_nil_r, <- !app_assoc. done. }
  assert (set_ok w2 addr ((pre' ++ [Some (User a)]) ++ seg2 ++ [])) as Hok2.
  { destruct Hok1 as (Hheap1 & Hnd1 & Hwrap1). rewrite Hshape2. split; [|split].
    - unfold w2. cbn [heap set_heap]. change (heap w1') with (heap w1).
      rewrite list_lookup_alter_eq, Hheap1. cbn [fmap option_fmap option_map].
      unfold Set_add. by rewrite decide_False.
    - rewrite Set_values_app. apply NoDup_app. split; [done|]. split.
      + intros x Hx Hx'. rewrite Set_values_cons in Hx'.
        apply list_elem_of_singleton in Hx' as ->. by apply elem_of_Set_values in Hx.
      + rewrite Set_values_cons. apply NoDup_singleton.
    - intros uid n' id Hin. change (handlers w1 !! n' = Some addr).
      apply (Hwrap1 uid n' id). rewrite elem_of_app in Hin.
      destruct Hin as [?|Hin]; [done|]. by apply list_elem_of_singleton in Hin. }
  set (w3 := after_segment verdict eventName payload addr (pre' ++ [Some (User a)])
               seg2 [] w2).
  pose proof (set_ok_after_segment verdict eventName payload addr
                (pre' ++ [Some (User a)]) seg2 [] w2 Hok2) as Hok3.
  fold w3 in Hok3.
  assert (length pre' = length pre) as Hlen by apply length_fmap.
  assert (length (pre ++ rest1) = length pre + S (length post))%nat as HL.
  { unfold rest1. rewrite length_app. cbn [length]. lia. }
  assert (length seg2 = S (length post)) as Hlen2.
  { unfold seg2. rewrite length_app. cbn [length]. lia. }
  assert (fuel = length pre + S (length seg2 + S (fuel - length pre - length seg2 - 2)))%nat
    as Hf by lia.
  exists w3. split; [|split].
  - assert (forall h, Some h ∈ pre -> passive body verdict payload h) as Hp1
      by (intros h Hin; apply Hpassive; apply elem_of_app; by left).
    assert (forall h, Some h ∈ seg2 -> passive body verdict payload h) as Hp2
      by (intros h Hin; apply Hpassive; apply elem_of_app; by right).
    rewrite (emit_unfold _ _ _ _ addr) by done. fold w0. rewrite Hf.
    set (f' := (fuel - length pre - length seg2 - 2)%nat).
    pose proof (forEach_segment body verdict eventName payload addr pre Hp1
                  (S (length seg2 + S f')) [] rest1 w0 Hok0) as Hseg1.
    cbn [length Nat.add] in Hseg1. rewrite Hseg1. fold w1. rewrite <- Hlen.
    rewrite (forEach_step _ addr _ pre' (User a) post w1) by apply Hok1.
    unfold bind at 1. rewrite Hcall.
    pose proof (forEach_segment body verdict eventName payload addr seg2 Hp2
                  (S f') (pre' ++ [Some (User a)]) [] w2 Hok2) as Hseg2.
    replace (length (pre' ++ [Some (User a)])) with (S (length pre')) in Hseg2
      by (rewrite length_app; simpl; lia).
    rewrite Hseg2. fold w3. eapply forEach_end; [apply Hok3|].
    rewrite !length_app, length_fmap. cbn [length]. lia.
  - unfold w3, after_segment. cbn [trace set_heap set_trace set_console].
    unfold w2, w1'. cbn [trace set_heap set_trace set_console].
    unfold w1, after_segment. cbn [trace set_heap set_trace set_console].
    unfold w0. cbn [trace set_heap set_trace set_console].
    unfold seg2, rest1, calls_of.
    rewrite !Set_values_app, !Set_values_cons. cbn [Set_values omap list_omap].
    rewrite !fmap_app, !fmap_cons, <- !app_assoc. done.
  - unfold registered, listeners_at.
    assert (handlers w3 !! eventName = Some addr) as -> by exact Hh.
    destruct Hok3 as (-> & _). cbn [default from_option id].
    unfold remaining. rewrite <- (List.filter_app is_user _ [User b]).
    fold (remaining (Set_values (pre ++ rest1) ++ [User b])).
    replace (Set_values (pre ++ rest1) ++ [User b])
      with (Set_values ((pre ++ rest1) ++ [Some (User b)]))
      by (by rewrite Set_values_app, Set_values_cons).
    rewrite <- Set_values_fired. unfold seg2, pre', rest1.
    rewrite !fmap_app, !fmap_cons, ?fmap_app, !app_nil_r, <- !app_assoc.
    cbn [fired app fmap list_fmap]. done.
Qed.

Lemma listener_subscribed_during_emit_is_called_witness :
  exists w',
    emit meddling 5 "evt" (JNum 0) growing_listeners = Ret tt w' /\
    trace w' = [Emitted "evt" (JNum 0); Called 9 (JNum 0); Called 3 (JNum 0);
                Called 5 (JNum 0); Called 4 (JNum 0)] /\
    registered w' "evt" = [User 9; User 3; User 5; User 4].
Proof.
  assert (set_ok growing_listeners 0 ([Some (User 9)] ++ Some (User 3) :: [Some (User 5)]))
    as Hok.
  { split; [reflexivity|]. split.
    - apply (bool_decide_unpack _). vm_compute. reflexivity.
    - intros uid n id Hin. elem_of_concrete Hin. }
  assert (User 4 ∉ Set_values ([Some (User 9)] ++ Some (User 3) :: [Some (User 5)]))
    as Hnew.
  { intros Hin. vm_compute in Hin. elem_of_concrete Hin. }
  assert (forall h, Some h ∈ [Some (User 9)] ++ [Some (User 5)] ++ [Some (User 4)] ->
                    passive meddling quiet_verdict (JNum 0) h) as Hpassive.
  { intros h Hin. elem_of_concrete Hin; injection Hin as ->; reflexivity. }
  assert (S (length ([Some (User 9)] ++ Some (User 3) :: [Some (User 5)])) < 5)%nat
    as Hfuel by (vm_compute; lia).
  exact (listener_subscribed_during_emit_is_called meddling quiet_verdict 5 "evt"
           (JNum 0) 0 3 4 [Some (User 9)] [Some (User 5)] growing_listeners
           eq_refl Hok Hnew eq_refl Hpassive Hfuel).
Defined.

(** ** The realtime binding on its own *)

Lemma take_suspended_app (c : string) (s : nat) (l rest : list (string * nat)) :
  c ∉ l.*1 -> take_suspended c (l ++ (c, s) :: rest) = Some (s, l ++ rest).
Proof.
  induction l as [|[c' s'] l IH]; intros Hn.
  - simpl. by rewrite decide_True.
  - rewrite fmap_cons, not_elem_of_cons in Hn. destruct Hn as [Hne Hn].
    simpl in Hne. simpl. rewrite decide_False by done. by rewrite IH.
Qed.

(** X16. [enableRealtime] of a collection that is not subscribed asks for one
    subscription and keeps its unsubscribe function once it is there; a
    second [enableRealtime] then does nothing, and [disableRealtime] ends the
    subscription and forgets the function: the binding is as it was before. *)
Theorem enable_then_disable_leaves_no_subscription (c : string) (db : Db) :
  realtimeUnsubscribers db !! c = None ->
  c ∉ (suspended db).*1 ->
  served db !! next_subscription db = None ->
  let db1 := subscribe_resolves c (enableRealtime c db) in
  realtimeUnsubscribers db1 !! c = Some (next_subscription db) /\
  served db1 = <[next_subscription db := c]> (served db) /\
  enableRealtime c db1 = db1 /\
  realtimeUnsubscribers (disableRealtime c db1) = realtimeUnsubscribers db /\
  served (disableRealtime c db1) = served db /\
  suspended (disableRealtime c db1) = suspended db.
Proof.
  intros Hnone Hn Hfresh db1.
  assert (db1 = mkDb (<[c := next_subscription db]> (realtimeUnsubscribers db))
                  (suspended db) (<[next_subscription db := c]> (served db))
                  (S (next_subscription db))) as ->.
  { unfold db1, enableRealtime, subscribe_resolves. rewrite Hnone.
    rewrite bool_decide_eq_false_2 by (by intros [? ?]). cbn [suspended].
    rewrite take_suspended_app by done. by rewrite app_nil_r. }
  cbn [realtimeUnsubscribers served].
  split; [apply lookup_insert_eq|]. split; [done|]. split.
  - unfold enableRealtime. cbn [realtimeUnsubscribers]. rewrite lookup_insert_eq.
    by rewrite bool_decide_eq_true_2 by (by eexists).
  - unfold disableRealtime. cbn [realtimeUnsubscribers]. rewrite lookup_insert_eq.
    cbn [realtimeUnsubscribers served suspended].
    by rewrite !delete_insert_id.
Qed.

Lemma enable_then_disable_leaves_no_subscription_witness :
  let db1 := subscribe_resolves "posts" (enableRealtime "posts" init_db) in
  realtimeUnsubscribers db1 !! "posts" = Some 0%nat /\
  served db1 = <[0%nat := "posts"]> ∅ /\
  enableRealtime "posts" db1 = db1 /\
  realtimeUnsubscribers (disableRealtime "posts" db1) = ∅ /\
  served (disableRealtime "posts" db1) = ∅ /\
  suspended (disableRealtime "posts" db1) = [].
Proof.
  assert ("posts" ∉ (suspended init_db).*1) as Hn by (intros Hin; inversion Hin).
  exact (enable_then_disable_leaves_no_subscription "posts" init_db eq_refl Hn eq_refl).
Defined.

(** X17. [disableRealtime] of a collection whose [enableRealtime] is still
    waiting for PocketBase finds no unsubscribe function and does nothing;
    when the subscription arrives it is kept and served all the same. *)
Theorem disable_during_pending_enable_does_nothing (c : string) (db : Db) :
  realtimeUnsubscribers db !! c = None ->
  c ∉ (suspended db).*1 ->
  disableRealtime c (enableRealtime c db) = enableRealtime c db /\
  let db' := subscribe_resolves c (disableRealtime c (enableRealtime c db)) in
  realtimeUnsubscribers db' !! c = Some (next_subscription db) /\
  served db' !! next_subscription db = Some c.
Proof.
  intros Hnone Hn.
  assert (enableRealtime c db
          = mkDb (realtimeUnsubscribers db) (suspended db ++ [(c, next_subscription db)])
              (served db) (S (next_subscription db))) as Hen.
  { unfold enableRealtime. rewrite Hnone.
    by rewrite bool_decide_eq_false_2 by (by intros [? ?]). }
  assert (disableRealtime c (enableRealtime c db) = enableRealtime c db) as Hdis.
  { rewrite Hen. unfold disableRealtime. cbn [realtimeUnsubscribers]. by rewrite Hnone. }
  split; [done|]. rewrite Hdis, Hen. unfold subscribe_resolves. cbn [suspended].
  rewrite take_suspended_app by done. cbn [enableRealtime_resume realtimeUnsubscribers served].
  split; apply lookup_insert_eq.
Qed.

Lemma disable_during_pending_enable_does_nothing_witness :
  disableRealtime "posts" (enableRealtime "posts" init_db) = enableRealtime "posts" init_db /\
  let db' := subscribe_resolves "posts"
               (disableRealtime "posts" (enableRealtime "posts" init_db)) in
  realtimeUnsubscribers db' !! "posts" = Some 0%nat /\
  served db' !! 0%nat = Some "posts".
Proof.
  assert ("posts" ∉ (suspended init_db).*1) as Hn by (intros Hin; inversion Hin).
  exact (disable_during_pending_enable_does_nothing "posts" init_db eq_refl Hn).
Defined.

(** X18. Two calls of [enableRealtime] for the same collection, the second
    made before the first is past its [await], both pass the test and both
    subscribe; the second unsubscribe function replaces the first in the map,
    so that [disableRealtime] ends the second subscription only and the first
    goes on being served with nothing left to end it. *)
Theorem overlapping_enables_leave_a_subscription_behind (c : string) (db : Db) :
  realtimeUnsubscribers db !! c = None ->
  c ∉ (suspended db).*1 ->
  let n := next_subscription db in
  let db2 := subscribe_resolves c (subscribe_resolves c
               (enableRealtime c (enableRealtime c db))) in
  let db3 := disableRealtime c db2 in
  served db2 !! n = Some c /\ served db2 !! S n = Some c /\
  realtimeUnsubscribers db2 !! c = Some (S n) /\
  realtimeUnsubscribers db3 !! c = None /\
  served db3 !! n = Some c /\
  disableRealtime c db3 = db3.
Proof.
  intros Hnone Hn n db2 db3.
  assert (db2 = mkDb (<[c := S n]> (<[c := n]> (realtimeUnsubscribers db)))
                  (suspended db) (<[S n := c]> (<[n := c]> (served db))) (S (S n))) as Hdb2.
  { assert (forall d, realtimeUnsubscribers d !! c = None ->
              enableRealtime c d
              = mkDb (realtimeUnsubscribers d) (suspended d ++ [(c, next_subscription d)])
                  (served d) (S (next_subscription d))) as Hen.
    { intros d Hd. unfold enableRealtime. rewrite Hd.
      by rewrite bool_decide_eq_false_2 by (by intros [? ?]). }
    unfold db2. rewrite (Hen db Hnone), Hen by done.
    unfold subscribe_resolves at 2. cbn [realtimeUnsubscribers suspended served next_subscription].
    rewrite <- app_assoc. cbn [app]. rewrite take_suspended_app by done.
    unfold enableRealtime_resume, subscribe_resolves.
    cbn [realtimeUnsubscribers suspended served next_subscription].
    rewrite take_suspended_app by done. by rewrite app_nil_r. }
  assert (db3 = mkDb (delete c (<[c := S n]> (<[c := n]> (realtimeUnsubscribers db))))
                  (suspended db) (delete (S n) (<[S n := c]> (<[n := c]> (served db))))
                  (S (S n))) as Hdb3.
  { unfold db3, disableRealtime. rewrite Hdb2. cbn [realtimeUnsubscribers].
    by rewrite lookup_insert_eq. }
  rewrite Hdb2, Hdb3. cbn [realtimeUnsubscribers served].
  split; [rewrite lookup_insert_ne by lia; apply lookup_insert_eq|].
  split; [apply lookup_insert_eq|]. split; [apply lookup_insert_eq|].
  split; [apply lookup_delete_eq|]. split.
  - rewrite lookup_delete_ne by lia. rewrite lookup_insert_ne by lia. apply lookup_insert_eq.
  - unfold disableRealtime. cbn [realtimeUnsubscribers]. by rewrite lookup_delete_eq.
Qed.

Lemma overlapping_enables_leave_a_subscription_behind_witness :
  let db2 := subscribe_resolves "posts" (subscribe_resolves "posts"
               (enableRealtime "posts" (enableRealtime "posts" init_db))) in
  let db3 := disableRealtime "posts" db2 in
  served db2 !! 0%nat = Some "posts" /\ served db2 !! 1%nat = Some "posts" /\
  realtimeUnsubscribers db2 !! "posts" = Some 1%nat /\
  realtimeUnsubscribers db3 !! "posts" = None /\
  served db3 !! 0%nat = Some "posts" /\
  disableRealtime "posts" db3 = db3.
Proof.
  assert ("posts" ∉ (suspended init_db).*1) as Hn by (intros Hin; inversion Hin).
  exact (overlapping_enables_leave_a_subscription_behind "posts" init_db eq_refl Hn).
Defined.

(** ** Keeping the authentication in the store *)

(** A fan-out under one name leaves the sets of the other names in order. *)
Lemma emitted_world_bus (verdict : nat -> JsValue -> option JsError)
    (n : string) (p : JsValue) (w : World) (n' : string) :
  bus_ok w n -> bus_ok w n' ->
  bus_ok (emitted_world verdict n p w) n' /\
  length (listeners_at (emitted_world verdict n p w) n') = length (listeners_at w n').
Proof.
  intros Hok Hok'. unfold emitted_world.
  destruct (handlers w !! n) as [addr|] eqn:Hh.
  - destruct (Hok addr Hh) as (Hheap & Hnd & Hwrap).
    set (es := listeners_at w n) in *.
    set (w1 := after_fanout verdict n p addr [] es
                 (set_trace (trace w ++ [Emitted n p]) w)).
    assert (heap w1 = <[addr := fired <$> es]> (heap w)) as Hheap1 by done.
    assert (handlers w1 = handlers w) as Hh1 by done.
    assert (addr < length (heap w))%nat as Hlt by (by eapply lookup_lt_Some).
    destruct (handlers w !! n') as [addr'|] eqn:Hh'.
    + destruct (Hok' addr' Hh') as (Hheap' & Hnd' & Hwrap').
      destruct (decide (addr' = addr)) as [->|Hne].
      * assert (listeners_at w n' = es) as Hsame.
        { rewrite Hheap in Hheap'. by injection Hheap'. }
        assert (listeners_at w1 n' = fired <$> es) as Hl.
        { unfold listeners_at. rewrite Hh1, Hh', Hheap1.
          by rewrite list_lookup_insert_eq. }
        split; [|by rewrite Hl, Hsame, length_fmap].
        intros addr'' Hh''. rewrite Hh1, Hh' in Hh''. injection Hh'' as <-.
        rewrite Hl. split; [|split].
        -- rewrite Hheap1. by rewrite list_lookup_insert_eq.
        -- rewrite Set_values_fired. by apply NoDup_filter_list.
        -- intros uid m id Hin. by apply elem_of_fired in Hin as [_ ?].
      * assert (listeners_at w1 n' = listeners_at w n') as Hl.
        { unfold listeners_at. rewrite Hh1, Hh', Hheap1.
          by rewrite list_lookup_insert_ne. }
        split; [|by rewrite Hl].
        intros addr'' Hh''. rewrite Hh1, Hh' in Hh''. injection Hh'' as <-.
        rewrite Hl. split; [|split].
        -- rewrite Hheap1. by rewrite list_lookup_insert_ne.
        -- done.
        -- intros uid m id Hin. rewrite Hh1. by apply (Hwrap' uid m id).
    + split.
      * intros addr' Hx. rewrite Hh1 in Hx. congruence.
      * unfold listeners_at. by rewrite Hh1, Hh'.
  - split.
    + eapply bus_ok_frame; [..|exact Hok']; done.
    + done.
Qed.

Lemma written_room (key : string) (v : JsValue) (options : StateOptions) (p : Persist)
    (w : World) :
  has_room_for_two p w -> has_room p (written key v options w).
Proof.
  intros Hroom win1 Hwin1. unfold written in Hwin1.
  destruct (window w) as [win|] eqn:Hwin.
  - specialize (Hroom win Hwin).
    destruct (persist options) as [q|].
    + destruct (accepts (storage_of q win) (STORAGE_PREFIX +:+ key));
        cbn [window set_memoryStore set_window set_console] in Hwin1.
      * injection Hwin1 as <-.
        destruct p, q;
          cbn [storage_of with_storage sessionStorage localStorage items quota] in *;
          rewrite ?map_size_insert; try destruct (items _ !! _); simpl; lia.
      * rewrite Hwin in Hwin1. injection Hwin1 as <-. lia.
    + cbn [window set_memoryStore] in Hwin1. rewrite Hwin in Hwin1.
      injection Hwin1 as <-. lia.
  - cbn [window set_memoryStore] in Hwin1. congruence.
Qed.

Lemma lookup_room_for_two (p : Persist) (key : string) (tiers : list Tier) (w : World) :
  has_room_for_two p w -> has_room_for_two p (lookup_spec key tiers w).2.
Proof.
  intros Hroom win1 Hwin1.
  destruct (window w) as [win|] eqn:Hwin.
  - destruct (lookup_storage key tiers w win Hwin) as (win1' & Hwin1' & Hst).
    rewrite Hwin1 in Hwin1'. injection Hwin1' as <-.
    specialize (Hroom win Hwin).
    destruct (Hst p) as [-> [-> | ->]]; [done|].
    pose proof (map_subseteq_size _ _
                  (delete_subseteq (items (storage_of p win)) (STORAGE_PREFIX +:+ key))).
    lia.
  - destruct (lookup_spec_frame key tiers w) as [_ Hw].
    assert (is_Some (window w)) as [? ?] by (apply Hw; by eexists). congruence.
Qed.

(** What [set] leaves of the rest of the world. *)
Lemma set_frame (verdict : nat -> JsValue -> option JsError) (fuel : nat)
    (key : string) (v : JsValue) (options : StateOptions) (w w' : World) :
  memory_fresh key w ->
  bus_ok w (state_event key) ->
  (length (listeners_at w (state_event key)) < S fuel)%nat ->
  set (listener verdict) (S fuel) key v options w = Ret tt w' ->
  now w' = now w /\
  (is_Some (window w') <-> is_Some (window w)) /\
  (forall k', k' <> key -> memoryStore w' !! k' = memoryStore w !! k') /\
  (forall p rawKey, rawKey <> STORAGE_PREFIX +:+ key ->
     raw_in p rawKey w' = raw_in p rawKey w) /\
  (forall n, bus_ok w n ->
     bus_ok w' n /\ length (listeners_at w' n) = length (listeners_at w n)) /\
  (forall p, has_room_for_two p w -> has_room p w').
Proof.
  intros Hfresh Hok Hfuel Hset. rewrite set_spec in Hset by done.
  set (wr := (lookup_spec key lookup_order w).2) in *.
  set (old := (lookup_spec key lookup_order w).1) in *.
  assert (w' = emitted_world verdict (state_event key) (change_event v old)
                 (written key v options wr)) as -> by congruence.
  destruct (lookup_spec_frame key lookup_order w) as [Hbus Hwinr]. fold wr in Hbus, Hwinr.
  destruct (written_bus key v options wr) as (Hnoww & Hhw & Hpw & Htw & Hwinw).
  destruct (emitted_world_store verdict (state_event key) (change_event v old)
              (written key v options wr)) as (Hnow' & Hwin' & Hmem' & Hh').
  assert (forall n, bus_ok w n -> bus_ok (written key v options wr) n) as Hokw.
  { intros n Hn. eapply bus_ok_frame; [..|exact Hn].
    - rewrite Hpw. apply Hbus.
    - rewrite Hhw. apply Hbus. }
  assert (forall n, listeners_at (written key v options wr) n = listeners_at w n) as Hlw.
  { intros n. unfold listeners_at. rewrite Hhw, Hpw.
    destruct Hbus as (_ & -> & -> & _). done. }
  split; [|split; [|split; [|split; [|split]]]].
  - rewrite Hnow', Hnoww. apply Hbus.
  - rewrite Hwin'. by rewrite Hwinw.
  - intros k' Hne. rewrite Hmem', written_other_key by done. by apply lookup_other_key.
  - intros p rawKey Hne. rewrite emitted_world_raw, written_other_raw by done.
    by apply lookup_other_raw.
  - intros n Hn.
    destruct (emitted_world_bus verdict (state_event key) (change_event v old)
                (written key v options wr) n) as [Hb Hl]; [by apply Hokw..|].
    split; [done|]. by rewrite Hl, Hlw.
  - intros p Hroom win1 Hwin1. rewrite Hwin' in Hwin1.
    apply (written_room key v options p wr); [|done].
    by apply lookup_room_for_two.
Qed.

Lemma get_finds (body : nat -> JsValue -> M unit) (f : nat) (T : Tier) (key : string)
    (stored : StoredValue) (w : World) :
  entry_in T key w = Some stored ->
  expired_at (now w) stored = false ->
  (T = Ephemeral \/ memoryStore w !! key = None) ->
  nothing_live_ahead T key w ->
  get body (S f) key w = Ret (value stored) (lookup_spec key lookup_order w).2.
Proof.
  intros Hentry Hlive Hmem Hahead.
  destruct (lookup_finds T key stored w Hentry Hlive Hmem Hahead) as (Hval & _).
  assert (memory_fresh key w) as Hfresh.
  { intros mem Hm. destruct Hmem as [->|Hnone]; [|congruence].
    cbn [entry_in] in Hentry. congruence. }
  rewrite get_spec by done. by rewrite Hval.
Qed.

Lemma entry_in_frame (T : Tier) (key : string) (w w' : World) :
  memoryStore w' !! key = memoryStore w !! key ->
  (forall p, raw_in p (STORAGE_PREFIX +:+ key) w' = raw_in p (STORAGE_PREFIX +:+ key) w) ->
  entry_in T key w' = entry_in T key w.
Proof.
  intros Hm Hr. destruct T as [|p]; cbn [entry_in]; [done|].
  change (record_in p key w') with (raw_in p (STORAGE_PREFIX +:+ key) w').
  by rewrite Hr.
Qed.

Lemma nothing_live_ahead_frame (T : Tier) (key : string) (w w' : World) :
  now w' = now w ->
  (forall p, raw_in p (STORAGE_PREFIX +:+ key) w' = raw_in p (STORAGE_PREFIX +:+ key) w) ->
  nothing_live_ahead T key w -> nothing_live_ahead T key w'.
Proof.
  intros Hnow Hr. destruct T as [|[|]]; try done. simpl. intros Hahead sv Hsv.
  rewrite Hnow. apply Hahead. rewrite <- Hsv.
  change (record_in session key w) with (raw_in session (STORAGE_PREFIX +:+ key) w).
  by rewrite <- Hr.
Qed.

Lemma truthy_stored_as (T : Tier) (v : JsValue) : truthy (stored_as T v) = truthy v.
Proof. destruct T; [done|]. by destruct v. Qed.

(** X21. What [saveAuthState] keeps of a valid authentication,
    [restoreAuthState] finds again: the token, and the user record as the
    tier written to keeps it (the local storage, or the memory store without
    [window]).  The local storage must have room for the two records, and the
    session storage hold no live copy of the two keys. *)
Theorem saved_authentication_is_restored
    (verdict : nat -> JsValue -> option JsError) (body : nat -> JsValue -> M unit)
    (fuel f : nat) (pb : AuthStore) (w : World) :
  isValid pb = true ->
  token pb <> "" ->
  truthy (record pb) = true ->
  memory_fresh AUTH_TOKEN w ->
  memory_fresh AUTH_USER w ->
  bus_ok w (state_event AUTH_TOKEN) ->
  bus_ok w (state_event AUTH_USER) ->
  (length (listeners_at w (state_event AUTH_TOKEN)) < S fuel)%nat ->
  (length (listeners_at w (state_event AUTH_USER)) < S fuel)%nat ->
  has_room_for_two local w ->
  nothing_live_ahead (Persistent local) AUTH_TOKEN w ->
  nothing_live_ahead (Persistent local) AUTH_USER w ->
  exists w' w'',
    saveAuthState (listener verdict) (S fuel) (Some pb) w = Ret tt w' /\
    restoreAuthState body (S f) (Some pb) w'
    = Ret (Some (JStr (token pb),
                 stored_as (target_tier persist_local w) (record pb))) w''.
Proof.
  intros Hvalid Htoken Huser Hfresh1 Hfresh2 Hok1 Hok2 Hfuel1 Hfuel2 Hroom Hah1 Hah2.
  set (T := target_tier persist_local w).
  assert (T = Ephemeral \/ T = Persistent local) as HT.
  { unfold T, target_tier. destruct (window w); [by right|by left]. }
  assert (forall w0 key, nothing_live_ahead (Persistent local) key w0 ->
                         nothing_live_ahead T key w0) as Hahead.
  { intros w0 key H. by destruct HT as [-> | ->]. }
  assert (AUTH_USER <> AUTH_TOKEN) as Hne by discriminate.
  assert (STORAGE_PREFIX +:+ AUTH_USER <> STORAGE_PREFIX +:+ AUTH_TOKEN) as Hrne
    by discriminate.
  (* the token *)
  destruct (set_leaves_entry verdict fuel AUTH_TOKEN (JStr (token pb)) persist_local w)
    as (w1 & Hset1 & Hnow1 & Hentry1 & Hmem1 & Hahead1); try done.
  { fold T. intros p Hp. destruct HT as [HT|HT]; rewrite HT in Hp; [done|].
    injection Hp as <-. intros win Hwin. specialize (Hroom win Hwin). lia. }
  { by apply Hahead. }
  fold T in Hentry1, Hmem1, Hahead1.
  destruct (set_frame verdict fuel AUTH_TOKEN (JStr (token pb)) persist_local w w1)
    as (_ & Hwin1 & Hm1 & Hr1 & Hb1 & Hroom1); try done.
  (* the user *)
  assert (target_tier persist_local w1 = T) as HT1 by (by apply target_tier_same_window).
  destruct (Hb1 (state_event AUTH_USER) Hok2) as [Hok2' Hlen2].
  destruct (set_leaves_entry verdict fuel AUTH_USER (record pb) persist_local w1)
    as (w2 & Hset2 & Hnow2 & Hentry2 & Hmem2 & Hahead2).
  { intros mem Hm. rewrite Hm1 in Hm by done. rewrite Hnow1. by apply Hfresh2. }
  { done. }
  { by rewrite Hlen2. }
  { rewrite HT1. intros p Hp. destruct HT as [HT|HT]; rewrite HT in Hp; [done|].
    injection Hp as <-. by apply Hroom1. }
  { rewrite HT1. apply Hahead.
    apply (nothing_live_ahead_frame _ _ w); [done| |done].
    intros p. by apply Hr1. }
  rewrite HT1 in Hentry2, Hmem2, Hahead2. rewrite Hnow1 in Hentry2.
  destruct (set_frame verdict fuel AUTH_USER (record pb) persist_local w1 w2)
    as (_ & _ & Hm2 & Hr2 & _); try done.
  { intros mem Hm. rewrite Hm1 in Hm by done. rewrite Hnow1. by apply Hfresh2. }
  { by rewrite Hlen2. }
  (* reading the token back *)
  set (stored1 := mkStored (stored_as T (JStr (token pb))) None).
  set (stored2 := mkStored (stored_as T (record pb)) None).
  change (expiry_for (ttl persist_local) (now w)) with (@None Z) in Hentry1, Hentry2.
  fold stored1 in Hentry1. fold stored2 in Hentry2.
  assert (get body (S f) AUTH_TOKEN w2
          = Ret (JStr (token pb)) (lookup_spec AUTH_TOKEN lookup_order w2).2) as Hget1.
  { replace (JStr (token pb)) with (value stored1) by (by destruct T).
    apply (get_finds body f T).
    - rewrite <- Hentry1. apply entry_in_frame; [by apply Hm2|].
      intros p. apply Hr2. by apply not_eq_sym.
    - done.
    - destruct Hmem1 as [?|Hmem1]; [by left|right]. by rewrite Hm2.
    - apply (nothing_live_ahead_frame _ _ w1); [done| |done].
      intros p. apply Hr2. by apply not_eq_sym. }
  set (w3 := (lookup_spec AUTH_TOKEN lookup_order w2).2) in *.
  destruct (lookup_spec_frame AUTH_TOKEN lookup_order w2) as [(Hnow3 & _) _].
  fold w3 in Hnow3.
  assert (get body (S f) AUTH_USER w3
          = Ret (stored_as T (record pb)) (lookup_spec AUTH_USER lookup_order w3).2)
    as Hget2.
  { change (stored_as T (record pb)) with (value stored2).
    apply (get_finds body f T).
    - rewrite <- Hentry2. apply entry_in_frame; [by apply lookup_other_key|].
      intros p. by apply lookup_other_raw.
    - done.
    - destruct Hmem2 as [?|Hmem2]; [by left|right].
      unfold w3. by rewrite lookup_other_key.
    - apply (nothing_live_ahead_frame _ _ w2); [done| |done].
      intros p. by apply lookup_other_raw. }
  exists w2, (lookup_spec AUTH_USER lookup_order w3).2. split.
  - unfold saveAuthState. rewrite Hvalid. unfold bind. by rewrite Hset1.
  - unfold restoreAuthState. unfold bind at 1. rewrite Hget1. fold w3.
    unfold bind. rewrite Hget2. rewrite truthy_stored_as, Huser.
    cbn [truthy]. apply String.eqb_neq in Htoken. by rewrite Htoken.
Qed.

Lemma saved_authentication_is_restored_witness :
  memory_fresh AUTH_TOKEN empty_world /\
  exists w' w'',
    saveAuthState (listener demo_verdict) 1 (Some signed_in) empty_world = Ret tt w' /\
    restoreAuthState (listener demo_verdict) 1 (Some signed_in) w'
    = Ret (Some (JStr "t0k3n", JObj [("id", JStr "u1")])) w''.
Proof.
  assert (memory_fresh AUTH_TOKEN empty_world) as Hfresh1 by (intros mem Hmem; done).
  assert (memory_fresh AUTH_USER empty_world) as Hfresh2 by (intros mem Hmem; done).
  assert (bus_ok empty_world (state_event AUTH_TOKEN)) as Hok1 by (intros addr H; done).
  assert (bus_ok empty_world (state_event AUTH_USER)) as Hok2 by (intros addr H; done).
  assert (length (listeners_at empty_world (state_event AUTH_TOKEN)) < 1)%nat as Hfuel1
    by (vm_compute; lia).
  assert (length (listeners_at empty_world (state_event AUTH_USER)) < 1)%nat as Hfuel2
    by (vm_compute; lia).
  assert (has_room_for_two local empty_world) as Hroom.
  { intros win [= <-]. vm_compute. lia. }
  assert (nothing_live_ahead (Persistent local) AUTH_TOKEN empty_world) as Hah1
    by (intros sv Hsv; done).
  assert (nothing_live_ahead (Persistent local) AUTH_USER empty_world) as Hah2
    by (intros sv Hsv; done).
  assert (token signed_in <> "") as Htoken by discriminate.
  split; [exact Hfresh1|].
  exact (saved_authentication_is_restored demo_verdict (listener demo_verdict) 0 0
           signed_in empty_world eq_refl Htoken eq_refl Hfresh1 Hfresh2 Hok1 Hok2
           Hfuel1 Hfuel2 Hroom Hah1 Hah2).
Defined.

(** ** Reading twice, and reading after [remove] *)

Lemma purge_same_tier (t : Tier) (key : string) (w : World) :
  entry_in t key (purge_from t key w) = None.
Proof.
  destruct t as [|p]; cbn [entry_in purge_from].
  - cbn [memoryStore set_memoryStore]. apply lookup_delete_eq.
  - by rewrite record_in_delete_same.
Qed.

Lemma purge_other_tier (t t' : Tier) (key : string) (w : World) :
  t' <> t -> entry_in t' key (purge_from t key w) = entry_in t' key w.
Proof.
  intros Hne. destruct t as [|p], t' as [|p']; cbn [entry_in purge_from]; try done.
  - by rewrite delete_record_memory.
  - rewrite record_in_delete_other; [done|congruence].
Qed.

Lemma purge_now (t : Tier) (key : string) (w : World) : now (purge_from t key w) = now w.
Proof. by destruct (purge_from_frame t key w) as [(-> & _) _]. Qed.

Lemma lookup_now (key : string) (tiers : list Tier) (w : World) :
  now (lookup_spec key tiers w).2 = now w.
Proof. by destruct (lookup_spec_frame key tiers w) as [(-> & _) _]. Qed.

Lemma lookup_keeps_tier (t' : Tier) (key : string) (tiers : list Tier) (w : World) :
  t' ∉ tiers -> entry_in t' key (lookup_spec key tiers w).2 = entry_in t' key w.
Proof.
  revert w. induction tiers as [|t tiers IH]; intros w Hn; [done|].
  rewrite not_elem_of_cons in Hn. destruct Hn as [Hne Hn].
  cbn [lookup_spec]. destruct (entry_in t key w) as [sv|]; [|by apply IH].
  destruct (expired_at (now w) sv); [|done].
  rewrite IH by done. by apply purge_other_tier.
Qed.

Lemma lookup_spec_cons (key : string) (t : Tier) (tiers : list Tier) (w : World) :
  lookup_spec key (t :: tiers) w
  = match entry_in t key w with
    | Some sv =>
        if expired_at (now w) sv then lookup_spec key tiers (purge_from t key w)
        else (value sv, w)
    | None => lookup_spec key tiers w
    end.
Proof. reflexivity. Qed.

(** A second lookup finds what the first one found, and has nothing left to
    purge. *)
Lemma lookup_idem (key : string) (tiers : list Tier) (w : World) :
  NoDup tiers ->
  lookup_spec key tiers (lookup_spec key tiers w).2 = lookup_spec key tiers w.
Proof.
  revert w. induction tiers as [|t tiers IH]; intros w Hnd; [done|].
  apply NoDup_cons in Hnd as [Hnotin Hnd].
  rewrite (lookup_spec_cons key t tiers w).
  destruct (entry_in t key w) as [sv|] eqn:Hentry.
  - destruct (expired_at (now w) sv) eqn:Hexp.
    + rewrite lookup_spec_cons, lookup_keeps_tier, purge_same_tier by done.
      by apply IH.
    + cbn [snd]. by rewrite lookup_spec_cons, Hentry, Hexp.
  - rewrite lookup_spec_cons, lookup_keeps_tier, Hentry by done. by apply IH.
Qed.

(** The value a lookup returns depends on the entries of the key and on the
    clock only. *)
Lemma lookup_value_frame (key : string) (tiers : list Tier) (w w' : World) :
  now w' = now w ->
  (forall t, entry_in t key w' = entry_in t key w) ->
  (lookup_spec key tiers w').1 = (lookup_spec key tiers w).1.
Proof.
  revert w w'. induction tiers as [|t tiers IH]; intros w w' Hnow Hsame; [done|].
  cbn [lookup_spec]. rewrite Hsame, Hnow.
  destruct (entry_in t key w) as [sv|]; [|by apply IH].
  destruct (expired_at (now w) sv); [|done].
  apply IH; [by rewrite !purge_now|].
  intros t0. destruct (decide (t0 = t)) as [->|Hne].
  - by rewrite !purge_same_tier.
  - by rewrite !purge_other_tier.
Qed.

Lemma NoDup_lookup_order : NoDup lookup_order.
Proof. apply (bool_decide_unpack _). vm_compute. reflexivity. Qed.

(** What [remove] leaves of the world: the key reads as absent, and the rest
    is as it was. *)
Lemma remove_frame (verdict : nat -> JsValue -> option JsError) (fuel : nat)
    (key : string) (w : World) :
  memory_fresh key w ->
  bus_ok w (state_event key) ->
  (length (listeners_at w (state_event key)) < S fuel)%nat ->
  exists w',
    remove (listener verdict) (S fuel) key w = Ret tt w' /\
    now w' = now w /\
    memory_fresh key w' /\
    (lookup_spec key lookup_order w').1 = JUndefined /\
    (forall k', k' <> key -> memoryStore w' !! k' = memoryStore w !! k') /\
    (forall p rawKey, rawKey <> STORAGE_PREFIX +:+ key ->
       raw_in p rawKey w' = raw_in p rawKey w) /\
    (forall n, bus_ok w n ->
       bus_ok w' n /\ length (listeners_at w' n) = length (listeners_at w n)).
Proof.
  intros Hfresh Hok Hfuel. rewrite remove_unfold by done.
  set (wr := (lookup_spec key lookup_order w).2) in *.
  set (old := (lookup_spec key lookup_order w).1) in *.
  destruct (lookup_spec_frame key lookup_order w) as [Hbus _]. fold wr in Hbus.
  destruct (is_undefined old) eqn:Hold.
  - exists wr. split; [done|]. split; [apply lookup_now|]. split; [|split].
    + intros mem Hm. unfold wr in Hm |- *.
      rewrite lookup_order_memory in Hm by done. rewrite lookup_now. by apply Hfresh.
    + unfold wr. rewrite lookup_idem by apply NoDup_lookup_order.
      fold old. by destruct old.
    + split; [intros k' Hne; by apply lookup_other_key|].
      split; [intros p rawKey Hne; by apply lookup_other_raw|].
      intros n Hn. split; [by eapply bus_ok_same|]. by rewrite (listeners_at_same w).
  - assert (same_bus w (removed key wr)) as Hbus2
      by (eapply same_bus_trans; [exact Hbus|apply removed_same_bus]).
    rewrite emit_spec;
      [|by eapply bus_ok_same|by rewrite (listeners_at_same w)].
    eexists. split; [done|].
    destruct (emitted_world_store verdict (state_event key) (change_event JUndefined old)
                (removed key wr)) as (Hnow' & Hwin' & Hmem' & _).
    split; [rewrite Hnow'; by destruct Hbus2 as (-> & _)|]. split; [|split].
    + intros mem Hm. by rewrite Hmem', removed_memory in Hm.
    + unfold lookup_order. cbn [lookup_spec entry_in].
      rewrite Hmem', removed_memory. unfold record_in. rewrite Hwin'.
      fold (record_in session key (removed key wr)).
      fold (record_in local key (removed key wr)).
      by rewrite !removed_record.
    + split; [intros k' Hne; rewrite Hmem', removed_other_key by done;
              by apply lookup_other_key|].
      split; [intros p rawKey Hne; rewrite emitted_world_raw, removed_other_raw by done;
              by apply lookup_other_raw|].
      intros n Hn.
      destruct (emitted_world_bus verdict (state_event key) (change_event JUndefined old)
                  (removed key wr) n) as [Hb Hl]; [by eapply bus_ok_same..|].
      split; [done|]. by rewrite Hl, (listeners_at_same w).
Qed.

(** X22. After [saveAuthState] on an authentication that is not valid, both
    keys read as absent and [restoreAuthState] restores nothing. *)
Theorem invalid_authentication_is_not_restored
    (verdict : nat -> JsValue -> option JsError) (body : nat -> JsValue -> M unit)
    (fuel f : nat) (pb : AuthStore) (w : World) :
  isValid pb = false ->
  memory_fresh AUTH_TOKEN w ->
  memory_fresh AUTH_USER w ->
  bus_ok w (state_event AUTH_TOKEN) ->
  bus_ok w (state_event AUTH_USER) ->
  (length (listeners_at w (state_event AUTH_TOKEN)) < S fuel)%nat ->
  (length (listeners_at w (state_event AUTH_USER)) < S fuel)%nat ->
  exists w' w1 w'',
    saveAuthState (listener verdict) (S fuel) (Some pb) w = Ret tt w' /\
    get body (S f) AUTH_TOKEN w' = Ret JUndefined w1 /\
    get body (S f) AUTH_USER w1 = Ret JUndefined w'' /\
    restoreAuthState body (S f) (Some pb) w' = Ret None w''.
Proof.
  intros Hvalid Hfresh1 Hfresh2 Hok1 Hok2 Hfuel1 Hfuel2.
  assert (AUTH_USER <> AUTH_TOKEN) as Hne by discriminate.
  assert (STORAGE_PREFIX +:+ AUTH_USER <> STORAGE_PREFIX +:+ AUTH_TOKEN) as Hrne
    by discriminate.
  destruct (remove_frame verdict fuel AUTH_TOKEN w Hfresh1 Hok1 Hfuel1)
    as (w1 & Hrem1 & Hnow1 & Hf1 & Hgone1 & Hm1 & Hr1 & Hb1).
  destruct (Hb1 (state_event AUTH_USER) Hok2) as [Hok2' Hlen2].
  assert (memory_fresh AUTH_USER w1) as Hfresh2'.
  { intros mem Hm. rewrite Hm1 in Hm by done. rewrite Hnow1. by apply Hfresh2. }
  assert (length (listeners_at w1 (state_event AUTH_USER)) < S fuel)%nat as Hfuel2'
    by (by rewrite Hlen2).
  destruct (remove_frame verdict fuel AUTH_USER w1 Hfresh2' Hok2' Hfuel2')
    as (w2 & Hrem2 & Hnow2 & Hf2 & Hgone2 & Hm2 & Hr2 & _).
  (* the token is still absent once the user is removed *)
  assert (forall t, entry_in t AUTH_TOKEN w2 = entry_in t AUTH_TOKEN w1) as Hsame.
  { intros t. apply entry_in_frame; [apply Hm2; by apply not_eq_sym|].
    intros p. apply Hr2. by apply not_eq_sym. }
  assert ((lookup_spec AUTH_TOKEN lookup_order w2).1 = JUndefined) as Hgone1'
    by (by rewrite (lookup_value_frame AUTH_TOKEN lookup_order w1 w2)).
  assert (memory_fresh AUTH_TOKEN w2) as Hfresh1'.
  { intros mem Hm. pose proof (Hsame Ephemeral) as He. cbn [entry_in] in He.
    rewrite He in Hm. rewrite Hnow2. by apply Hf1. }
  set (w3 := (lookup_spec AUTH_TOKEN lookup_order w2).2).
  assert (get body (S f) AUTH_TOKEN w2 = Ret JUndefined w3) as Hget1.
  { rewrite get_spec by done. by rewrite Hgone1'. }
  assert ((lookup_spec AUTH_USER lookup_order w3).1 = JUndefined) as Hgone2'.
  { rewrite (lookup_value_frame AUTH_USER lookup_order w2 w3); [done|apply lookup_now|].
    intros t. apply entry_in_frame; [by apply lookup_other_key|].
    intros p. by apply lookup_other_raw. }
  assert (memory_fresh AUTH_USER w3) as Hfresh3.
  { intros mem Hm. unfold w3 in Hm |- *. rewrite lookup_other_key in Hm by done.
    rewrite lookup_now. by apply Hf2. }
  assert (get body (S f) AUTH_USER w3
          = Ret JUndefined (lookup_spec AUTH_USER lookup_order w3).2) as Hget2.
  { rewrite get_spec by done. by rewrite Hgone2'. }
  exists w2, w3, (lookup_spec AUTH_USER lookup_order w3).2.
  split; [|split; [done|split; [done|]]].
  - unfold saveAuthState. rewrite Hvalid. unfold bind. by rewrite Hrem1.
  - unfold restoreAuthState. unfold bind at 1. rewrite Hget1.
    unfold bind. by rewrite Hget2.
Qed.

Lemma invalid_authentication_is_not_restored_witness :
  memory_fresh AUTH_TOKEN live_session /\
  exists w' w1 w'',
    saveAuthState (listener demo_verdict) 1 (Some (mkAuthStore false "" JNull)) live_session
    = Ret tt w' /\
    get (listener demo_verdict) 1 AUTH_TOKEN w' = Ret JUndefined w1 /\
    get (listener demo_verdict) 1 AUTH_USER w1 = Ret JUndefined w'' /\
    restoreAuthState (listener demo_verdict) 1 (Some (mkAuthStore false "" JNull)) w'
    = Ret None w''.
Proof.
  assert (memory_fresh AUTH_TOKEN live_session) as Hfresh1 by (intros mem Hmem; done).
  assert (memory_fresh AUTH_USER live_session) as Hfresh2 by (intros mem Hmem; done).
  assert (bus_ok live_session (state_event AUTH_TOKEN)) as Hok1 by (intros addr H; done).
  assert (bus_ok live_session (state_event AUTH_USER)) as Hok2 by (intros addr H; done).
  assert (length (listeners_at live_session (state_event AUTH_TOKEN)) < 1)%nat as Hfuel1
    by (vm_compute; lia).
  assert (length (listeners_at live_session (state_event AUTH_USER)) < 1)%nat as Hfuel2
    by (vm_compute; lia).
  split; [exact Hfresh1|].
  exact (invalid_authentication_is_not_restored demo_verdict (listener demo_verdict) 0 0
           (mkAuthStore false "" JNull) live_session eq_refl Hfresh1 Hfresh2 Hok1 Hok2
           Hfuel1 Hfuel2).
Defined.

(** X23. A [get] repeated at once returns the same value and changes nothing
    more: whatever lazy expiry there was to do, the first [get] did. *)
Theorem get_twice_is_get_once
    (body : nat -> JsValue -> M unit) (fuel f : nat) (key : string) (w : World)
    (v : JsValue) (w' : World) :
  get body (S fuel) key w = Ret v w' ->
  get body (S f) key w' = Ret v w'.
Proof.
  intros Hget.
  pose proof (get_returns_fresh _ _ _ _ _ _ Hget) as Hfresh.
  rewrite get_spec in Hget by done.
  assert ((lookup_spec key lookup_order w).1 = v /\
          (lookup_spec key lookup_order w).2 = w') as [Hv Hw] by (by injection Hget).
  assert (memory_fresh key w') as Hfresh'.
  { intros mem Hm. rewrite <- Hw in Hm |- *.
    rewrite lookup_order_memory in Hm by done. rewrite lookup_now. by apply Hfresh. }
  rewrite get_spec by done. rewrite <- Hw at 1 2.
  rewrite lookup_idem by apply NoDup_lookup_order. by rewrite Hv, Hw.
Qed.

Lemma get_twice_is_get_once_witness :
  get (listener demo_verdict) 1 "k" (purge_from (Persistent session) "k" stale_session)
  = Ret (JNum 2) (purge_from (Persistent session) "k" stale_session).
Proof.
  assert (get (listener demo_verdict) 1 "k" stale_session
          = Ret (JNum 2) (purge_from (Persistent session) "k" stale_session)) as Hget
    by (vm_compute; reflexivity).
  exact (get_twice_is_get_once (listener demo_verdict) 0 0 "k" stale_session (JNum 2)
           (purge_from (Persistent session) "k" stale_session) Hget).
Defined.

(** ** Hosts that withhold a storage *)

Section HostedFacts.

Variable host : Persist -> Access.







Section WithBody.

Variable body : nat -> JsValue -> M unit.


Lemma get_on_memory_expired (fuel : nat) (key : string) (mem : StoredValue) (w : World) :
  memoryStore w !! key = Some mem -> expired_at (now w) mem = true ->
  get_on host body fuel key w = Exn RangeError w.
Proof.
  intros Hmem Hexp. induction fuel as [|fuel IH]; [done|].
  cbn [get_on]. unfold bind at 1, memoryStore_get, gets. rewrite Hmem.
  unfold bind at 1. rewrite isExpired_spec, Hexp.
  unfold bind at 1, remove_with_on. unfold bind at 1. by rewrite IH.
Qed.










End WithBody.

(** *** One tier of [list] and of [clear] *)







(** *** A getter that throws *)




End HostedFacts.

(** *** The host where both storages are there *)

Lemma bind_cong {A B} (m m' : M A) (k k' : A -> M B) (w : World) :
  m w = m' w -> (forall a w', k a w' = k' a w') -> bind m k w = bind m' k' w.
Proof. intros Hm Hk. unfold bind. rewrite Hm. destruct (m' w); auto. Qed.

Lemma getStorage_on_granted (persist : option Persist) (w : World) :
  getStorage_on granted persist w = getStorage persist w.
Proof.
  unfold getStorage_on, getStorage, bind, gets, granted.
  destruct (window w); [|done]. by destruct persist as [[|]|].
Qed.

Lemma get_persistent_on_granted (key : string) (ps : list Persist) (w : World) :
  get_persistent_on granted key ps w = get_persistent key ps w.
Proof.
  revert w. induction ps as [|p ps IH]; intros w; [done|].
  cbn [get_persistent_on get_persistent].
  apply bind_cong; [apply getStorage_on_granted|]. intros [q|] w1; [|apply IH].
  apply bind_cong; [done|]. intros [stored|] w2; [|apply IH].
  apply bind_cong; [done|]. intros [|] w3; [|done].
  apply bind_cong; [done|]. intros _ w4. apply IH.
Qed.

Lemma remove_persistent_on_granted (key : string) (ps : list Persist) (w : World) :
  remove_persistent_on granted key ps w = remove_persistent key ps w.
Proof.
  revert w. induction ps as [|p ps IH]; intros w; [done|].
  cbn [remove_persistent_on remove_persistent].
  apply bind_cong; [apply getStorage_on_granted|]. intros [q|] w1; [|apply IH].
  apply bind_cong; [done|]. intros _ w2. apply IH.
Qed.

Lemma remove_with_on_granted (get get' : string -> M JsValue)
    (emit : string -> JsValue -> M unit) (key : string) (w : World) :
  (forall k w', get k w' = get' k w') ->
  remove_with_on granted get emit key w = remove_with get' emit key w.
Proof.
  intros Hget. unfold remove_with_on, remove_with.
  apply bind_cong; [apply Hget|]. intros old w1.
  destruct (is_undefined old); [done|].
  apply bind_cong; [done|]. intros _ w2.
  apply bind_cong; [apply remove_persistent_on_granted|done].
Qed.

(** On that host the store is the one defined first. *)
Lemma get_on_granted (body : nat -> JsValue -> M unit) (fuel : nat) (key : string)
    (w : World) :
  get_on granted body fuel key w = get body fuel key w.
Proof.
  revert key w. induction fuel as [|fuel IH]; intros key w; [done|].
  cbn [get_on get].
  apply bind_cong; [done|]. intros [mem|] w1; [|apply get_persistent_on_granted].
  apply bind_cong; [done|]. intros [|] w2; [|done].
  apply bind_cong; [|done]. by apply remove_with_on_granted.
Qed.

Lemma remove_on_granted (body : nat -> JsValue -> M unit) (fuel : nat) (key : string)
    (w : World) :
  remove_on granted body fuel key w = remove body fuel key w.
Proof.
  unfold remove_on, remove. apply remove_with_on_granted. intros k w'. apply get_on_granted.
Qed.

Lemma has_on_granted (body : nat -> JsValue -> M unit) (fuel : nat) (key : string)
    (w : World) :
  has_on granted body fuel key w = has body fuel key w.
Proof. unfold has_on, has. apply bind_cong; [apply get_on_granted|done]. Qed.

Lemma set_on_granted (body : nat -> JsValue -> M unit) (fuel : nat) (key : string)
    (v : JsValue) (options : StateOptions) (w : World) :
  set_on granted body fuel key v options w = set body fuel key v options w.
Proof.
  unfold set_on, set. apply bind_cong; [apply get_on_granted|]. intros old w1.
  apply bind_cong; [done|]. intros exp w2.
  apply bind_cong; [apply getStorage_on_granted|done].
Qed.

Lemma state_list_on_granted (w : World) : state_list_on granted w = state_list w.
Proof.
  unfold state_list_on, state_list.
  apply bind_cong; [done|]. intros entries w1.
  apply bind_cong; [done|]. intros result w2.
  generalize [session; local]. intros ps. revert result w2.
  induction ps as [|p ps IH]; intros result w2; [done|].
  cbn [list_persistent_on list_persistent].
  apply bind_cong; [apply getStorage_on_granted|]. intros [q|] w3; [|apply IH].
  apply bind_cong; [done|]. intros len w4.
  apply bind_cong; [done|]. intros result' w5. apply IH.
Qed.

Lemma clear_on_granted (w : World) : clear_on granted w = clear w.
Proof.
  unfold clear_on, clear. apply bind_cong; [done|]. intros _ w1.
  generalize [session; local]. intros ps. revert w1.
  induction ps as [|p ps IH]; intros w1; [done|].
  cbn [clear_persistent_on clear_persistent].
  apply bind_cong; [apply getStorage_on_granted|]. intros [q|] w2; [|apply IH].
  apply bind_cong; [done|]. intros len w3.
  apply bind_cong; [done|]. intros ks w4.
  apply bind_cong; [done|]. intros _ w5. apply IH.
Qed.


